(** * spatial-cpp: the uniform grid, embedded and verified

    A shallow embedding of [spatial::Grid] (with [Vector2], [Rect] and
    [utils::Matrix]) and the properties of its cell indexing, mutation
    operations and proximity queries.

    Conventions of the embedding.
    - The scalar type [T] is [float], as the test suite instantiates the
      templates ([Grid<float, Body, BodyPositionGetter>], [FloatRect]):
      IEEE 754 binary32 with rounding to nearest, ties to even, signed
      zeros, infinities and NaN.  [std::pow] promotes its arguments to
      [double], binary64.  The conversions the language leaves undefined are
      the outcome [Undefined].
    - [std::size_t] is a 64-bit unsigned integer: [N] with the wrap-around
      written where the code computes; [int] is a 32-bit signed integer.
    - A body is identified by its address; a [std::shared_ptr<Body>] is the
      address it holds.  [PositionGetter] reads the current state of the body
      at that address, so it is a function from addresses to positions and
      every operation takes it as it is at the time of the call.
    - A [cell_t &] is the position of the cell in the matrix buffer.
    - The two build profiles ([NDEBUG] defined or not) are a parameter.
    - A mutating operation returns the Grid it leaves behind.  Every
      exception of the code is thrown before the first mutation, so an
      operation that throws leaves the Grid as it was and returns none. *)

From Stdlib Require Import ZArith NArith QArith Qround Qpower Qreduction.
From Stdlib Require Import Qreals Reals List Bool.
From stdpp Require Import base gmap list.
From Stdlib Require Import Lia Psatz.
Import ListNotations.

(** ** Outcomes: a value, an exception of [utils/thrower], or undefined
    behaviour *)

Inductive build_profile : Type :=
| Validated    (* NDEBUG not defined: every check is compiled in *)
| Performance  (* NDEBUG defined: the checks are compiled out *).

Inductive exception : Type :=
| runtime_error
| invalid_argument
| out_of_range.

Inductive outcome (A : Type) : Type :=
| Ok (a : A)
| Throw (e : exception)
| Undefined.
Arguments Ok {A} a.
Arguments Throw {A} e.
Arguments Undefined {A}.

#[global] Instance outcome_ret : MRet outcome := fun A a => Ok a.
#[global] Instance outcome_bind : MBind outcome := fun A B k o =>
  match o with
  | Ok a => k a
  | Throw e => Throw e
  | Undefined => Undefined
  end.

#[global] Instance outcome_fmap : FMap outcome := fun A B f o =>
  match o with
  | Ok a => Ok (f a)
  | Throw e => Throw e
  | Undefined => Undefined
  end.

Definition validated (b : build_profile) : bool :=
  match b with Validated => true | Performance => false end.

(** [throwInvalidArgument], [throwOutOfRange], [throwRuntimeError]. *)
Definition throwRuntimeError {A : Type} : outcome A := Throw runtime_error.
Definition throwInvalidArgument {A : Type} : outcome A :=
  Throw invalid_argument.
Definition throwOutOfRange {A : Type} : outcome A := Throw out_of_range.

(** ** Machine integers *)

Definition size_max : N := 2 ^ 64.
Definition wrap (n : N) : N := (n mod size_max)%N.
(** [a - b] on [std::size_t]. *)
Definition wrap_sub (a b : N) : N := wrap (a + size_max - wrap b).

Definition INT_MAX : Z := 2147483647.
Definition INT_MIN : Z := -2147483648.
(** [static_cast<int>(n)] for a [std::size_t]: the value modulo [2^32]. *)
Definition size_to_int (n : N) : Z :=
  let m := ((Z.of_N n) mod 2 ^ 32)%Z in
  if (m <=? INT_MAX)%Z then m else (m - 2 ^ 32)%Z.
(** Signed addition overflows into undefined behaviour. *)
Definition int_add (a b : Z) : outcome Z :=
  let s := (a + b)%Z in
  if ((INT_MIN <=? s) && (s <=? INT_MAX))%Z then Ok s else Undefined.

(** ** Scalars: IEEE 754 binary floating point

    [T] is [float], the binary32 format; [std::pow] computes in [double],
    the binary64 format.  A number of either format is kept as the rational
    it stands for, a zero with its sign, an infinity or a NaN, and an
    operation of a format is the exact operation followed by the rounding
    to the nearest number of the format, ties to even. *)

Record format : Type := mkFormat { precision : Z; emax : Z }.
Definition binary32 : format := mkFormat 24 128.
Definition binary64 : format := mkFormat 53 1024.
(** The exponent of the smallest positive number, [2 ^ emin]. *)
Definition emin (fmt : format) : Z := (3 - emax fmt - precision fmt)%Z.

Inductive float : Type :=
| Fnum (q : Q)  (* a finite number other than zero *)
| Fzero (negative : bool)
| Finf (negative : bool)
| Fnan.

(** The rational a finite number stands for. *)
Definition value (a : float) : Q :=
  match a with Fnum q => q | _ => 0 end.

Definition is_finite (a : float) : bool :=
  match a with Fnum _ | Fzero _ => true | _ => false end.

Definition signbit (a : float) : bool :=
  match a with
  | Fnum q => negb (Qle_bool 0 q)
  | Fzero s | Finf s => s
  | Fnan => false
  end.

(** [floor (log2 q)] of a positive rational. *)
Definition ilog2 (q : Q) : Z :=
  let l := (Z.log2 (Qnum q) - Z.log2 (Zpos (Qden q)))%Z in
  if Qle_bool (2 ^ l)%Q q then l else (l - 1)%Z.

(** The nearest integer, ties to even. *)
Definition rne (q : Q) : Z :=
  let f := Qfloor q in
  match ((q - inject_Z f)%Q ?= 1 # 2)%Q with
  | Lt => f
  | Gt => (f + 1)%Z
  | Eq => if Z.even f then f else (f + 1)%Z
  end.

(** The exponent of the unit in the last place of a positive rational: the
    numbers of the format around [a] are the multiples of [2 ^ quantum]. *)
Definition quantum (fmt : format) (a : Q) : Z :=
  Z.max (ilog2 a + 1 - precision fmt)%Z (emin fmt).

(** The nearest multiple of the unit in the last place of a positive
    rational. *)
Definition nearest (fmt : format) (a : Q) : Q :=
  let e := quantum fmt a in (inject_Z (rne (a / 2 ^ e)) * 2 ^ e)%Q.

(** The rounding of the magnitude [a]: an overflow gives an infinity, an
    underflow to nothing a zero; both keep the sign. *)
Definition round_magnitude (fmt : format) (negative : bool) (a : Q) : float :=
  let v := nearest fmt a in
  if Qle_bool (2 ^ emax fmt)%Q v then Finf negative
  else if Qeq_bool v 0 then Fzero negative
  else Fnum (Qred (if negative then - v else v)).

(** The rounding of an exact result; an exact zero is [+0]. *)
Definition round_to (fmt : format) (q : Q) : float :=
  let q := Qred q in
  match Qnum q with
  | Z0 => Fzero false
  | Zpos n => round_magnitude fmt false (Zpos n # Qden q)
  | Zneg n => round_magnitude fmt true (Zpos n # Qden q)
  end.

Definition float_opp (a : float) : float :=
  match a with
  | Fnum q => Fnum (- q)
  | Fzero s => Fzero (negb s)
  | Finf s => Finf (negb s)
  | Fnan => Fnan
  end.

Definition float_add (fmt : format) (a b : float) : float :=
  match a, b with
  | Fnan, _ | _, Fnan => Fnan
  | Finf s1, Finf s2 => if Bool.eqb s1 s2 then a else Fnan
  | Finf _, _ => a
  | _, Finf _ => b
  | Fzero s1, Fzero s2 => Fzero (s1 && s2)
  | _, _ => round_to fmt (value a + value b)
  end.

Definition float_sub (fmt : format) (a b : float) : float :=
  float_add fmt a (float_opp b).

Definition float_mul (fmt : format) (a b : float) : float :=
  match a, b with
  | Fnan, _ | _, Fnan => Fnan
  | Finf _, Fzero _ | Fzero _, Finf _ => Fnan
  | Finf _, _ | _, Finf _ => Finf (xorb (signbit a) (signbit b))
  | Fzero _, _ | _, Fzero _ => Fzero (xorb (signbit a) (signbit b))
  | Fnum p, Fnum q => round_to fmt (p * q)
  end.

Definition float_div (fmt : format) (a b : float) : float :=
  match a, b with
  | Fnan, _ | _, Fnan => Fnan
  | Finf _, Finf _ => Fnan
  | Fzero _, Fzero _ => Fnan
  | Finf _, _ => Finf (xorb (signbit a) (signbit b))
  | _, Finf _ => Fzero (xorb (signbit a) (signbit b))
  | _, Fzero _ => Finf (xorb (signbit a) (signbit b))
  | Fzero _, _ => Fzero (xorb (signbit a) (signbit b))
  | Fnum p, Fnum q => round_to fmt (p / q)
  end.

(** The comparison of two numbers; a NaN compares with nothing. *)
Definition float_compare (a b : float) : option comparison :=
  match a, b with
  | Fnan, _ | _, Fnan => None
  | Finf s1, Finf s2 =>
      Some (match s1, s2 with
            | true, false => Lt
            | false, true => Gt
            | _, _ => Eq
            end)
  | Finf s, _ => Some (if s then Lt else Gt)
  | _, Finf s => Some (if s then Gt else Lt)
  | _, _ => Some (value a ?= value b)%Q
  end.

(** [a == b], [a < b], [a <= b] and [a > b]; a [float] compared with a
    [double] is converted to [double], which changes no number. *)
Definition feq (a b : float) : bool :=
  match float_compare a b with Some Eq => true | _ => false end.
Definition flt (a b : float) : bool :=
  match float_compare a b with Some Lt => true | _ => false end.
Definition fle (a b : float) : bool :=
  match float_compare a b with Some (Lt | Eq) => true | _ => false end.
Definition fgt (a b : float) : bool := flt b a.

(** The operators of [T]. *)
Definition fadd (a b : float) : float := float_add binary32 a b.
Definition fsub (a b : float) : float := float_sub binary32 a b.
Definition fmul (a b : float) : float := float_mul binary32 a b.
Definition fdiv (a b : float) : float := float_div binary32 a b.

(** The literal [0] and a decimal literal with the suffix [f]. *)
Definition fzero : float := Fzero false.
Definition f32 (q : Q) : float := round_to binary32 q.

(** [static_cast<T>(n)]: the nearest [float]. *)
Definition of_size (n : N) : float := round_to binary32 (inject_Z (Z.of_N n)).

(** A [double] returned as a [T]. *)
Definition to_float (a : float) : float :=
  match a with
  | Fnum q => round_to binary32 q
  | _ => a
  end.

(** Truncation toward zero. *)
Definition Qtrunc (q : Q) : Z := Z.quot (Qnum q) (Zpos (Qden q)).

(** [static_cast<std::size_t>(a)]: the fractional part is discarded;
    undefined when the truncated value is not a [std::size_t], and for an
    infinity or a NaN. *)
Definition to_size (a : float) : outcome N :=
  match a with
  | Fnum q =>
      let z := Qtrunc q in
      if ((0 <=? z) && (z <? Z.of_N size_max))%Z then Ok (Z.to_N z)
      else Undefined
  | Fzero _ => Ok 0%N
  | _ => Undefined
  end.

(** [std::min(a, b)]: [b < a ? b : a]. *)
Definition fmin (a b : float) : float := if fgt a b then b else a.
(** [std::pow(a, 2)]: the arguments are converted to [double] and so is the
    result. *)
Definition pow2 (a : float) : float := float_mul binary64 a a.

(** ** Vector2 *)

Record Vector2 : Type := mkVector2 { x : float; y : float }.

Definition vsub (a b : Vector2) : Vector2 :=
  mkVector2 (fsub (x a) (x b)) (fsub (y a) (y b)).

Definition vadd (a other : Vector2) : Vector2 :=
  mkVector2 (fadd (x a) (x other)) (fadd (y a) (y other)).

(** [operator*(T scalar)] and the friend [operator*(T scalar, self)]. *)
Definition vscale (a : Vector2) (scalar : float) : Vector2 :=
  mkVector2 (fmul (x a) scalar) (fmul (y a) scalar).
Definition scale_v (scalar : float) (self : Vector2) : Vector2 :=
  vscale self scalar.

(** [operator==] and [operator!=]. *)
Definition veq (a other : Vector2) : bool :=
  feq (x a) (x other) && feq (y a) (y other).
Definition vneq (a other : Vector2) : bool := negb (veq a other).

Definition cwiseMul (a other : Vector2) : Vector2 :=
  mkVector2 (fmul (x a) (x other)) (fmul (y a) (y other)).

Definition dot (a other : Vector2) : float :=
  fadd (fmul (x a) (x other)) (fmul (y a) (y other)).

Definition cwiseDiv (b : build_profile) (a other : Vector2) : outcome Vector2 :=
  if validated b && (feq (x other) fzero || feq (y other) fzero)
  then throwInvalidArgument
  else Ok (mkVector2 (fdiv (x a) (x other)) (fdiv (y a) (y other))).

(** [distance2]: the differences are [T], their squares and the sum of the
    squares [double], and the sum is returned as a [T]. *)
Definition distance2 (a other : Vector2) : float :=
  to_float (float_add binary64 (pow2 (fsub (x other) (x a)))
                               (pow2 (fsub (y other) (y a)))).

(** ** Rect *)

Record Rect : Type := mkRect { position : Vector2; size : Vector2 }.

Definition Rect_new (b : build_profile) (pos sz : Vector2) : outcome Rect :=
  if validated b && (flt (x sz) fzero || flt (y sz) fzero)
  then throwInvalidArgument
  else Ok (mkRect pos sz).

(** [Rect(left, top, right, bottom)]. *)
Definition Rect_ltrb (left top right bottom : float) : Rect :=
  mkRect (mkVector2 left top)
         (mkVector2 (fsub right left) (fsub bottom top)).

Definition Rect_left (r : Rect) : float := x (position r).
Definition Rect_top (r : Rect) : float := y (position r).
Definition Rect_right (r : Rect) : float := fadd (x (position r)) (x (size r)).
Definition Rect_bottom (r : Rect) : float :=
  fadd (y (position r)) (y (size r)).

Definition contains (r : Rect) (point : Vector2) : bool :=
  fle (Rect_left r) (x point) && fle (x point) (Rect_right r)
  && fle (Rect_top r) (y point) && fle (y point) (Rect_bottom r).

(** ** utils::Matrix

    [mrows] and [mcolumns] are the fields [rows] and [columns] of the
    matrix, which [Grid] has under the same names. *)

Record Matrix (T : Type) : Type :=
  mkMatrix { data : list T; mrows : N; mcolumns : N }.
Arguments mkMatrix {T} data mrows mcolumns.
Arguments data {T} m.
Arguments mrows {T} m.
Arguments mcolumns {T} m.

(** [new T[rows * columns]], every element default-constructed. *)
Definition Matrix_new {T : Type} (dflt : T) (rows columns : N) : Matrix T :=
  mkMatrix (replicate (N.to_nat (wrap (rows * columns))) dflt) rows columns.

(** The offset [row * columns + column] into the buffer. *)
Definition offset {T : Type} (m : Matrix T) (row column : N) : N :=
  wrap (wrap (row * mcolumns m) + column).

(** [operator()]: the unchecked reference [data[row * columns + column]];
    outside the buffer the access is undefined. *)
Definition Matrix_ref {T : Type} (m : Matrix T) (row column : N) : outcome N :=
  let i := offset m row column in
  if (i <? N.of_nat (length (data m)))%N then Ok i else Undefined.

(** [at]: the checked reference. *)
Definition Matrix_at {T : Type} (m : Matrix T) (row column : N) : outcome N :=
  if ((mrows m <=? row) || (mcolumns m <=? column))%N then throwOutOfRange
  else Matrix_ref m row column.

(** Reading and writing through a reference into the buffer. *)
Definition deref {T : Type} (m : Matrix T) (i : N) : outcome T :=
  match data m !! N.to_nat i with
  | Some c => Ok c
  | None => Undefined
  end.

Definition assign {T : Type} (m : Matrix T) (i : N) (c : T) : Matrix T :=
  mkMatrix (<[N.to_nat i := c]> (data m)) (mrows m) (mcolumns m).

(** ** Bodies and handles *)

(** A body is its address; a [std::shared_ptr<Body>] is the address it holds. *)
Abbreviation Body := N (only parsing).
Abbreviation body_ptr_t := N (only parsing).
Abbreviation cell_t := (list N) (only parsing).
(** A [cell_t &]: the position of the cell in the buffer of [cells]. *)
Abbreviation cell_ref := N (only parsing).

Definition get (ptr : body_ptr_t) : Body := ptr.

(** ** The result set of queryDistancePair

    [std::unordered_set<std::array<body_ptr_t, 2>, symmetric_pair_hash,
    symmetric_pair_equal>]: the elements are kept in buckets chosen by their
    hash code, and an element is searched for, with the equality predicate,
    in the bucket of its hash code only. *)

Abbreviation pair_t := (N * N)%type (only parsing).

Definition symmetric_pair_hash (ptr_hash : body_ptr_t -> N) (pair : pair_t)
  : N :=
  N.lxor (ptr_hash (fst pair)) (ptr_hash (snd pair)).

Definition symmetric_pair_equal (pair1 pair2 : pair_t) : bool :=
  ((fst pair1 =? fst pair2) && (snd pair1 =? snd pair2)
   || (fst pair1 =? snd pair2) && (snd pair1 =? fst pair2))%N.

Abbreviation pair_set := (gmap N (list (N * N))) (only parsing).

(** [emplace]: the element is inserted unless its bucket holds an equal one. *)
Definition emplace (ptr_hash : body_ptr_t -> N) (s : pair_set) (pair : pair_t)
  : pair_set :=
  let h := symmetric_pair_hash ptr_hash pair in
  let bucket := default [] (s !! h) in
  if existsb (symmetric_pair_equal pair) bucket then s
  else <[h := bucket ++ [pair]]> s.

(** The elements of the set, bucket after bucket. *)
Definition elements_of (s : pair_set) : list pair_t :=
  concat (map snd (map_to_list s)).

(** ** Grid *)

Record Grid : Type := mkGrid {
  cells : Matrix cell_t;
  num_bodies : N;
  bound : Rect;
  rows : N;
  columns : N
}.

Definition Grid_new (b : build_profile) (bound : Rect) (rows columns : N)
  : outcome Grid :=
  let g := mkGrid (Matrix_new [] rows columns) 0 bound rows columns in
  if validated b && ((rows =? 0) || (columns =? 0))%N
  then throwInvalidArgument
  else Ok g.

Definition with_cells (g : Grid) (m : Matrix cell_t) : Grid :=
  mkGrid m (num_bodies g) (bound g) (rows g) (columns g).

Definition with_num_bodies (g : Grid) (n : N) : Grid :=
  mkGrid (cells g) n (bound g) (rows g) (columns g).

Definition cellSize (b : build_profile) (g : Grid) : outcome Vector2 :=
  cwiseDiv b (size (bound g))
           (mkVector2 (of_size (columns g)) (of_size (rows g))).

Definition getCellIndex (b : build_profile) (PositionGetter : Body -> Vector2)
  (g : Grid) (body : Body) : outcome (N * N) :=
  let relative_position := vsub (PositionGetter body) (position (bound g)) in
  cell_size ← cellSize b g;
  row ← to_size (fdiv (y relative_position) (y cell_size));
  col ← to_size (fdiv (x relative_position) (x cell_size));
  if validated b && ((rows g <=? row) || (columns g <=? col))%N
  then throwOutOfRange
  else Ok (row, col).

Definition getBodyCell (b : build_profile) (PositionGetter : Body -> Vector2)
  (g : Grid) (body : Body) : outcome cell_ref :=
  '(row, col) ← getCellIndex b PositionGetter g body;
  Matrix_ref (cells g) row col.

Definition getBodyCount (g : Grid) : N := num_bodies g.

Definition addBody (b : build_profile) (PositionGetter : Body -> Vector2)
  (g : Grid) (body : body_ptr_t) : outcome (cell_ref * Grid) :=
  cell ← getBodyCell b PositionGetter g (get body);
  l ← deref (cells g) cell;
  let g1 := with_cells g (assign (cells g) cell (l ++ [body])) in
  Ok (cell, with_num_bodies g1 (wrap (num_bodies g1 + 1))).

(** [std::list::remove_if]: the list without the elements that satisfy the
    predicate, and how many they were. *)
Definition remove_if {A : Type} (pred : A -> bool) (l : list A) : list A * N :=
  (List.filter (fun a => negb (pred a)) l,
   N.of_nat (length (List.filter pred l))).

Definition removeBody (g : Grid) (body : Body) (body_cell : cell_ref)
  : outcome (N * Grid) :=
  l ← deref (cells g) body_cell;
  let '(kept, removed_count) := remove_if (fun ptr => (get ptr =? body)%N) l in
  let g1 := with_cells g (assign (cells g) body_cell kept) in
  Ok (removed_count,
      with_num_bodies g1 (wrap_sub (num_bodies g1) removed_count)).

(** [for (i = lo; i < hi; ++i) body], threading the state; [n] iterations
    are left. *)
Fixpoint for_loop {S : Type} (n : nat) (i : N) (body : N -> S -> outcome S)
  (s : S) : outcome S :=
  match n with
  | O => Ok s
  | Datatypes.S n' => s' ← body i s; for_loop n' (N.succ i) body s'
  end.

Definition for_range {S : Type} (lo hi : N) (body : N -> S -> outcome S)
  (s : S) : outcome S :=
  for_loop (N.to_nat (hi - lo)) lo body s.

(** The same with an [int] counter ([auto i = 0]): a bound above [INT_MAX]
    makes the increment overflow. *)
Definition for_int {S : Type} (hi : N) (body : N -> S -> outcome S) (s : S)
  : outcome S :=
  if (INT_MAX <? Z.of_N hi)%Z then Undefined else for_range 0 hi body s.

Definition clearAllBodies (g : Grid) : outcome Grid :=
  m ← for_int (rows g) (fun i m =>
         for_int (columns g) (fun j m =>
           cell ← Matrix_ref m i j;
           Ok (assign m cell [])) m) (cells g);
  Ok (with_num_bodies (with_cells g m) 0).

(** [std::find_if]: the position of the first element that satisfies the
    predicate. *)
Fixpoint find_if {A : Type} (pred : A -> bool) (l : list A) : option nat :=
  match l with
  | [] => None
  | a :: t => if pred a then Some O else Datatypes.S <$> find_if pred t
  end.

Definition updateBodyCell (b : build_profile) (PositionGetter : Body -> Vector2)
  (g : Grid) (body : Body) (previous_cell : cell_ref)
  : outcome (cell_ref * Grid) :=
  '(row, col) ← getCellIndex b PositionGetter g body;
  new_cell ← Matrix_ref (cells g) row col;
  if (new_cell =? previous_cell)%N then Ok (new_cell, g)
  else
    pl ← deref (cells g) previous_cell;
    match find_if (fun ptr => (get ptr =? body)%N) pl with
    | None =>
        (* [ptr == previous_cell.end()]: the validated build throws, the
           other splices the end iterator *)
        if validated b then throwOutOfRange else Undefined
    | Some k =>
        match pl !! k with
        | None => Undefined
        | Some ptr =>
            let m1 := assign (cells g) previous_cell (delete k pl) in
            nl ← deref m1 new_cell;
            Ok (new_cell, with_cells g (assign m1 new_cell (nl ++ [ptr])))
        end
    end.

(** The precondition check both queries start with; compiled in only in the
    validated build. *)
Definition check_distance (b : build_profile) (g : Grid) (distance : float)
  : outcome unit :=
  if validated b then
    cell_size ← cellSize b g;
    if fgt distance (fmin (x cell_size) (y cell_size))
    then throwInvalidArgument
    else Ok tt
  else Ok tt.

Definition adjacent_offsets : list (Z * Z) :=
  [ (-1, -1); (-1, 0); (-1, 1);
    ( 0, -1);          ( 0, 1);
    ( 1, -1); ( 1, 0); ( 1, 1) ]%Z.

Definition translate_cell (body_cell_index : N * N) (xy : Z * Z)
  : outcome (Z * Z) :=
  let '(center_row, center_column) := body_cell_index in
  let '(dx, dy) := xy in
  r ← int_add (size_to_int center_row) dy;
  c ← int_add (size_to_int center_column) dx;
  Ok (r, c).

Definition is_cell_within_bound (g : Grid) (cell_index : Z * Z) : bool :=
  let '(row, column) := cell_index in
  ((0 <=? row) && (row <? Z.of_N (rows g))
   && (0 <=? column) && (column <? Z.of_N (columns g)))%Z.

(** One adjacent offset of the loop over [queried_body_in_adjacent_cell]: the
    offset is translated, kept when the cell is within the bound, and the
    nearby bodies of that cell are appended to the result. *)
Definition insert_adjacent (g : Grid) (body_cell_index : N * N)
  (is_nearby : Body -> bool) (acc : outcome (list body_ptr_t)) (xy : Z * Z)
  : outcome (list body_ptr_t) :=
  result ← acc;
  cell_index ← translate_cell body_cell_index xy;
  if is_cell_within_bound g cell_index then
    cell ← Matrix_ref (cells g) (Z.to_N (fst cell_index))
                                (Z.to_N (snd cell_index));
    bodies ← deref (cells g) cell;
    Ok (result ++ List.filter (fun ptr => is_nearby (get ptr)) bodies)
  else Ok result.

Definition queryDistance (b : build_profile) (PositionGetter : Body -> Vector2)
  (g : Grid) (body : Body) (body_cell_index : N * N) (distance : float)
  : outcome (list body_ptr_t) :=
  _ ← check_distance b g distance;
  let body_position := PositionGetter body in
  let distance_square := pow2 distance in
  let is_nearby (other : Body) :=
    fle (distance2 (PositionGetter other) body_position) distance_square in
  (* bodies in the same cell *)
  center ← Matrix_ref (cells g) (fst body_cell_index) (snd body_cell_index);
  same ← deref (cells g) center;
  let result :=
    List.filter (fun ptr => negb (get ptr =? body)%N && is_nearby (get ptr))
                same in
  (* bodies in the adjacent cells *)
  foldl (insert_adjacent g body_cell_index is_nearby) (Ok result)
        adjacent_offsets.

(** The two nested loops over [check_bodies]: every position [i] against
    every later position [j]. *)
Fixpoint check_pairs (ptr_hash : body_ptr_t -> N)
  (is_nearby : Body -> Body -> bool) (check_bodies : list body_ptr_t)
  (result : pair_set) : pair_set :=
  match check_bodies with
  | [] => result
  | bi :: later =>
      check_pairs ptr_hash is_nearby later
        (foldl (fun result bj =>
                  if is_nearby (get bi) (get bj)
                  then emplace ptr_hash result (bi, bj)
                  else result)
               result later)
  end.

(** One position [(row, col)] of the sweep: the bodies of the current, left,
    top and top-left cells are gathered and checked pair by pair. *)
Definition sweep_position (ptr_hash : body_ptr_t -> N) (g : Grid)
  (is_nearby : Body -> Body -> bool) (row col : N) (result : pair_set)
  : outcome pair_set :=
  current ← Matrix_ref (cells g) row col;
  cell_current ← deref (cells g) current;
  left ← Matrix_ref (cells g) row (wrap_sub col 1);
  cell_left ← deref (cells g) left;
  top ← Matrix_ref (cells g) (wrap_sub row 1) col;
  cell_top ← deref (cells g) top;
  top_left ← Matrix_ref (cells g) (wrap_sub row 1) (wrap_sub col 1);
  cell_top_left ← deref (cells g) top_left;
  let reserve_size :=
    wrap (wrap (wrap (N.of_nat (length cell_current)
                      + N.of_nat (length cell_left))
                + N.of_nat (length cell_top))
          + N.of_nat (length cell_top_left)) in
  if (reserve_size =? 0)%N then Ok result (* the four cells are empty *)
  else
    let check_bodies :=
      cell_current ++ cell_left ++ cell_top ++ cell_top_left in
    (* [auto i = 0]: an [int] counts the positions *)
    if (INT_MAX <? Z.of_nat (length check_bodies))%Z then Undefined
    else Ok (check_pairs ptr_hash is_nearby check_bodies result).

Definition queryDistancePair (b : build_profile)
  (PositionGetter : Body -> Vector2) (ptr_hash : body_ptr_t -> N)
  (g : Grid) (distance : float) : outcome pair_set :=
  _ ← check_distance b g distance;
  let is_nearby (body1 body2 : Body) :=
    fle (distance2 (PositionGetter body1) (PositionGetter body2))
        (pow2 distance) in
  for_range 1 (rows g) (fun row result =>
    for_range 1 (columns g) (fun col result =>
      sweep_position ptr_hash g is_nearby row col result)
      result)
    ∅.

(** ** Predicates of the specification *)

(** The sum of the sizes of all cells. *)
Definition sum_cell_sizes (g : Grid) : N :=
  foldr (fun cell n => (N.of_nat (length cell) + n)%N) 0%N (data (cells g)).

(** The counter agrees with the cells. *)
Definition count_consistent (g : Grid) : Prop :=
  getBodyCount g = sum_cell_sizes g.

(** What the constructor establishes and no operation changes: the matrix
    has the dimensions of the grid, its buffer holds [rows * columns] cells,
    the offsets into it do not wrap, and the counter is a [std::size_t]. *)
Definition wf_grid (g : Grid) : Prop :=
  mrows (cells g) = rows g /\ mcolumns (cells g) = columns g
  /\ length (data (cells g)) = N.to_nat (rows g * columns g)
  /\ (rows g * columns g < size_max)%N
  /\ (num_bodies g < size_max)%N.

(** The handle is in some cell of the grid. *)
Definition in_grid (g : Grid) (ptr : body_ptr_t) : Prop :=
  exists cell, In cell (data (cells g)) /\ In ptr cell.

(** Every handle resides in the cell that [getCellIndex] computes from the
    current position of its body. *)
Definition resident_in (b : build_profile) (PositionGetter : Body -> Vector2)
  (g : Grid) (i : nat) (ptr : body_ptr_t) : bool :=
  match getCellIndex b PositionGetter g (get ptr) with
  | Ok (row, col) =>
      ((row <? rows g) && (col <? columns g)
       && (offset (cells g) row col =? N.of_nat i))%N
  | _ => false
  end.

Definition resident (b : build_profile) (PositionGetter : Body -> Vector2)
  (g : Grid) : bool :=
  forallb (fun '(i, cell) => forallb (resident_in b PositionGetter g i) cell)
          (imap pair (data (cells g))).

(** No two elements of the list are the same pair up to order. *)
Definition no_symmetric_duplicates (l : list pair_t) : Prop :=
  forall i j pair1 pair2,
    l !! i = Some pair1 -> l !! j = Some pair2 -> i <> j ->
    symmetric_pair_equal pair1 pair2 = false.

(** The mutation operations, and the Grid one of them leaves behind. *)
Inductive mutation : Type :=
| AddBody (body : body_ptr_t)
| RemoveBody (body : Body) (body_cell : cell_ref)
| UpdateBodyCell (body : Body) (previous_cell : cell_ref)
| ClearAllBodies.

Definition mutate (b : build_profile) (PositionGetter : Body -> Vector2)
  (g : Grid) (m : mutation) : outcome Grid :=
  match m with
  | AddBody body => snd <$> addBody b PositionGetter g body
  | RemoveBody body body_cell => snd <$> removeBody g body body_cell
  | UpdateBodyCell body previous_cell =>
      snd <$> updateBodyCell b PositionGetter g body previous_cell
  | ClearAllBodies => clearAllBodies g
  end.

(** A matrix as its constructor leaves it: the buffer holds [rows * columns]
    elements and that product is a [std::size_t]. *)
Definition wf_matrix {T : Type} (m : Matrix T) : Prop :=
  length (data m) = N.to_nat (mrows m * mcolumns m)
  /\ (mrows m * mcolumns m < size_max)%N.

(** A Grid whose bound has a positive size and whose rows and columns are
    positive: every cell has a positive width and height. *)
Definition positive_grid (g : Grid) : Prop :=
  flt fzero (x (size (bound g))) = true /\ flt fzero (y (size (bound g))) = true
  /\ (0 < rows g)%N /\ (0 < columns g)%N.


(** The Euclidean distance of the specification, between the points two
    finite positions stand for: a real number, nothing rounded.  (The code's
    [Vector2::distance], [std::hypot] of the rounded differences, is not
    used by the Grid and is not part of the embedding.) *)
Definition exact_distance2 (a other : Vector2) : Q :=
  ((value (x other) - value (x a)) ^ 2
   + (value (y other) - value (y a)) ^ 2)%Q.

Definition euclidean_distance (a other : Vector2) : R :=
  sqrt (Q2R (exact_distance2 a other)).

(** The cell [(row, col)] of the buffer. *)
Definition cell_at (g : Grid) (row col : N) : cell_t :=
  default [] (data (cells g) !! N.to_nat (row * columns g + col)).

(** The handle is in the cell [(row, col)] of the grid or in one of the up
    to eight cells of the grid around it. *)
Definition around (g : Grid) (row col : N) (ptr : body_ptr_t) : Prop :=
  exists r c,
    (r < rows g)%N /\ (c < columns g)%N
    /\ (Z.of_N row - 1 <= Z.of_N r <= Z.of_N row + 1)%Z
    /\ (Z.of_N col - 1 <= Z.of_N c <= Z.of_N col + 1)%Z
    /\ In ptr (cell_at g r c).

(** ** Notions used in the proofs *)

(** The handles [queryDistance] takes from the cell at an offset of the
    cell [(row, col)]. *)
Definition neighbours (g : Grid) (row col : N) (is_nearby : Body -> bool)
  (xy : Z * Z) : list body_ptr_t :=
  let r := (Z.of_N row + snd xy)%Z in
  let c := (Z.of_N col + fst xy)%Z in
  if is_cell_within_bound g (r, c) then
    List.filter (fun ptr => is_nearby (get ptr))
      (default [] (data (cells g)
                   !! N.to_nat (Z.to_N r * columns g + Z.to_N c)))
  else [].

(** Not a negative number: a NaN, [+inf], a zero or a positive number. *)
Definition not_negative (a : float) : Prop :=
  a = Fnan \/ a = Finf false \/ (exists s, a = Fzero s)
  \/ exists q, a = Fnum q /\ (0 < q)%Q.

(** Equal up to the sign of a zero. *)
Definition same_number (a b : float) : Prop :=
  a = b \/ (exists s s', a = Fzero s /\ b = Fzero s').

(** The result of [queryDistance] on a well-formed Grid: the nearby handles
    of the cell of the body, the body itself left out, then those of the
    adjacent cells that are within the bound. *)
Definition query_result (PositionGetter : Body -> Vector2) (g : Grid)
  (body : Body) (row col : N) (d : float) : list body_ptr_t :=
  let is_nearby (other : Body) :=
    fle (distance2 (PositionGetter other) (PositionGetter body)) (pow2 d) in
  List.filter (fun ptr => negb (get ptr =? body)%N && is_nearby (get ptr))
              (cell_at g row col)
  ++ flat_map (neighbours g row col is_nearby) adjacent_offsets.

(** An outcome that is not an exception. *)
Definition no_throw {A : Type} (o : outcome A) : Prop :=
  match o with Throw _ => False | _ => True end.

(** The cells before the offset [k] are empty, in a buffer of the right
    shape. *)
Definition cleared_upto (R C : N) (k : N) (m : Matrix cell_t) : Prop :=
  mrows m = R /\ mcolumns m = C
  /\ length (data m) = N.to_nat (R * C)
  /\ forall i, (N.of_nat i < k)%N -> (i < length (data m))%nat ->
               data m !! i = Some [].

(** The set holds the pair, in one order or the other. *)
Definition holds_pair (s : pair_set) (pair : pair_t) : Prop :=
  exists e, In e (elements_of s) /\ symmetric_pair_equal e pair = true.

(** No element of the list equals a later one. *)
Fixpoint distinct_pairs (l : list pair_t) : Prop :=
  match l with
  | [] => True
  | p :: l' =>
      (forall q, In q l' -> symmetric_pair_equal p q = false)
      /\ distinct_pairs l'
  end.

(** The invariant of the result set: every bucket holds elements of its hash
    code only, no two of them equal. *)
Definition set_ok (ptr_hash : body_ptr_t -> N) (s : pair_set) : Prop :=
  forall k bucket, s !! k = Some bucket ->
    Forall (fun p => symmetric_pair_hash ptr_hash p = k) bucket
    /\ distinct_pairs bucket.
(** ** The scenarios of the test suite, and small grids used below *)

(** [FloatRect(0, 0, 100, 100)] and [FloatRect(0, 0, 2, 2)]. *)
Definition bound_100 : Rect := Rect_ltrb (f32 0) (f32 0) (f32 100) (f32 100).
Definition bound_2 : Rect := Rect_ltrb (f32 0) (f32 0) (f32 2) (f32 2).

(** The grid of the [getCellIndex] test: a 100 x 100 bound at the origin,
    10 rows, 5 columns. *)
Definition grid_10x5 : Grid :=
  mkGrid (Matrix_new [] 10 5) 0 bound_100 10 5.

(** Every body at the same place. *)
Definition everywhere (v : Vector2) : Body -> Vector2 := fun _ => v.

(** The position with the coordinates nearest to two decimal literals. *)
Definition vec2f (px py : Q) : Vector2 := mkVector2 (f32 px) (f32 py).

(** Body 1 at (1, 1), every other body at (1.5, 1). *)
Definition side_by_side (body : Body) : Vector2 :=
  match body with
  | 1%N => vec2f 1 1
  | _ => vec2f 1.5 1
  end.

(** A single cell over the same bound, holding the bodies 1 and 2. *)
Definition grid_1x1 : Grid :=
  mkGrid (mkMatrix [[1%N; 2%N]] 1 1) 2 bound_100 1 1.

(** The grid of the [queryDistance] test: a 2 x 2 bound cut in 2 x 2 cells,
    one body next to the centre in each. *)
Definition grid_2x2 : Grid :=
  mkGrid (mkMatrix [[1%N]; [2%N]; [3%N]; [4%N]] 2 2) 4 bound_2 2 2.

Definition corners (body : Body) : Vector2 :=
  match body with
  | 1%N => vec2f 0.9 0.9
  | 2%N => vec2f 1.1 0.9
  | 3%N => vec2f 0.9 1.1
  | _ => vec2f 1.1 1.1
  end.

(** [std::hash] of a pointer: its value. *)
Definition pointer_value (ptr : body_ptr_t) : N := ptr.

(** One cell in which the body 1 has two handles. *)
Definition grid_twice : Grid :=
  mkGrid (mkMatrix [[1%N; 2%N; 1%N]] 1 1) 3 bound_100 1 1.

(** Two bodies in the cell (0, 0) of the 2 x 2 grid, exactly [0.1f] apart:
    body 1 at the origin, body 2 at (0.1f, 0). *)
Definition a_tenth_apart (body : Body) : Vector2 :=
  match body with
  | 1%N => vec2f 0 0
  | _ => vec2f 0.1 0
  end.

Definition grid_tenth : Grid :=
  mkGrid (mkMatrix [[1%N; 2%N]; []; []; []] 2 2) 2 bound_2 2 2.

(** Two bodies in neighbouring cells of the 2 x 2 grid, a little more than 1
    apart: body 1 at (0.5, 0.5), body 2 at (1.5, 0.5 + 2^-13). *)
Definition just_over_one (body : Body) : Vector2 :=
  match body with
  | 1%N => vec2f 0.5 0.5
  | _ => vec2f 1.5 (0.5 + (1 # 8192))
  end.

Definition grid_over_one : Grid :=
  mkGrid (mkMatrix [[1%N]; [2%N]; []; []] 2 2) 2 bound_2 2 2.


(** * Properties *)

(** ** Outcomes *)

Ltac unfold_outcome :=
  unfold mbind, outcome_bind, fmap, outcome_fmap, mret, outcome_ret,
         throwInvalidArgument, throwOutOfRange, throwRuntimeError in *.

Lemma bind_Ok {A B : Type} (o : outcome A) (k : A -> outcome B) (r : B) :
  o ≫= k = Ok r -> exists a, o = Ok a /\ k a = Ok r.
Proof.
  unfold_outcome. destruct o as [a| |]; intros H; try discriminate.
  exists a. split; [reflexivity | exact H].
Qed.

Lemma bind_Throw {A B : Type} (o : outcome A) (k : A -> outcome B) e :
  o ≫= k = Throw e -> o = Throw e \/ exists a, o = Ok a /\ k a = Throw e.
Proof.
  unfold_outcome. destruct o as [a| |]; intros H; try discriminate.
  - right. exists a. split; [reflexivity | exact H].
  - left. congruence.
Qed.

(** Inverts a hypothesis [x ← o; k = Ok r]. *)
Ltac bind_inv H :=
  let a := fresh "a" in
  let Ha := fresh "E" in
  apply bind_Ok in H; destruct H as (a & Ha & H).

Lemma no_throw_bind {A B : Type} (o : outcome A) (k : A -> outcome B) :
  no_throw o -> (forall a, no_throw (k a)) -> no_throw (o ≫= k).
Proof.
  unfold_outcome. destruct o as [a| |]; simpl; intros Ho Hk; auto.
Qed.

Lemma no_throw_neq {A : Type} (o : outcome A) e : no_throw o -> o <> Throw e.
Proof. destruct o; simpl; intros H; [discriminate | contradiction | discriminate]. Qed.

(** ** Loops *)

Lemma for_loop_invariant {S : Type} (P : S -> Prop) body :
  (forall i s s', P s -> body i s = Ok s' -> P s') ->
  forall n i (s s' : S), P s -> for_loop n i body s = Ok s' -> P s'.
Proof.
  intros Hbody n. induction n as [|n IH]; intros i s s' Hs H; simpl in H.
  - inversion H. subst. exact Hs.
  - bind_inv H. eapply IH; [| exact H]. eapply Hbody; eauto.
Qed.

Lemma for_loop_no_throw {S : Type} body :
  (forall i (s : S), no_throw (body i s)) ->
  forall n i s, no_throw (for_loop n i body s).
Proof.
  intros Hbody n. induction n as [|n IH]; intros i s; simpl.
  - exact I.
  - apply no_throw_bind; [apply Hbody | intros a; apply IH].
Qed.

Lemma for_loop_skip {S : Type} body :
  (forall i (s : S), body i s = Ok s) ->
  forall n i s, for_loop n i body s = Ok s.
Proof.
  intros Hbody n. induction n as [|n IH]; intros i s; simpl.
  - reflexivity.
  - rewrite Hbody. unfold_outcome. apply IH.
Qed.

(** ** Matrix *)

Lemma Matrix_ref_no_throw {T : Type} (m : Matrix T) row column :
  no_throw (Matrix_ref m row column).
Proof. unfold Matrix_ref. destruct (_ <? _)%N; exact I. Qed.

Lemma deref_no_throw {T : Type} (m : Matrix T) i : no_throw (deref m i).
Proof. unfold deref. destruct (_ !! _); exact I. Qed.

(** * Floating-point arithmetic *)

(** ** Powers of two *)

Lemma two_pow_pos (e : Z) : (0 < 2 ^ e)%Q.
Proof. apply Qpower_0_lt. reflexivity. Qed.

Lemma two_pow_add (a b : Z) : (2 ^ (a + b) == 2 ^ a * 2 ^ b)%Q.
Proof. apply Qpower_plus. discriminate. Qed.

Lemma two_pow_le (a b : Z) : (a <= b)%Z -> (2 ^ a <= 2 ^ b)%Q.
Proof. intros H. apply Qpower_le_compat_l; [exact H | discriminate]. Qed.

Lemma two_pow_lt_inv (a b : Z) : (2 ^ a < 2 ^ b)%Q -> (a < b)%Z.
Proof. intros H. eapply Qpower_lt_compat_l_inv; [exact H | reflexivity]. Qed.

Lemma two_pow_int (k : Z) : (0 <= k)%Z -> (2 ^ k == inject_Z (2 ^ k))%Q.
Proof. intros H. symmetry. apply (Zpower_Qpower 2 k H). Qed.

(** ** The integer logarithm *)

Lemma ilog2_spec (q : Q) :
  (0 < q)%Q -> (2 ^ ilog2 q <= q)%Q /\ (q < 2 ^ (ilog2 q + 1))%Q.
Proof.
  intros Hq. destruct q as [n d]. unfold ilog2. cbn [Qnum Qden].
  assert (Hn : (0 < n)%Z) by (unfold Qlt in Hq; simpl in Hq; lia).
  pose proof (Z.log2_spec n Hn) as [Ln Un].
  pose proof (Z.log2_spec (Z.pos d) ltac:(lia)) as [Ld Ud].
  pose proof (Z.log2_nonneg n) as Nn.
  pose proof (Z.log2_nonneg (Z.pos d)) as Nd.
  set (a := Z.log2 n) in *. set (b := Z.log2 (Z.pos d)) in *.
  assert (En : (n # d == inject_Z n / inject_Z (Z.pos d))%Q).
  { rewrite Qmake_Qdiv. reflexivity. }
  assert (Hd : (0 < inject_Z (Z.pos d))%Q).
  { change 0%Q with (inject_Z 0). rewrite <- Zlt_Qlt. lia. }
  assert (Pa : (inject_Z (2 ^ a) <= inject_Z n)%Q) by (rewrite <- Zle_Qle; exact Ln).
  assert (Pa' : (inject_Z n < inject_Z (2 ^ Z.succ a))%Q) by (rewrite <- Zlt_Qlt; exact Un).
  assert (Pb : (inject_Z (2 ^ b) <= inject_Z (Z.pos d))%Q) by (rewrite <- Zle_Qle; exact Ld).
  assert (Pb' : (inject_Z (Z.pos d) < inject_Z (2 ^ Z.succ b))%Q) by (rewrite <- Zlt_Qlt; exact Ud).
  rewrite <- !two_pow_int in Pa, Pa', Pb, Pb' by lia.
  replace (Z.succ a) with (a + 1)%Z in Pa' by lia.
  replace (Z.succ b) with (b + 1)%Z in Pb' by lia.
  (* the quotient lies between 2^(a-b-1) and 2^(a-b+1) *)
  assert (Hlo : (2 ^ (a - b - 1) <= n # d)%Q).
  { rewrite En. apply Qle_shift_div_l; [exact Hd |].
    apply Qle_trans with (2 ^ (a - b - 1) * 2 ^ (b + 1))%Q.
    - apply Qmult_le_l; [apply two_pow_pos | apply Qlt_le_weak, Pb'].
    - rewrite <- two_pow_add. replace (a - b - 1 + (b + 1))%Z with a by lia.
      exact Pa. }
  assert (Hhi : (n # d < 2 ^ (a - b + 1))%Q).
  { rewrite En. apply Qlt_shift_div_r; [exact Hd |].
    apply Qlt_le_trans with (2 ^ (a + 1))%Q; [exact Pa' |].
    replace (a + 1)%Z with (a - b + 1 + b)%Z by lia. rewrite two_pow_add.
    apply Qmult_le_l; [apply two_pow_pos | exact Pb]. }
  destruct (Qle_bool (2 ^ (a - b)) (n # d)) eqn:E.
  - apply Qle_bool_iff in E. split; [exact E | exact Hhi].
  - split; [exact Hlo |].
    replace (a - b - 1 + 1)%Z with (a - b)%Z by lia.
    apply Qnot_le_lt. intros H. apply Qle_bool_iff in H. congruence.
Qed.

Lemma ilog2_monotone (a b : Q) :
  (0 < a)%Q -> (a <= b)%Q -> (ilog2 a <= ilog2 b)%Z.
Proof.
  intros Ha Hab.
  destruct (ilog2_spec a Ha) as [La _].
  destruct (ilog2_spec b) as [_ Ub]; [lra |].
  assert (H : (2 ^ ilog2 a < 2 ^ (ilog2 b + 1))%Q) by lra.
  apply two_pow_lt_inv in H. lia.
Qed.

(** ** Rounding to the nearest integer *)

Lemma rne_bounds (q : Q) : (Qfloor q <= rne q <= Qfloor q + 1)%Z.
Proof.
  unfold rne. destruct (_ ?= _)%Q; [destruct (Z.even _) | |]; lia.
Qed.

Lemma rne_ge_int (q : Q) (z : Z) : (inject_Z z <= q)%Q -> (z <= rne q)%Z.
Proof.
  intros H. pose proof (rne_bounds q).
  pose proof (Qfloor_resp_le _ _ H) as Hf. rewrite Qfloor_Z in Hf. lia.
Qed.

Lemma rne_le_int (q : Q) (z : Z) : (q <= inject_Z z)%Q -> (rne q <= z)%Z.
Proof.
  intros H. pose proof (rne_bounds q) as Hb.
  pose proof (Qfloor_resp_le _ _ H) as Hf. rewrite Qfloor_Z in Hf.
  destruct (Z.eq_dec (Qfloor q) z) as [E | E]; [| lia].
  unfold rne. rewrite E.
  assert (Hlt : (q - inject_Z z < 1 # 2)%Q) by lra.
  rewrite Qlt_alt in Hlt. rewrite Hlt. lia.
Qed.

Lemma rne_monotone (p q : Q) : (p <= q)%Q -> (rne p <= rne q)%Z.
Proof.
  intros H. pose proof (rne_bounds p) as Bp. pose proof (rne_bounds q) as Bq.
  pose proof (Qfloor_resp_le _ _ H) as Hf.
  destruct (Z.eq_dec (Qfloor p) (Qfloor q)) as [E | E]; [| lia].
  unfold rne. rewrite <- E.
  destruct (p - inject_Z (Qfloor p) ?= 1 # 2)%Q eqn:Cp;
    destruct (q - inject_Z (Qfloor p) ?= 1 # 2)%Q eqn:Cq;
    try (destruct (Z.even (Qfloor p))); try lia;
    try rewrite <- Qeq_alt in *; try rewrite <- Qlt_alt in *;
    try rewrite <- Qgt_alt in *; lra.
Qed.

(** ** The nearest number of a format *)

Section Rounding.
Variable fmt : format.
Hypothesis precision_pos : (1 <= precision fmt)%Z.

Lemma quantum_monotone (a b : Q) :
  (0 < a)%Q -> (a <= b)%Q -> (quantum fmt a <= quantum fmt b)%Z.
Proof.
  intros Ha Hab. pose proof (ilog2_monotone a b Ha Hab). unfold quantum. lia.
Qed.

Lemma nearest_nonneg (a : Q) : (0 <= a)%Q -> (0 <= nearest fmt a)%Q.
Proof.
  intros Ha. unfold nearest.
  pose proof (two_pow_pos (quantum fmt a)) as He.
  apply Qmult_le_0_compat; [| apply Qlt_le_weak, He].
  change 0%Q with (inject_Z 0). rewrite <- Zle_Qle. apply rne_ge_int.
  apply Qle_shift_div_l; [exact He |]. rewrite Qmult_0_l. exact Ha.
Qed.

(** The scaled magnitude and the bounds of its rounding. *)
Lemma nearest_le_pow (a : Q) (k : Z) :
  (a <= 2 ^ k)%Q -> (quantum fmt a <= k)%Z -> (nearest fmt a <= 2 ^ k)%Q.
Proof.
  intros Ha Hk. unfold nearest. remember (quantum fmt a) as e eqn:Ee. clear Ee.
  pose proof (two_pow_pos e) as He.
  assert (Hz : (rne (a / 2 ^ e) <= 2 ^ (k - e))%Z).
  { apply rne_le_int. rewrite <- two_pow_int by lia.
    apply Qle_shift_div_r; [exact He |].
    rewrite <- two_pow_add. replace (k - e + e)%Z with k by lia. exact Ha. }
  rewrite Zle_Qle in Hz. rewrite <- two_pow_int in Hz by lia.
  replace k with (k - e + e)%Z at 1 by lia. rewrite two_pow_add.
  apply Qmult_le_compat_r; [exact Hz | apply Qlt_le_weak, He].
Qed.

Lemma nearest_ge_pow (a : Q) (k : Z) :
  (2 ^ k <= a)%Q -> (quantum fmt a <= k)%Z -> (2 ^ k <= nearest fmt a)%Q.
Proof.
  intros Ha Hk. unfold nearest. remember (quantum fmt a) as e eqn:Ee. clear Ee.
  pose proof (two_pow_pos e) as He.
  assert (Hz : (2 ^ (k - e) <= rne (a / 2 ^ e))%Z).
  { apply rne_ge_int. rewrite <- two_pow_int by lia.
    apply Qle_shift_div_l; [exact He |].
    rewrite <- two_pow_add. replace (k - e + e)%Z with k by lia. exact Ha. }
  rewrite Zle_Qle in Hz. rewrite <- two_pow_int in Hz by lia.
  replace k with (k - e + e)%Z at 1 by lia. rewrite two_pow_add.
  apply Qmult_le_compat_r; [exact Hz | apply Qlt_le_weak, He].
Qed.

Lemma nearest_monotone (a b : Q) :
  (0 < a)%Q -> (a <= b)%Q -> (nearest fmt a <= nearest fmt b)%Q.
Proof.
  intros Ha Hab. assert (Hb : (0 < b)%Q) by (eapply Qlt_le_trans; eauto).
  pose proof (quantum_monotone a b Ha Hab) as He.
  destruct (ilog2_spec a Ha) as [La Ua]. destruct (ilog2_spec b Hb) as [Lb Ub].
  destruct (Z.eq_dec (quantum fmt a) (quantum fmt b)) as [E | E].
  - unfold nearest. rewrite E. remember (quantum fmt b) as e eqn:Ee. clear Ee.
    pose proof (two_pow_pos e) as Hp.
    apply Qmult_le_compat_r; [| apply Qlt_le_weak, Hp].
    rewrite <- Zle_Qle. apply rne_monotone.
    apply Qmult_le_compat_r; [exact Hab |].
    apply Qlt_le_weak, Qinv_lt_0_compat, Hp.
  - (* a is below the binade of b *)
    assert (Hq : quantum fmt b = (ilog2 b + 1 - precision fmt)%Z)
      by (unfold quantum in *; lia).
    set (k := Z.max (ilog2 a + 1) (quantum fmt a)).
    assert (Hk : (k <= ilog2 b)%Z) by (unfold k, quantum in *; lia).
    apply Qle_trans with (2 ^ k)%Q.
    + apply nearest_le_pow; [| unfold k; lia].
      apply Qle_trans with (2 ^ (ilog2 a + 1))%Q; [apply Qlt_le_weak, Ua |].
      apply two_pow_le. unfold k. lia.
    + apply Qle_trans with (2 ^ ilog2 b)%Q; [apply two_pow_le, Hk |].
      apply nearest_ge_pow; [exact Lb | lia].
Qed.

(** ** Rounding *)

(** What the rounding of a magnitude is. *)
Lemma round_magnitude_cases (negative : bool) (a : Q) :
  let r := round_magnitude fmt negative a in
  let v := nearest fmt a in
  (r = Finf negative /\ (2 ^ emax fmt <= v)%Q)
  \/ (r = Fzero negative /\ (v == 0)%Q)
  \/ (exists q, r = Fnum q /\ (q == if negative then - v else v)%Q
                /\ ~ (v == 0)%Q /\ (v < 2 ^ emax fmt)%Q).
Proof.
  intros r v. unfold r, round_magnitude. fold v.
  destruct (Qle_bool (2 ^ emax fmt) v) eqn:E1.
  - left. split; [reflexivity | apply Qle_bool_iff, E1].
  - right.
    assert (Hlt : (v < 2 ^ emax fmt)%Q).
    { apply Qnot_le_lt. intros H. apply Qle_bool_iff in H. congruence. }
    destruct (Qeq_bool v 0) eqn:E2.
    + left. split; [reflexivity | apply Qeq_bool_iff, E2].
    + right. eexists. split; [reflexivity |].
      split; [apply Qred_correct |]. split; [| exact Hlt].
      intros H. apply Qeq_bool_iff in H. congruence.
Qed.

Lemma round_to_proper (p q : Q) : (p == q)%Q -> round_to fmt p = round_to fmt q.
Proof.
  intros H. unfold round_to. rewrite (Qred_complete _ _ H). reflexivity.
Qed.

Lemma Qopp_opp_eq (q : Q) : (- - q)%Q = q.
Proof. destruct q as [n d]. unfold Qopp. simpl. rewrite Z.opp_involutive. reflexivity. Qed.

Lemma round_magnitude_opp (negative : bool) (a : Q) :
  round_magnitude fmt (negb negative) a
  = float_opp (round_magnitude fmt negative a).
Proof.
  unfold round_magnitude.
  destruct (Qle_bool _ _); [reflexivity |].
  destruct (Qeq_bool _ _); [reflexivity |].
  destruct negative; simpl; rewrite Qred_opp; [| reflexivity].
  rewrite Qopp_opp_eq. reflexivity.
Qed.

Lemma round_to_opp (q : Q) :
  ~ (q == 0)%Q -> round_to fmt (- q) = float_opp (round_to fmt q).
Proof.
  intros Hq. unfold round_to. rewrite Qred_opp.
  pose proof (Qred_correct q) as E.
  destruct (Qred q) as [n d]. destruct n as [|n|n]; simpl.
  - exfalso. apply Hq. rewrite <- E. reflexivity.
  - apply (round_magnitude_opp false).
  - rewrite <- (round_magnitude_opp true). reflexivity.
Qed.

(** The rounding of a positive, of a negative and of no quantity. *)
Lemma round_to_pos (q : Q) :
  (0 < q)%Q ->
  exists a, (a == q)%Q /\ round_to fmt q = round_magnitude fmt false a.
Proof.
  intros Hq. unfold round_to. pose proof (Qred_correct q) as E.
  destruct (Qred q) as [n d]. destruct n as [|n|n]; simpl.
  - exfalso. rewrite <- E in Hq. discriminate Hq.
  - exists (Z.pos n # d). split; [exact E | reflexivity].
  - exfalso. rewrite <- E in Hq. discriminate Hq.
Qed.

Lemma round_to_zero (q : Q) : (q == 0)%Q -> round_to fmt q = Fzero false.
Proof. intros H. rewrite (round_to_proper q 0 H). reflexivity. Qed.

Lemma round_to_neg (q : Q) :
  (q < 0)%Q ->
  exists a, (a == - q)%Q /\ round_to fmt q = round_magnitude fmt true a.
Proof.
  intros Hq. destruct (round_to_pos (- q)) as (a & Ea & E); [lra |].
  exists a. split; [exact Ea |].
  rewrite <- (Qopp_opp_eq q), round_to_opp, E by lra.
  rewrite <- (round_magnitude_opp false). reflexivity.
Qed.

(** The numbers in their order, a NaN apart. *)
Lemma fle_finite (a b : float) :
  is_finite a = true -> is_finite b = true ->
  (fle a b = true <-> (value a <= value b)%Q).
Proof.
  intros Ha Hb. unfold fle.
  assert (E : float_compare a b = Some (value a ?= value b)%Q)
    by (destruct a, b; try discriminate; reflexivity).
  rewrite E. rewrite Qle_alt.
  destruct (value a ?= value b)%Q; split; intros H; try reflexivity;
    try discriminate; congruence.
Qed.

Lemma flt_finite (a b : float) :
  is_finite a = true -> is_finite b = true ->
  (flt a b = true <-> (value a < value b)%Q).
Proof.
  intros Ha Hb. unfold flt.
  assert (E : float_compare a b = Some (value a ?= value b)%Q)
    by (destruct a, b; try discriminate; reflexivity).
  rewrite E. rewrite Qlt_alt.
  destruct (value a ?= value b)%Q; split; intros H; try reflexivity;
    discriminate.
Qed.

(** Rounding keeps the order. *)
Lemma round_magnitude_monotone (a b : Q) :
  (0 < a)%Q -> (a <= b)%Q ->
  fle (round_magnitude fmt false a) (round_magnitude fmt false b) = true
  /\ fle (round_magnitude fmt true b) (round_magnitude fmt true a) = true.
Proof.
  intros Ha Hab. pose proof (nearest_monotone a b Ha Hab) as Hm.
  destruct (round_magnitude_cases false a)
    as [[Ea Ia] | [[Ea Za] | (qa & Ea & Va & Na & La)]];
  destruct (round_magnitude_cases false b)
    as [[Eb Ib] | [[Eb Zb] | (qb & Eb & Vb & Nb & Lb)]];
  destruct (round_magnitude_cases true a)
    as [[Ea' Ia'] | [[Ea' Za'] | (qa' & Ea' & Va' & Na' & La')]];
  destruct (round_magnitude_cases true b)
    as [[Eb' Ib'] | [[Eb' Zb'] | (qb' & Eb' & Vb' & Nb' & Lb')]];
  rewrite Ea, Eb, Ea', Eb'; simpl in *;
  try (split; reflexivity); try (exfalso; lra);
  try (exfalso; pose proof (two_pow_pos (emax fmt)); lra);
  try (split; apply fle_finite; try reflexivity; simpl;
       pose proof (nearest_nonneg a ltac:(lra));
       pose proof (nearest_nonneg b ltac:(lra)); lra).
Qed.
End Rounding.

Lemma binary32_precision : (1 <= precision binary32)%Z.
Proof. discriminate. Qed.

Section Order.
Variable fmt : format.
Hypothesis precision_pos : (1 <= precision fmt)%Z.

Lemma round_to_finite_or_inf (q : Q) : round_to fmt q <> Fnan.
Proof.
  unfold round_to. destruct (Qnum (Qred q)); [discriminate | |];
    unfold round_magnitude; destruct (Qle_bool _ _); try discriminate;
    destruct (Qeq_bool _ _); discriminate.
Qed.

Lemma fle_round_to_pos (q : Q) : (0 < q)%Q -> fle fzero (round_to fmt q) = true.
Proof.
  intros Hq. destruct (round_to_pos fmt q Hq) as (a & Ea & ->).
  pose proof (nearest_nonneg fmt a ltac:(lra)) as Hn.
  destruct (round_magnitude_cases fmt false a)
    as [[E _] | [[E _] | (r & E & Vr & _)]]; rewrite E; try reflexivity.
  apply fle_finite; try reflexivity. simpl in *. lra.
Qed.

Lemma fle_round_to_neg (q : Q) : (q < 0)%Q -> fle (round_to fmt q) fzero = true.
Proof.
  intros Hq. destruct (round_to_neg fmt q Hq) as (a & Ea & ->).
  pose proof (nearest_nonneg fmt a ltac:(lra)) as Hn.
  destruct (round_magnitude_cases fmt true a)
    as [[E _] | [[E _] | (r & E & Vr & _)]]; rewrite E; try reflexivity.
  apply fle_finite; try reflexivity. simpl in *. lra.
Qed.

Lemma fle_trans_zero (a b : float) :
  fle a fzero = true -> fle fzero b = true -> fle a b = true.
Proof.
  destruct a as [p|s|[]|], b as [q|s'|[]|]; try discriminate; try reflexivity;
    intros Ha Hb;
    apply fle_finite in Ha; try reflexivity;
    apply fle_finite in Hb; try reflexivity;
    apply fle_finite; try reflexivity; simpl in *; lra.
Qed.

(** Rounding keeps the order of the exact results. *)
Lemma fle_round_to (p q : Q) :
  (p <= q)%Q -> fle (round_to fmt p) (round_to fmt q) = true.
Proof.
  intros H.
  destruct (Q_dec p 0) as [[Hp | Hp] | Hp], (Q_dec q 0) as [[Hq | Hq] | Hq];
    try (exfalso; lra).
  - destruct (round_to_neg fmt p Hp) as (a & Ea & ->).
    destruct (round_to_neg fmt q Hq) as (b & Eb & ->).
    apply (round_magnitude_monotone fmt precision_pos b a); lra.
  - apply fle_trans_zero; [apply fle_round_to_neg, Hp | apply fle_round_to_pos, Hq].
  - rewrite (round_to_zero fmt q Hq). apply fle_round_to_neg, Hp.
  - destruct (round_to_pos fmt p Hp) as (a & Ea & ->).
    destruct (round_to_pos fmt q Hq) as (b & Eb & ->).
    apply (round_magnitude_monotone fmt precision_pos a b); lra.
  - rewrite (round_to_zero fmt p Hp). apply fle_round_to_pos, Hq.
  - rewrite (round_to_zero fmt p Hp), (round_to_zero fmt q Hq). reflexivity.
Qed.

(** ** The operations on finite numbers *)

Lemma float_add_finite (a b : float) :
  is_finite a = true -> is_finite b = true ->
  same_number (float_add fmt a b) (round_to fmt (value a + value b)).
Proof.
  destruct a as [p|s| |], b as [q|s'| |]; try discriminate; intros _ _;
    try (left; reflexivity).
  right. exists (s && s'), false. split; reflexivity.
Qed.

Lemma float_add_is_finite (a b : float) :
  is_finite (float_add fmt a b) = true ->
  is_finite a = true /\ is_finite b = true.
Proof.
  destruct a as [p|s|s|], b as [q|s'|s'|]; simpl; try discriminate; auto.
  destruct (Bool.eqb s s'); discriminate.
Qed.

Lemma value_float_opp (a : float) : (value (float_opp a) == - value a)%Q.
Proof. destruct a; simpl; lra. Qed.

Lemma is_finite_float_opp (a : float) : is_finite (float_opp a) = is_finite a.
Proof. destruct a; reflexivity. Qed.

Lemma float_sub_finite (a b : float) :
  is_finite a = true -> is_finite b = true ->
  same_number (float_sub fmt a b) (round_to fmt (value a - value b)).
Proof.
  intros Ha Hb. unfold float_sub.
  rewrite (round_to_proper fmt (value a - value b)
             (value a + value (float_opp b))).
  - apply float_add_finite; [exact Ha |]. rewrite is_finite_float_opp. exact Hb.
  - rewrite value_float_opp. reflexivity.
Qed.

Lemma float_sub_is_finite (a b : float) :
  is_finite (float_sub fmt a b) = true ->
  is_finite a = true /\ is_finite b = true.
Proof.
  intros H. apply float_add_is_finite in H as [Ha Hb].
  rewrite is_finite_float_opp in Hb. auto.
Qed.

(** Division by a finite number other than zero. *)
Lemma float_div_finite (a : float) (q : Q) :
  is_finite a = true ->
  same_number (float_div fmt a (Fnum q)) (round_to fmt (value a / q)).
Proof.
  destruct a as [p|s| |]; try discriminate; intros _.
  - left. reflexivity.
  - right. exists (xorb (signbit (Fzero s)) (signbit (Fnum q))), false.
    split; [reflexivity |]. apply round_to_zero. simpl.
    unfold Qdiv. apply Qmult_0_l.
Qed.

Lemma float_div_is_finite (a : float) (q : Q) :
  is_finite (float_div fmt a (Fnum q)) = true -> is_finite a = true.
Proof. destruct a; simpl; try discriminate; auto. Qed.

Lemma fle_same_number (a a' b b' : float) :
  same_number a a' -> same_number b b' -> fle a b = fle a' b'.
Proof.
  intros [-> | (s1 & s1' & -> & ->)] [-> | (s2 & s2' & -> & ->)];
    try reflexivity;
    try (destruct a' as [| |[]|]; reflexivity);
    try (destruct b' as [| |[]|]; reflexivity).
Qed.

Lemma float_sub_monotone (a b c : float) :
  is_finite a = true -> is_finite b = true -> is_finite c = true ->
  fle a b = true -> fle (float_sub fmt a c) (float_sub fmt b c) = true.
Proof.
  intros Ha Hb Hc Hab. apply fle_finite in Hab; try assumption.
  rewrite (fle_same_number _ _ _ _ (float_sub_finite a c Ha Hc)
             (float_sub_finite b c Hb Hc)).
  apply fle_round_to. lra.
Qed.

Lemma float_div_monotone (a b : float) (q : Q) :
  is_finite a = true -> is_finite b = true -> (0 <= q)%Q ->
  fle a b = true ->
  fle (float_div fmt a (Fnum q)) (float_div fmt b (Fnum q)) = true.
Proof.
  intros Ha Hb Hq Hab. apply fle_finite in Hab; try assumption.
  rewrite (fle_same_number _ _ _ _ (float_div_finite a q Ha)
             (float_div_finite b q Hb)).
  apply fle_round_to. apply Qmult_le_compat_r; [exact Hab |].
  apply Qinv_le_0_compat, Hq.
Qed.
End Order.
(** ** Comparisons *)

Lemma float_compare_antisym (a b : float) :
  float_compare b a = CompOpp <$> float_compare a b.
Proof.
  destruct a as [p|s|[]|], b as [q|s'|[]|]; try reflexivity;
    simpl; rewrite Qcompare_antisym; reflexivity.
Qed.

Lemma fle_fgt (a b : float) : fle a b = true -> fgt a b = false.
Proof.
  unfold fle, fgt, flt. rewrite (float_compare_antisym a b).
  destruct (float_compare a b) as [[]|]; simpl; intros H;
    try reflexivity; discriminate.
Qed.


(** ** The precondition check of the queries *)

Lemma check_distance_validated g distance cell_size :
  cellSize Validated g = Ok cell_size ->
  check_distance Validated g distance =
  if fgt distance (fmin (x cell_size) (y cell_size))
  then Throw invalid_argument else Ok tt.
Proof. intros H. unfold check_distance. simpl. rewrite H. reflexivity. Qed.

Lemma check_distance_passes b g distance :
  b = Performance \/
  (exists cell_size, cellSize b g = Ok cell_size
                     /\ fle distance (fmin (x cell_size) (y cell_size)) = true) ->
  check_distance b g distance = Ok tt.
Proof.
  intros [-> | (cs & Hcs & Hle)]; [reflexivity |].
  unfold check_distance. destruct (validated b); [| reflexivity].
  rewrite Hcs. unfold_outcome.
  apply fle_fgt in Hle. rewrite Hle. reflexivity.
Qed.

(** ** Distances *)

Lemma exact_distance2_nonneg (a other : Vector2) :
  (0 <= exact_distance2 a other)%Q.
Proof.
  unfold exact_distance2.
  generalize (value (x other) - value (x a))%Q
             (value (y other) - value (y a))%Q.
  intros u v. simpl. nra.
Qed.

(** The Euclidean distance is within a non-negative bound when the sum of
    the squares is within the square of the bound. *)
Lemma euclidean_distance_le_iff (a other : Vector2) (d : Q) :
  (0 <= d)%Q ->
  (euclidean_distance a other <= Q2R d)%R
  <-> (exact_distance2 a other <= d * d)%Q.
Proof.
  intros Hd. unfold euclidean_distance.
  pose proof (Qle_Rle _ _ (exact_distance2_nonneg a other)) as HD.
  pose proof (Qle_Rle _ _ Hd) as Hd'.
  rewrite RMicromega.Q2R_0 in HD, Hd'.
  split; intros H.
  - apply Rle_Qle. rewrite Q2R_mult.
    rewrite <- (sqrt_sqrt (Q2R (exact_distance2 a other)) HD).
    pose proof (sqrt_pos (Q2R (exact_distance2 a other))). nra.
  - apply Qle_Rle in H. rewrite Q2R_mult in H.
    rewrite <- (sqrt_square (Q2R d) Hd'). apply sqrt_le_1_alt. exact H.
Qed.

(** The square does not see the sign, and the squared distance does not see
    the order of the two points. *)
Lemma pow2_float_opp (a : float) : pow2 (float_opp a) = pow2 a.
Proof.
  destruct a as [q|s|s|]; simpl; try reflexivity.
  - unfold pow2. simpl. apply round_to_proper. ring.
  - destruct s; reflexivity.
  - destruct s; reflexivity.
Qed.

Lemma pow2_same_number (a b : float) : same_number a b -> pow2 a = pow2 b.
Proof.
  intros [-> | (s & s' & -> & ->)]; [reflexivity |].
  destruct s, s'; reflexivity.
Qed.

Lemma pow2_fsub_sym (u v : float) : pow2 (fsub u v) = pow2 (fsub v u).
Proof.
  destruct (is_finite u) eqn:Hu, (is_finite v) eqn:Hv.
  - unfold fsub.
    rewrite (pow2_same_number _ _ (float_sub_finite binary32 u v Hu Hv)).
    rewrite (pow2_same_number _ _ (float_sub_finite binary32 v u Hv Hu)).
    destruct (Qeq_dec (value u - value v) 0) as [E | E].
    + rewrite (round_to_zero _ _ E).
      rewrite (round_to_zero _ (value v - value u)) by lra. reflexivity.
    + rewrite (round_to_proper _ (value v - value u) (- (value u - value v)))
        by ring.
      rewrite round_to_opp by exact E. symmetry. apply pow2_float_opp.
  - destruct u as [p|s| |], v as [q|s'|[]|]; try discriminate; reflexivity.
  - destruct u as [p|s|[]|], v as [q|s'| |]; try discriminate; reflexivity.
  - destruct u as [p|s|[]|], v as [q|s'|[]|]; try discriminate; reflexivity.
Qed.

Lemma distance2_sym (a other : Vector2) : distance2 a other = distance2 other a.
Proof.
  unfold distance2.
  rewrite (pow2_fsub_sym (x other) (x a)), (pow2_fsub_sym (y other) (y a)).
  reflexivity.
Qed.

(** ** The example grids are grids of the code *)

Lemma grid_10x5_constructed :
  Grid_new Validated bound_100 10 5 = Ok grid_10x5.
Proof. reflexivity. Qed.

Lemma grid_1x1_reached :
  (g ← Grid_new Validated bound_100 1 1;
   '(_, g) ← addBody Validated side_by_side g 1%N;
   '(_, g) ← addBody Validated side_by_side g 2%N;
   Ok g) = Ok grid_1x1.
Proof. vm_compute. reflexivity. Qed.

Lemma grid_2x2_reached :
  (g ← Grid_new Validated bound_2 2 2;
   '(_, g) ← addBody Validated corners g 1%N;
   '(_, g) ← addBody Validated corners g 2%N;
   '(_, g) ← addBody Validated corners g 3%N;
   '(_, g) ← addBody Validated corners g 4%N;
   Ok g) = Ok grid_2x2.
Proof. vm_compute. reflexivity. Qed.

Lemma grid_twice_reached :
  (g ← Grid_new Validated bound_100 1 1;
   '(_, g) ← addBody Validated side_by_side g 1%N;
   '(_, g) ← addBody Validated side_by_side g 2%N;
   '(_, g) ← addBody Validated side_by_side g 1%N;
   Ok g) = Ok grid_twice.
Proof. vm_compute. reflexivity. Qed.

(** ** Cell addressing *)

(** C9.  On the grid constructed over the 100 x 100 bound at the origin with
    10 rows and 5 columns, a body at (14.4, 20.8) has the cell index (row 2,
    column 0), and for a body at the far corner (100, 100) of the bound
    [getCellIndex] throws [std::out_of_range] in the validated build. *)
Theorem getCellIndex_scenario :
  Grid_new Validated bound_100 10 5 = Ok grid_10x5
  /\ (forall body : Body,
        getCellIndex Validated (everywhere (vec2f 14.4 20.8))
                     grid_10x5 body = Ok (2%N, 0%N))
  /\ (forall body : Body,
        getCellIndex Validated (everywhere (vec2f 100 100))
                     grid_10x5 body = Throw out_of_range).
Proof.
  split; [reflexivity |]. split; intros body; vm_compute; reflexivity.
Qed.

(** C3, at the input where the code departs from it.  In the validated build
    a body at (-0.5, 5), which the bound of [grid_10x5] does not contain, is
    given the cell index (0, 0) of the grid: the quotient -0.025 is truncated
    toward zero and no exception is thrown. *)
Theorem getCellIndex_outside_accepted :
  contains (bound grid_10x5) (vec2f (-0.5) 5) = false
  /\ forall body : Body,
       getCellIndex Validated (everywhere (vec2f (-0.5) 5))
                    grid_10x5 body = Ok (0%N, 0%N).
Proof. split; [| intros body]; vm_compute; reflexivity. Qed.

(** ** updateBodyCell within one cell *)

(** C7.  When the current position of the body maps to the cell that is
    passed as the previous one, [updateBodyCell] returns that same cell
    reference and the Grid is unchanged: the cells and the counter. *)
Theorem updateBodyCell_same_cell b PositionGetter g body previous_cell :
  getBodyCell b PositionGetter g body = Ok previous_cell ->
  updateBodyCell b PositionGetter g body previous_cell = Ok (previous_cell, g).
Proof.
  unfold getBodyCell, updateBodyCell. intros H.
  destruct (getCellIndex b PositionGetter g body) as [[row col]| |];
    unfold_outcome; try discriminate.
  rewrite H. rewrite N.eqb_refl. reflexivity.
Qed.

Lemma updateBodyCell_same_cell_witness :
  updateBodyCell Validated corners grid_2x2 3%N 2%N = Ok (2%N, grid_2x2).
Proof.
  apply (updateBodyCell_same_cell Validated corners grid_2x2 3%N 2%N).
  vm_compute. reflexivity.
Defined.

(** ** The precondition on the distance *)

Lemma queryDistance_after_check b PositionGetter g body body_cell_index distance :
  check_distance b g distance = Ok tt ->
  no_throw (queryDistance b PositionGetter g body body_cell_index distance).
Proof.
  intros Hc. unfold queryDistance. rewrite Hc.
  apply no_throw_bind; [exact I | intros _].
  apply no_throw_bind; [apply Matrix_ref_no_throw | intros center].
  apply no_throw_bind; [apply deref_no_throw | intros same].
  generalize (List.filter
    (fun ptr => negb (get ptr =? body)%N
                && fle (distance2 (PositionGetter (get ptr))
                                  (PositionGetter body))
                       (pow2 distance)) same).
  intros result.
  assert (Hstart : no_throw (Ok result : outcome (list N))) by exact I.
  revert Hstart. generalize (Ok result : outcome (list N)).
  induction adjacent_offsets as [|xy offsets IH]; intros acc Hacc; simpl.
  - exact Hacc.
  - apply IH. unfold insert_adjacent.
    apply no_throw_bind; [exact Hacc | intros r].
    apply no_throw_bind.
    + unfold translate_cell. destruct body_cell_index, xy.
      apply no_throw_bind; [unfold int_add; destruct (_ && _); exact I | intros].
      apply no_throw_bind; [unfold int_add; destruct (_ && _); exact I | intros].
      exact I.
    + intros cell_index. destruct (is_cell_within_bound g cell_index); [| exact I].
      apply no_throw_bind; [apply Matrix_ref_no_throw | intros].
      apply no_throw_bind; [apply deref_no_throw | intros]. exact I.
Qed.

Lemma queryDistancePair_after_check b PositionGetter ptr_hash g distance :
  check_distance b g distance = Ok tt ->
  no_throw (queryDistancePair b PositionGetter ptr_hash g distance).
Proof.
  intros Hc. unfold queryDistancePair. rewrite Hc.
  apply no_throw_bind; [exact I | intros _].
  unfold for_range. apply for_loop_no_throw. intros row result.
  apply for_loop_no_throw. intros col result'. unfold sweep_position.
  repeat (apply no_throw_bind;
          [first [apply Matrix_ref_no_throw | apply deref_no_throw] | intros]).
  destruct (_ =? _)%N; [exact I |]. destruct (_ <? _)%Z; exact I.
Qed.

(** C8.  In the validated build, on a Grid whose cell size is [cell_size],
    [queryDistance] and [queryDistancePair] throw [std::invalid_argument]
    exactly when the distance is greater than the smaller of the cell width
    and the cell height. *)
Theorem distance_precondition_checked
  PositionGetter ptr_hash g body body_cell_index distance cell_size :
  cellSize Validated g = Ok cell_size ->
  (queryDistance Validated PositionGetter g body body_cell_index distance
     = Throw invalid_argument
   <-> flt (fmin (x cell_size) (y cell_size)) distance = true)
  /\ (queryDistancePair Validated PositionGetter ptr_hash g distance
        = Throw invalid_argument
      <-> flt (fmin (x cell_size) (y cell_size)) distance = true).
Proof.
  intros Hcs.
  pose proof (check_distance_validated g distance cell_size Hcs) as Hc.
  change (flt (fmin (x cell_size) (y cell_size)) distance)
    with (fgt distance (fmin (x cell_size) (y cell_size))).
  destruct (fgt distance (fmin (x cell_size) (y cell_size))) eqn:Hgt.
  - split; (split; [reflexivity | intros _]).
    + unfold queryDistance. rewrite Hc. reflexivity.
    + unfold queryDistancePair. rewrite Hc. reflexivity.
  - split; (split; [intros H; exfalso | discriminate]).
    + eapply no_throw_neq; [| exact H]. apply queryDistance_after_check, Hc.
    + eapply no_throw_neq; [| exact H]. apply queryDistancePair_after_check, Hc.
Qed.

Lemma distance_precondition_checked_witness :
  (queryDistance Validated corners grid_2x2 1%N (0%N, 0%N) (f32 1.2)
     = Throw invalid_argument <-> flt (fmin (f32 1) (f32 1)) (f32 1.2) = true)
  /\ (queryDistancePair Validated corners pointer_value grid_2x2 (f32 1.2)
        = Throw invalid_argument
      <-> flt (fmin (f32 1) (f32 1)) (f32 1.2) = true).
Proof.
  apply (distance_precondition_checked corners pointer_value grid_2x2 1%N
           (0%N, 0%N) (f32 1.2) (vec2f 1 1)).
  vm_compute. reflexivity.
Defined.

(** ** Grids of a single row or a single column *)

(** C10, as the code has it.  On a Grid with one row or one column the sweep
    visits no position, and [queryDistancePair] returns the empty set for
    every distance that passes the precondition check: every distance in the
    performance build, the distances up to the smaller cell dimension in the
    validated build. *)
Theorem queryDistancePair_single_row_or_column
  b PositionGetter ptr_hash g distance :
  rows g = 1%N \/ columns g = 1%N ->
  b = Performance \/
  (exists cell_size, cellSize b g = Ok cell_size
                     /\ fle distance (fmin (x cell_size) (y cell_size))
                        = true) ->
  queryDistancePair b PositionGetter ptr_hash g distance = Ok ∅.
Proof.
  intros Hdim Hcheck. unfold queryDistancePair.
  rewrite (check_distance_passes _ _ _ Hcheck). unfold_outcome.
  unfold for_range. destruct Hdim as [-> | ->].
  - reflexivity.
  - apply for_loop_skip. intros row result. reflexivity.
Qed.

Lemma queryDistancePair_single_row_or_column_witness :
  queryDistancePair Validated (everywhere (vec2f 1 1)) pointer_value
                    grid_1x1 (f32 100) = Ok ∅.
Proof.
  apply (queryDistancePair_single_row_or_column Validated
           (everywhere (vec2f 1 1)) pointer_value grid_1x1 (f32 100)).
  - left. reflexivity.
  - right. exists (vec2f 100 100). split; vm_compute; reflexivity.
Defined.

(** In the validated build a distance above the cell size is answered with
    [std::invalid_argument] on a single-cell Grid too, not with the empty
    set. *)
Lemma queryDistancePair_single_row_throws :
  rows grid_1x1 = 1%N
  /\ queryDistancePair Validated (everywhere (vec2f 1 1)) pointer_value
                       grid_1x1 (f32 200) = Throw invalid_argument
  /\ queryDistancePair Validated (everywhere (vec2f 1 1)) pointer_value
                       grid_1x1 (f32 200) <> Ok ∅.
Proof.
  assert (H : queryDistancePair Validated (everywhere (vec2f 1 1))
                pointer_value grid_1x1 (f32 200) = Throw invalid_argument)
    by (vm_compute; reflexivity).
  split; [reflexivity |]. split; [exact H |]. rewrite H. discriminate.
Qed.

(** C1, at the input where the code departs from it.  The single cell of
    [grid_1x1] holds the bodies 1 and 2, at (1, 1) and (1.5, 1) and so at
    distance 0.5 from each other; each resides in the cell [getCellIndex]
    computes.  For the distance 1, within the cell size, [queryDistancePair]
    returns the empty set in both builds: with one row the sweep has no
    position. *)
Theorem queryDistancePair_single_cell_misses_pair :
  resident Validated side_by_side grid_1x1 = true
  /\ count_consistent grid_1x1
  /\ in_grid grid_1x1 1%N /\ in_grid grid_1x1 2%N
  /\ (euclidean_distance (side_by_side 1%N) (side_by_side 2%N)
      <= Q2R (value (f32 1)))%R
  /\ cellSize Validated grid_1x1 = Ok (vec2f 100 100)
  /\ forall b,
       queryDistancePair b side_by_side pointer_value grid_1x1 (f32 1) = Ok ∅.
Proof.
  split; [vm_compute; reflexivity |]. split; [reflexivity |].
  split; [exists [1%N; 2%N]; simpl; auto |].
  split; [exists [1%N; 2%N]; simpl; auto |].
  split.
  - apply euclidean_distance_le_iff; vm_compute; discriminate.
  - split; [vm_compute; reflexivity |]. intros []; vm_compute; reflexivity.
Qed.

(** ** Cells of the buffer *)

Lemma deref_Ok {T : Type} (m : Matrix T) i c :
  deref m i = Ok c <-> data m !! N.to_nat i = Some c.
Proof.
  unfold deref. destruct (data m !! N.to_nat i); split; intros H;
    inversion H; reflexivity.
Qed.

Lemma deref_assign_eq {T : Type} (m : Matrix T) i c c0 :
  deref m i = Ok c0 -> deref (assign m i c) i = Ok c.
Proof.
  rewrite !deref_Ok. intros H. simpl.
  apply list_lookup_insert_eq. eapply lookup_lt_Some, H.
Qed.

Lemma deref_assign_ne {T : Type} (m : Matrix T) i j c :
  i <> j -> deref (assign m i c) j = deref m j.
Proof.
  intros H. unfold deref. simpl.
  rewrite list_lookup_insert_ne; [reflexivity | lia].
Qed.

Lemma Matrix_ref_Ok {T : Type} (m : Matrix T) row column i :
  Matrix_ref m row column = Ok i ->
  i = offset m row column /\ (N.to_nat i < length (data m))%nat.
Proof.
  unfold Matrix_ref. destruct (_ <? _)%N eqn:E; intros H; inversion H.
  apply N.ltb_lt in E. split; [reflexivity | lia].
Qed.

Lemma Matrix_ref_deref {T : Type} (m : Matrix T) row column i :
  Matrix_ref m row column = Ok i -> exists c, deref m i = Ok c.
Proof.
  intros H. apply Matrix_ref_Ok in H as [_ H].
  apply lookup_lt_is_Some in H as [c Hc]. exists c. apply deref_Ok, Hc.
Qed.

(** ** The sum of the cell sizes under an assignment *)

Local Abbreviation sizes l :=
  (foldr (fun (cell : list N) n => (N.of_nat (length cell) + n)%N) 0%N l).

Lemma sizes_insert (l : list (list N)) i c c' :
  l !! i = Some c ->
  (sizes (<[i:=c']> l) + N.of_nat (length c)
   = sizes l + N.of_nat (length c'))%N.
Proof.
  revert i. induction l as [|c0 l IH]; intros [|i] H; simpl in *; try discriminate.
  - inversion H. subst. lia.
  - specialize (IH i H). lia.
Qed.

Lemma sum_cell_sizes_assign g i c c' :
  deref (cells g) i = Ok c ->
  (sum_cell_sizes (with_cells g (assign (cells g) i c')) + N.of_nat (length c)
   = sum_cell_sizes g + N.of_nat (length c'))%N.
Proof. rewrite deref_Ok. intros H. apply sizes_insert, H. Qed.

Lemma sizes_ge (l : list (list N)) i c :
  l !! i = Some c -> (N.of_nat (length c) <= sizes l)%N.
Proof.
  revert i. induction l as [|c0 l IH]; intros [|i] H; simpl in *; try discriminate.
  - inversion H. subst. lia.
  - specialize (IH i H). lia.
Qed.

Lemma sizes_all_empty (l : list (list N)) :
  Forall (fun c => c = []) l -> sizes l = 0%N.
Proof. induction 1 as [|c l -> _ IH]; simpl; [reflexivity | exact IH]. Qed.

(** ** Arithmetic on [std::size_t] *)

Lemma wrap_small n : (n < size_max)%N -> wrap n = n.
Proof. apply N.mod_small. Qed.

Lemma wrap_lt n : (wrap n < size_max)%N.
Proof. apply N.mod_lt. discriminate. Qed.

Lemma wrap_sub_exact a b :
  (b <= a)%N -> (a < size_max)%N -> wrap_sub a b = (a - b)%N.
Proof.
  intros Hb Ha. unfold wrap_sub. rewrite (wrap_small b) by lia.
  unfold wrap. replace (a + size_max - b)%N with ((a - b) + 1 * size_max)%N by lia.
  rewrite N.Div0.mod_add. apply N.mod_small. lia.
Qed.

(** ** removeBody *)

Lemma filter_none {A : Type} (pred : A -> bool) (l : list A) :
  List.filter pred l = [] -> List.filter (fun a => negb (pred a)) l = l.
Proof.
  induction l as [|a l IH]; simpl; [reflexivity |].
  destruct (pred a); simpl; [discriminate |]. intros H. f_equal. apply IH, H.
Qed.

(** C6.  [removeBody] removes from the cell exactly the handles that point
    to the body, returns how many they were and decrements the counter by
    that number; the other cells are untouched.  When no handle of the cell
    points to the body the result is 0 and the Grid is unchanged. *)
Theorem removeBody_spec g body body_cell cell :
  deref (cells g) body_cell = Ok cell ->
  (num_bodies g < size_max)%N ->
  let removed :=
    N.of_nat (length (List.filter (fun ptr => (get ptr =? body)%N) cell)) in
  exists g',
    removeBody g body body_cell = Ok (removed, g')
    /\ deref (cells g') body_cell
       = Ok (List.filter (fun ptr => negb (get ptr =? body)%N) cell)
    /\ (forall other, other <> body_cell ->
          deref (cells g') other = deref (cells g) other)
    /\ num_bodies g' = wrap_sub (num_bodies g) removed
    /\ ((removed <= num_bodies g)%N ->
        num_bodies g' = (num_bodies g - removed)%N)
    /\ (removed = 0%N -> g' = g).
Proof.
  intros Hcell Hnum removed.
  unfold removeBody. rewrite Hcell. unfold_outcome. unfold remove_if.
  eexists. split; [reflexivity |]. simpl.
  split; [eapply deref_assign_eq, Hcell |].
  split; [intros other Hne; apply deref_assign_ne; congruence |].
  split; [reflexivity |].
  split; [intros Hle; apply wrap_sub_exact; assumption |].
  intros H0. fold removed. rewrite H0.
  rewrite wrap_sub_exact by lia. rewrite N.sub_0_r.
  assert (Hnone : List.filter (fun ptr => (get ptr =? body)%N) cell = []).
  { subst removed. destruct (List.filter _ cell); [reflexivity | discriminate]. }
  rewrite (filter_none _ _ Hnone).
  destruct g as [[d r c] n bd rs cs]. unfold with_num_bodies, with_cells, assign.
  simpl in *. apply deref_Ok in Hcell. simpl in Hcell.
  rewrite (list_insert_id _ _ _ Hcell). reflexivity.
Qed.

Lemma removeBody_spec_witness :
  exists g',
    removeBody grid_twice 1%N 0%N = Ok (2%N, g')
    /\ deref (cells g') 0%N = Ok [2%N]
    /\ (forall other, other <> 0%N ->
          deref (cells g') other = deref (cells grid_twice) other)
    /\ num_bodies g' = wrap_sub 3 2
    /\ ((2 <= 3)%N -> num_bodies g' = 1%N)
    /\ (2%N = 0%N -> g' = grid_twice).
Proof.
  apply (removeBody_spec grid_twice 1%N 0%N [1%N; 2%N; 1%N]).
  - reflexivity.
  - reflexivity.
Defined.

(** ** clearAllBodies *)

(** A loop whose body succeeds and re-establishes an invariant indexed by
    the counter runs to completion. *)
Lemma for_loop_total {S : Type} (P : N -> S -> Prop) body :
  forall n i (s : S),
    (forall j s, (i <= j < i + N.of_nat n)%N -> P j s ->
                 exists s', body j s = Ok s' /\ P (N.succ j) s') ->
    P i s ->
    exists s', for_loop n i body s = Ok s' /\ P (i + N.of_nat n)%N s'.
Proof.
  induction n as [|n IH]; intros i s Hbody Hs; simpl.
  - exists s. split; [reflexivity |]. rewrite N.add_0_r. exact Hs.
  - destruct (Hbody i s) as (s1 & E1 & H1); [lia | exact Hs |].
    rewrite E1. unfold_outcome.
    destruct (IH (N.succ i) s1) as (s2 & E2 & H2); [| exact H1 |].
    + intros j s0 Hj. apply Hbody. lia.
    + exists s2. split; [exact E2 |].
      replace (i + N.of_nat (Datatypes.S n))%N
        with (N.succ i + N.of_nat n)%N by lia.
      exact H2.
Qed.

Lemma offset_in_range {T : Type} (m : Matrix T) R C row column :
  mcolumns m = C -> (R * C < size_max)%N ->
  (row < R)%N -> (column < C)%N ->
  offset m row column = (row * C + column)%N /\ (row * C + column < R * C)%N.
Proof.
  intros HC Hmax Hr Hc. unfold offset. rewrite HC.
  assert (row * C + column < R * C)%N by nia.
  rewrite (wrap_small (row * C)) by nia.
  rewrite wrap_small by lia. split; [reflexivity | assumption].
Qed.

Lemma clear_row R C (m : Matrix cell_t) i :
  (R * C < size_max)%N -> (i < R)%N ->
  cleared_upto R C (i * C) m ->
  exists m',
    for_range 0 C (fun j m => cell ← Matrix_ref m i j; Ok (assign m cell [])) m
    = Ok m'
    /\ cleared_upto R C (N.succ i * C) m'.
Proof.
  intros Hmax Hi Hm. unfold for_range.
  destruct (for_loop_total (fun j m => cleared_upto R C (i * C + j) m)
              (fun j m => cell ← Matrix_ref m i j; Ok (assign m cell []))
              (N.to_nat (C - 0)) 0%N m) as (m' & E & H').
  - intros j s Hj (Hr & Hc & Hlen & Hclr).
    destruct (offset_in_range s R C i j Hc Hmax Hi) as [Hoff Hlt]; [lia |].
    unfold Matrix_ref. rewrite Hoff.
    destruct (_ <? _)%N eqn:E; [| apply N.ltb_ge in E; lia].
    unfold_outcome. eexists. split; [reflexivity |].
    unfold cleared_upto, assign. simpl. rewrite length_insert.
    repeat split; try assumption.
    intros k Hk Hkl.
    destruct (decide (k = N.to_nat (i * C + j))) as [-> | Hne].
    + apply list_lookup_insert_eq. exact Hkl.
    + rewrite list_lookup_insert_ne by lia. apply Hclr; lia.
  - rewrite N.add_0_r. exact Hm.
  - exists m'. split; [exact E |].
    replace (N.succ i * C)%N with (i * C + (0 + N.of_nat (N.to_nat (C - 0))))%N
      by lia.
    exact H'.
Qed.

Lemma clearAllBodies_total g :
  wf_grid g ->
  (Z.of_N (rows g) <= INT_MAX)%Z -> (Z.of_N (columns g) <= INT_MAX)%Z ->
  exists g',
    clearAllBodies g = Ok g'
    /\ Forall (fun c => c = []) (data (cells g'))
    /\ num_bodies g' = 0%N /\ wf_grid g'.
Proof.
  intros (Hr & Hc & Hlen & Hmax & Hnum) Hri Hci. unfold clearAllBodies.
  unfold for_int at 1.
  destruct (INT_MAX <? Z.of_N (rows g))%Z eqn:Er; [apply Z.ltb_lt in Er; lia |].
  unfold for_range at 1.
  destruct (for_loop_total (fun i m => cleared_upto (rows g) (columns g)
                                         (i * columns g) m)
              (fun i m => for_int (columns g) (fun j m =>
                 cell ← Matrix_ref m i j; Ok (assign m cell [])) m)
              (N.to_nat (rows g - 0)) 0%N (cells g)) as (m' & E & H').
  - intros i s Hi Hs. unfold for_int.
    destruct (INT_MAX <? Z.of_N (columns g))%Z eqn:Ec;
      [apply Z.ltb_lt in Ec; lia |].
    apply clear_row; [assumption | lia | exact Hs].
  - repeat split; try assumption. intros i Hi. simpl in Hi. lia.
  - rewrite E. unfold_outcome. eexists. split; [reflexivity |].
    destruct H' as (Hr' & Hc' & Hlen' & Hclr). simpl.
    split.
    + apply Forall_lookup. intros i c Hic.
      pose proof (lookup_lt_Some _ _ _ Hic) as Hil.
      rewrite Hclr in Hic; [congruence | lia | exact Hil].
    + split; [reflexivity |]. unfold wf_grid. simpl.
      repeat split; assumption.
Qed.

Lemma clearAllBodies_Ok g g' :
  wf_grid g -> clearAllBodies g = Ok g' ->
  Forall (fun c => c = []) (data (cells g'))
  /\ num_bodies g' = 0%N /\ wf_grid g'.
Proof.
  intros Hwf H.
  assert (Hr : (Z.of_N (rows g) <= INT_MAX)%Z).
  { unfold clearAllBodies, for_int at 1 in H.
    destruct (INT_MAX <? Z.of_N (rows g))%Z eqn:Er; [discriminate |].
    apply Z.ltb_ge in Er. exact Er. }
  destruct (N.eq_dec (rows g) 0%N) as [H0 | H0].
  - unfold clearAllBodies, for_int at 1, for_range at 1 in H.
    rewrite H0 in H. simpl in H. inversion H. subst g'. simpl.
    destruct Hwf as (Hr' & Hc' & Hlen & Hmax & Hnum).
    split.
    + rewrite H0 in Hlen. simpl in Hlen.
      destruct (data (cells g)); [constructor | discriminate].
    + split; [reflexivity |]. unfold wf_grid. simpl.
      repeat split; assumption.
  - assert (Hc : (Z.of_N (columns g) <= INT_MAX)%Z).
    { unfold clearAllBodies, for_int at 1, for_range at 1 in H.
      destruct (INT_MAX <? Z.of_N (rows g))%Z; [discriminate |].
      destruct (N.to_nat (rows g - 0)) eqn:En; [lia |].
      simpl in H. unfold for_int in H.
      destruct (INT_MAX <? Z.of_N (columns g))%Z eqn:Ec; [discriminate |].
      apply Z.ltb_ge in Ec. exact Ec. }
    destruct (clearAllBodies_total g Hwf Hr Hc) as (g1 & E & Hg1).
    rewrite E in H. inversion H. subst g1. exact Hg1.
Qed.

(** ** The counter and the cells *)

Lemma fmap_Ok {A B : Type} (f : A -> B) (o : outcome A) r :
  f <$> o = Ok r -> exists a, o = Ok a /\ r = f a.
Proof.
  unfold_outcome. destruct o as [a| |]; intros H; inversion H.
  exists a. split; reflexivity.
Qed.

Lemma Grid_new_consistent b bound rows columns g :
  Grid_new b bound rows columns = Ok g -> count_consistent g.
Proof.
  unfold Grid_new. destruct (_ && _); intros H; inversion H.
  unfold count_consistent, getBodyCount, sum_cell_sizes. simpl.
  symmetry. apply sizes_all_empty. apply Forall_replicate. reflexivity.
Qed.

Lemma addBody_consistent b PositionGetter g body cell g' :
  wf_grid g -> count_consistent g ->
  addBody b PositionGetter g body = Ok (cell, g') ->
  (sum_cell_sizes g' < size_max)%N ->
  count_consistent g' /\ wf_grid g'.
Proof.
  intros (Hr & Hc & Hlen & Hmax & Hnum) Hg H Hfit. unfold addBody in H.
  bind_inv H. bind_inv H. inversion H. subst cell g'. clear H.
  pose proof (sum_cell_sizes_assign g a a0 (a0 ++ [body]) E0) as Hs.
  rewrite length_app in Hs. simpl in Hs.
  unfold count_consistent, getBodyCount in *.
  change (sum_cell_sizes (with_num_bodies ?g1 ?n)) with (sum_cell_sizes g1) in *.
  simpl. split.
  - rewrite wrap_small by lia. lia.
  - unfold wf_grid. simpl. rewrite length_insert.
    repeat split; try assumption. apply wrap_lt.
Qed.

Lemma removeBody_consistent g body body_cell removed g' :
  wf_grid g -> count_consistent g ->
  removeBody g body body_cell = Ok (removed, g') ->
  count_consistent g' /\ wf_grid g'.
Proof.
  intros (Hr & Hc & Hlen & Hmax & Hnum) Hg H. unfold removeBody in H.
  bind_inv H. unfold remove_if in H. inversion H. subst removed g'. clear H.
  pose proof (sum_cell_sizes_assign g body_cell a
                (List.filter (fun ptr => negb (get ptr =? body)%N) a) E) as Hs.
  pose proof (filter_length (fun ptr => (get ptr =? body)%N) a) as Hf.
  pose proof (sizes_ge _ _ _ (proj1 (deref_Ok _ _ _) E)) as Hge.
  fold (sum_cell_sizes g) in Hge.
  unfold count_consistent, getBodyCount in *.
  change (sum_cell_sizes (with_num_bodies ?g1 ?n)) with (sum_cell_sizes g1) in *.
  simpl. split.
  - rewrite wrap_sub_exact by lia. lia.
  - unfold wf_grid. simpl. rewrite length_insert.
    repeat split; try assumption. apply wrap_lt.
Qed.

Lemma updateBodyCell_consistent b PositionGetter g body previous_cell cell g' :
  wf_grid g -> count_consistent g ->
  updateBodyCell b PositionGetter g body previous_cell = Ok (cell, g') ->
  count_consistent g' /\ wf_grid g'.
Proof.
  intros Hwf Hg H. unfold updateBodyCell in H.
  bind_inv H. destruct a as [row col]. bind_inv H.
  destruct (a =? previous_cell)%N.
  { inversion H. subst. split; assumption. }
  bind_inv H.
  destruct (find_if _ a0) as [k|]; [| destruct (validated b); discriminate].
  destruct (a0 !! k) as [ptr|] eqn:Ek; [| discriminate].
  bind_inv H. inversion H. subst cell g'. clear H.
  destruct Hwf as (Hr & Hc & Hlen & Hmax & Hnum).
  apply deref_Ok in E1, E2. simpl in E2.
  pose proof (sizes_insert _ _ _ (delete k a0) E1) as H1.
  pose proof (sizes_insert _ _ _ (a1 ++ [ptr]) E2) as H2.
  pose proof (length_delete a0 k (ex_intro _ ptr Ek)) as Hd.
  pose proof (lookup_lt_Some _ _ _ Ek) as Hk.
  rewrite length_app in H2. simpl in H2.
  unfold count_consistent, getBodyCount, sum_cell_sizes, wf_grid in *. simpl.
  rewrite !length_insert. split; [lia | repeat split; assumption].
Qed.

(** C4.  The counter [getBodyCount] returns equals the sum of the sizes of
    all cells: it does on a Grid as constructed, and [addBody], [removeBody],
    [updateBodyCell] and [clearAllBodies] each leave it so, the handles of
    the resulting Grid being countable by a [std::size_t]. *)
Theorem count_consistent_invariant :
  (forall b bound rows columns g,
      Grid_new b bound rows columns = Ok g -> count_consistent g)
  /\ (forall b PositionGetter g m g',
        wf_grid g -> count_consistent g ->
        mutate b PositionGetter g m = Ok g' ->
        (sum_cell_sizes g' < size_max)%N ->
        count_consistent g' /\ wf_grid g').
Proof.
  split; [exact Grid_new_consistent |].
  intros b PositionGetter g m g' Hwf Hg H Hfit.
  destruct m as [body | body body_cell | body previous_cell |]; simpl in H.
  - apply fmap_Ok in H as ([cell g1] & H & ->).
    eapply addBody_consistent; eauto.
  - apply fmap_Ok in H as ([removed g1] & H & ->).
    eapply removeBody_consistent; eauto.
  - apply fmap_Ok in H as ([cell g1] & H & ->).
    eapply updateBodyCell_consistent; eauto.
  - destruct (clearAllBodies_Ok g g' Hwf H) as (Hall & Hn & Hwf').
    split; [| exact Hwf'].
    unfold count_consistent, getBodyCount, sum_cell_sizes.
    rewrite Hn. symmetry. apply sizes_all_empty, Hall.
Qed.

Lemma grid_2x2_wf : wf_grid grid_2x2.
Proof. repeat split. Qed.

Lemma count_consistent_invariant_witness :
  count_consistent grid_10x5
  /\ exists g',
       mutate Validated corners grid_2x2 (AddBody 1%N) = Ok g'
       /\ count_consistent g' /\ wf_grid g'.
Proof.
  split.
  - apply (proj1 count_consistent_invariant Validated
             bound_100 10%N 5%N grid_10x5).
    reflexivity.
  - eexists. split; [vm_compute; reflexivity |].
    apply (proj2 count_consistent_invariant Validated corners grid_2x2
             (AddBody 1%N)).
    + exact grid_2x2_wf.
    + reflexivity.
    + reflexivity.
    + vm_compute. reflexivity.
Defined.

(** ** The symmetric hash and equality of pairs *)

Lemma symmetric_pair_equal_swap (A B : body_ptr_t) :
  symmetric_pair_equal (A, B) (B, A) = true.
Proof.
  unfold symmetric_pair_equal. simpl. rewrite !N.eqb_refl.
  apply orb_true_r.
Qed.

Lemma symmetric_pair_equal_spec (p q : pair_t) :
  symmetric_pair_equal p q = true
  <-> (fst p = fst q /\ snd p = snd q) \/ (fst p = snd q /\ snd p = fst q).
Proof.
  unfold symmetric_pair_equal.
  rewrite orb_true_iff, !andb_true_iff, !N.eqb_eq. reflexivity.
Qed.

Lemma symmetric_pair_equal_sym (p q : pair_t) :
  symmetric_pair_equal p q = symmetric_pair_equal q p.
Proof.
  apply eq_true_iff_eq. rewrite !symmetric_pair_equal_spec.
  intuition congruence.
Qed.

Lemma distinct_pairs_app (l1 l2 : list pair_t) :
  distinct_pairs (l1 ++ l2)
  <-> distinct_pairs l1 /\ distinct_pairs l2
      /\ forall p q, In p l1 -> In q l2 -> symmetric_pair_equal p q = false.
Proof.
  induction l1 as [|a l1 IH]; simpl.
  - intuition.
  - rewrite IH. split.
    + intros (Ha & H1 & H2 & H12). repeat split; auto.
      * intros q Hq. apply Ha, in_or_app. auto.
      * intros p q [<- | Hp] Hq; [apply Ha, in_or_app; auto | auto].
    + intros ((Ha & H1) & H2 & H12). repeat split; auto.
      intros q Hq. apply in_app_or in Hq as [Hq | Hq]; auto.
Qed.

Lemma distinct_pairs_no_duplicates (l : list pair_t) :
  distinct_pairs l -> no_symmetric_duplicates l.
Proof.
  induction l as [|a l IH]; intros Hl i j p q Hi Hj Hne.
  - destruct i; discriminate.
  - destruct Hl as [Ha Hl]. destruct i as [|i], j as [|j]; simpl in *.
    + congruence.
    + inversion Hi. subst. apply Ha.
      apply list_elem_of_In, list_elem_of_lookup. eauto.
    + inversion Hj. subst. rewrite symmetric_pair_equal_sym. apply Ha.
      apply list_elem_of_In, list_elem_of_lookup. eauto.
    + eapply IH; eauto.
Qed.

Lemma existsb_false {A : Type} (f : A -> bool) (l : list A) :
  existsb f l = false -> forall a, In a l -> f a = false.
Proof.
  intros H a Ha. destruct (f a) eqn:E; [| reflexivity].
  assert (existsb f l = true) by (apply existsb_exists; eauto). congruence.
Qed.

Section PairSet.
Variable ptr_hash : body_ptr_t -> N.

Lemma symmetric_pair_hash_swap (A B : body_ptr_t) :
  symmetric_pair_hash ptr_hash (A, B) = symmetric_pair_hash ptr_hash (B, A).
Proof. unfold symmetric_pair_hash. simpl. apply N.lxor_comm. Qed.

(** What [std::unordered_set] requires of its hash: equal keys have equal
    hash codes. *)
Lemma symmetric_pair_equal_hash (p q : pair_t) :
  symmetric_pair_equal p q = true ->
  symmetric_pair_hash ptr_hash p = symmetric_pair_hash ptr_hash q.
Proof.
  rewrite symmetric_pair_equal_spec. unfold symmetric_pair_hash.
  intros [[-> ->] | [-> ->]]; [reflexivity | apply N.lxor_comm].
Qed.

Lemma set_ok_empty : set_ok ptr_hash ∅.
Proof. intros k bucket H. rewrite lookup_empty in H. discriminate. Qed.

Lemma emplace_ok (s : pair_set) (pair : pair_t) :
  set_ok ptr_hash s -> set_ok ptr_hash (emplace ptr_hash s pair).
Proof.
  intros Hs. unfold emplace.
  destruct (existsb _ _) eqn:Ex; [exact Hs |].
  intros k bucket Hk. apply lookup_insert_Some in Hk as [[<- <-] | [Hne Hk]].
  - assert (Hb : Forall (fun p => symmetric_pair_hash ptr_hash p
                                  = symmetric_pair_hash ptr_hash pair)
                        (default [] (s !! symmetric_pair_hash ptr_hash pair))
                 /\ distinct_pairs
                      (default [] (s !! symmetric_pair_hash ptr_hash pair))).
    { destruct (s !! symmetric_pair_hash ptr_hash pair) as [b0|] eqn:E.
      - simpl. apply Hs, E.
      - simpl. split; constructor. }
    destruct Hb as [Hh Hd]. split.
    + apply Forall_app. split; [exact Hh | repeat constructor].
    + apply distinct_pairs_app. split; [exact Hd |]. split; [simpl; tauto |].
      intros p q Hp [<- | []]. rewrite symmetric_pair_equal_sym.
      eapply existsb_false; eauto.
  - apply Hs, Hk.
Qed.

Lemma check_pairs_ok is_nearby (check_bodies : list body_ptr_t) :
  forall s, set_ok ptr_hash s ->
            set_ok ptr_hash (check_pairs ptr_hash is_nearby check_bodies s).
Proof.
  induction check_bodies as [|bi later IH]; intros s Hs; simpl.
  - exact Hs.
  - apply IH. clear IH. revert s Hs.
    induction later as [|bj later IH]; intros s Hs; simpl.
    + exact Hs.
    + apply IH. destruct (is_nearby _ _); [apply emplace_ok, Hs | exact Hs].
Qed.

Lemma queryDistancePair_ok b PositionGetter g distance result :
  queryDistancePair b PositionGetter ptr_hash g distance = Ok result ->
  set_ok ptr_hash result.
Proof.
  unfold queryDistancePair. intros H. bind_inv H. unfold for_range in H.
  eapply for_loop_invariant; [| apply set_ok_empty | exact H].
  intros row s s' Hs Hrow.
  eapply for_loop_invariant; [| exact Hs | exact Hrow].
  clear. intros col s s' Hs Hcol. unfold sweep_position in Hcol.
  repeat bind_inv Hcol.
  destruct (_ =? _)%N; [inversion Hcol; subst; exact Hs |].
  destruct (_ <? _)%Z; [discriminate |].
  inversion Hcol. apply check_pairs_ok, Hs.
Qed.

Lemma set_ok_elements (s : pair_set) :
  set_ok ptr_hash s -> distinct_pairs (elements_of s).
Proof.
  intros Hs. unfold elements_of.
  assert (Hin : forall k bucket, (k, bucket) ∈ map_to_list s ->
                  Forall (fun p => symmetric_pair_hash ptr_hash p = k) bucket
                  /\ distinct_pairs bucket).
  { intros k bucket H. apply Hs. apply elem_of_map_to_list, H. }
  pose proof (NoDup_fst_map_to_list s) as Hnd.
  induction (map_to_list s) as [|[k bucket] L IH]; simpl in *.
  - exact I.
  - apply NoDup_cons in Hnd as [Hk Hnd].
    destruct (Hin k bucket) as [Hh Hd]; [left |].
    apply distinct_pairs_app. split; [exact Hd |]. split.
    + apply IH; [| exact Hnd]. intros k' b' H'. apply Hin. right. exact H'.
    + intros p q Hp Hq.
      destruct (symmetric_pair_equal p q) eqn:E; [exfalso | reflexivity].
      apply symmetric_pair_equal_hash in E.
      apply in_concat in Hq as (b' & Hb' & Hq).
      apply in_map_iff in Hb' as ([k' b''] & <- & Hkb).
      apply list_elem_of_In in Hkb.
      destruct (Hin k' b'') as [Hh' _]; [right; exact Hkb |].
      rewrite Forall_forall in Hh, Hh'.
      apply list_elem_of_In in Hp, Hq.
      specialize (Hh _ Hp). specialize (Hh' _ Hq). simpl in *.
      apply Hk. apply list_elem_of_fmap. exists (k', b'').
      split; [simpl; congruence | exact Hkb].
Qed.

(** C5.  The pair hash and the pair equality do not see the order of a
    pair: [(A, B)] and [(B, A)] have the same hash code and compare equal.
    So the set [queryDistancePair] returns never holds two pairs with the
    same two elements, in either order. *)
Theorem symmetric_pairs_unique :
  (forall A B : body_ptr_t,
      symmetric_pair_hash ptr_hash (A, B)
      = symmetric_pair_hash ptr_hash (B, A))
  /\ (forall A B : body_ptr_t, symmetric_pair_equal (A, B) (B, A) = true)
  /\ (forall b PositionGetter g distance result,
        queryDistancePair b PositionGetter ptr_hash g distance = Ok result ->
        no_symmetric_duplicates (elements_of result)).
Proof.
  split; [exact symmetric_pair_hash_swap |].
  split; [exact symmetric_pair_equal_swap |].
  intros b PositionGetter g distance result H.
  apply distinct_pairs_no_duplicates, set_ok_elements.
  eapply queryDistancePair_ok, H.
Qed.
End PairSet.

Lemma symmetric_pairs_unique_witness :
  exists result,
    queryDistancePair Validated corners pointer_value grid_2x2 (f32 0.3)
    = Ok result
    /\ length (elements_of result) = 6%nat
    /\ no_symmetric_duplicates (elements_of result).
Proof.
  eexists. split; [vm_compute; reflexivity |]. split; [reflexivity |].
  apply (proj2 (proj2 (symmetric_pairs_unique pointer_value))
           Validated corners grid_2x2 (f32 0.3)).
  vm_compute. reflexivity.
Defined.

(** ** Truncation and cell indices *)

Lemma quot_nonpos n d : (n < 0)%Z -> (0 < d)%Z -> (n ÷ d <= 0)%Z.
Proof.
  intros Hn Hd. replace n with (- - n)%Z by lia.
  rewrite Z.quot_opp_l by lia.
  pose proof (Z.quot_pos (- n) d). lia.
Qed.

Lemma Qtrunc_upper q : (0 <= Qtrunc q)%Z -> (q < inject_Z (Qtrunc q) + 1)%Q.
Proof.
  destruct q as [n d]. unfold Qtrunc, Qlt, inject_Z. simpl. intros H.
  pose proof (Z.quot_rem' n (Z.pos d)) as E.
  destruct (Z_lt_le_dec n 0) as [Hn | Hn].
  - pose proof (quot_nonpos n (Z.pos d) Hn). nia.
  - pose proof (Z.rem_bound_pos n (Z.pos d) Hn ltac:(lia)). nia.
Qed.

Lemma Qtrunc_lower q : (1 <= Qtrunc q)%Z -> (inject_Z (Qtrunc q) <= q)%Q.
Proof.
  destruct q as [n d]. unfold Qtrunc, Qle, inject_Z. simpl. intros H.
  pose proof (Z.quot_rem' n (Z.pos d)) as E.
  destruct (Z_lt_le_dec n 0) as [Hn | Hn].
  - pose proof (quot_nonpos n (Z.pos d) Hn). nia.
  - pose proof (Z.rem_bound_pos n (Z.pos d) Hn ltac:(lia)). nia.
Qed.

Lemma to_size_Ok (a : float) (n : N) :
  to_size a = Ok n -> is_finite a = true /\ Qtrunc (value a) = Z.of_N n.
Proof.
  destruct a as [q|s|s|]; simpl; try discriminate.
  - destruct (_ && _) eqn:E; intros H; inversion H.
    apply andb_true_iff in E as [E _]. apply Z.leb_le in E.
    split; [reflexivity | lia].
  - intros H. inversion H. split; reflexivity.
Qed.

(** What a cell index returned by [getCellIndex] is. *)
Lemma getCellIndex_Ok b PositionGetter g body row col :
  getCellIndex b PositionGetter g body = Ok (row, col) ->
  exists cell_size,
    cellSize b g = Ok cell_size
    /\ to_size (fdiv (fsub (y (PositionGetter body)) (y (position (bound g))))
                     (y cell_size)) = Ok row
    /\ to_size (fdiv (fsub (x (PositionGetter body)) (x (position (bound g))))
                     (x cell_size)) = Ok col
    /\ (validated b = true -> (row < rows g)%N /\ (col < columns g)%N).
Proof.
  unfold getCellIndex. intros H. bind_inv H. exists a. split; [exact E |].
  bind_inv H. bind_inv H. simpl in E0, E1.
  destruct (validated b); simpl in H.
  - destruct (rows g <=? a0)%N eqn:Er; [discriminate |].
    destruct (columns g <=? a1)%N eqn:Ec; [discriminate |].
    inversion H. subst. apply N.leb_gt in Er, Ec. auto.
  - inversion H. subst. split; [exact E0 |]. split; [exact E1 |]. discriminate.
Qed.

(** ** Cells of a well-formed Grid *)

Lemma cell_lookup g row col :
  wf_grid g -> (row < rows g)%N -> (col < columns g)%N ->
  exists cell,
    Matrix_ref (cells g) row col = Ok (row * columns g + col)%N
    /\ data (cells g) !! N.to_nat (row * columns g + col) = Some cell.
Proof.
  intros (Hr & Hc & Hlen & Hmax & Hnum) Hrow Hcol.
  destruct (offset_in_range (cells g) (rows g) (columns g) row col Hc Hmax
              Hrow Hcol) as [Hoff Hlt].
  assert (Hi : (N.to_nat (row * columns g + col) < length (data (cells g)))%nat)
    by lia.
  apply lookup_lt_is_Some in Hi as [cell Hcell]. exists cell.
  split; [| exact Hcell].
  unfold Matrix_ref. rewrite Hoff.
  destruct (_ <? _)%N eqn:E; [reflexivity |].
  apply N.ltb_ge in E. apply lookup_lt_Some in Hcell. lia.
Qed.

Lemma offset_injective C r1 c1 r2 c2 :
  (c1 < C)%N -> (c2 < C)%N ->
  (r1 * C + c1 = r2 * C + c2)%N -> r1 = r2 /\ c1 = c2.
Proof. intros H1 H2 H. assert (r1 = r2) by nia. subst. split; lia. Qed.

Lemma resident_spec b PositionGetter g i cell ptr :
  wf_grid g ->
  resident b PositionGetter g = true ->
  data (cells g) !! i = Some cell -> In ptr cell ->
  exists row col,
    getCellIndex b PositionGetter g (get ptr) = Ok (row, col)
    /\ (row < rows g)%N /\ (col < columns g)%N
    /\ (row * columns g + col)%N = N.of_nat i.
Proof.
  intros Hwf Hres Hcell Hptr. unfold resident in Hres.
  rewrite forallb_forall in Hres.
  specialize (Hres (i, cell)). simpl in Hres.
  assert (Hin : In (i, cell) (imap pair (data (cells g)))).
  { apply list_elem_of_In, list_elem_of_lookup. exists i.
    rewrite list_lookup_imap, Hcell. reflexivity. }
  specialize (Hres Hin). rewrite forallb_forall in Hres.
  specialize (Hres ptr Hptr). unfold resident_in in Hres.
  destruct (getCellIndex b PositionGetter g (get ptr)) as [[row col]| |];
    try discriminate.
  apply andb_true_iff in Hres as [Hres Hoff].
  apply andb_true_iff in Hres as [Hrow Hcol].
  apply N.ltb_lt in Hrow, Hcol. apply N.eqb_eq in Hoff.
  exists row, col. split; [reflexivity |]. split; [exact Hrow |].
  split; [exact Hcol |].
  destruct Hwf as (Hr & Hc & Hlen & Hmax & Hnum).
  destruct (offset_in_range (cells g) (rows g) (columns g) row col Hc Hmax
              Hrow Hcol) as [Hoff' _].
  congruence.
Qed.

(** ** The adjacent cells of queryDistance *)

Lemma size_to_int_small n : (Z.of_N n <= INT_MAX)%Z -> size_to_int n = Z.of_N n.
Proof.
  intros H. unfold size_to_int, INT_MAX in *.
  rewrite Z.mod_small by lia.
  destruct (_ <=? _)%Z eqn:E; [reflexivity | apply Z.leb_gt in E; lia].
Qed.

Lemma int_add_Ok a b :
  (INT_MIN <= a + b <= INT_MAX)%Z -> int_add a b = Ok (a + b)%Z.
Proof.
  intros H. unfold int_add.
  destruct (_ && _) eqn:E; [reflexivity |].
  apply andb_false_iff in E as [E | E]; apply Z.leb_gt in E; lia.
Qed.

Lemma translate_cell_Ok row col dx dy :
  (Z.of_N row < INT_MAX)%Z -> (Z.of_N col < INT_MAX)%Z ->
  (-1 <= dx <= 1)%Z -> (-1 <= dy <= 1)%Z ->
  translate_cell (row, col) (dx, dy)
  = Ok (Z.of_N row + dy, Z.of_N col + dx)%Z.
Proof.
  intros Hr Hc Hdx Hdy. unfold translate_cell.
  rewrite !size_to_int_small by lia.
  rewrite !int_add_Ok by (unfold INT_MAX, INT_MIN in *; lia).
  reflexivity.
Qed.

Lemma is_cell_within_bound_spec g r c :
  is_cell_within_bound g (r, c) = true
  <-> (0 <= r < Z.of_N (rows g) /\ 0 <= c < Z.of_N (columns g))%Z.
Proof.
  unfold is_cell_within_bound.
  rewrite !andb_true_iff, !Z.leb_le, !Z.ltb_lt. tauto.
Qed.

Lemma insert_adjacent_Ok g row col is_nearby acc xy :
  wf_grid g ->
  (Z.of_N (rows g) <= INT_MAX)%Z -> (Z.of_N (columns g) <= INT_MAX)%Z ->
  (row < rows g)%N -> (col < columns g)%N ->
  (-1 <= fst xy <= 1)%Z -> (-1 <= snd xy <= 1)%Z ->
  insert_adjacent g (row, col) is_nearby (Ok acc) xy
  = Ok (acc ++ neighbours g row col is_nearby xy).
Proof.
  intros Hwf Hri Hci Hrow Hcol Hdx Hdy. destruct xy as [dx dy]. simpl in *.
  unfold insert_adjacent, neighbours, translate_cell. unfold_outcome.
  rewrite !size_to_int_small by lia.
  rewrite !int_add_Ok by (unfold INT_MAX, INT_MIN in *; lia). cbn [fst snd].
  destruct (is_cell_within_bound g (Z.of_N row + dy, Z.of_N col + dx)%Z) eqn:E;
    [| rewrite app_nil_r; reflexivity].
  apply is_cell_within_bound_spec in E as [Hr Hc].
  destruct (cell_lookup g (Z.to_N (Z.of_N row + dy)) (Z.to_N (Z.of_N col + dx))
              Hwf) as (cell & Href & Hcell); [lia | lia |].
  rewrite Href. unfold deref. rewrite Hcell. reflexivity.
Qed.

Lemma foldl_insert_adjacent g row col is_nearby offsets :
  wf_grid g ->
  (Z.of_N (rows g) <= INT_MAX)%Z -> (Z.of_N (columns g) <= INT_MAX)%Z ->
  (row < rows g)%N -> (col < columns g)%N ->
  Forall (fun xy => (-1 <= fst xy <= 1)%Z /\ (-1 <= snd xy <= 1)%Z) offsets ->
  forall acc,
    foldl (insert_adjacent g (row, col) is_nearby) (Ok acc) offsets
    = Ok (acc ++ flat_map (neighbours g row col is_nearby) offsets).
Proof.
  intros Hwf Hri Hci Hrow Hcol Hoffs.
  induction Hoffs as [|xy offsets [Hdx Hdy] _ IH]; intros acc;
    cbn [foldl flat_map].
  - rewrite app_nil_r. reflexivity.
  - rewrite insert_adjacent_Ok by assumption. rewrite IH.
    rewrite app_assoc. reflexivity.
Qed.

Lemma adjacent_offsets_unit :
  Forall (fun xy => (-1 <= fst xy <= 1)%Z /\ (-1 <= snd xy <= 1)%Z)
         adjacent_offsets.
Proof. repeat constructor; simpl; lia. Qed.

(** The eight offsets are all the non-zero ones with components in -1..1. *)
Lemma adjacent_offsets_complete dx dy :
  (-1 <= dx <= 1)%Z -> (-1 <= dy <= 1)%Z -> (dx, dy) <> (0, 0)%Z ->
  In (dx, dy) adjacent_offsets.
Proof.
  intros Hdx Hdy Hne.
  assert (Hx : dx = (-1)%Z \/ dx = 0%Z \/ dx = 1%Z) by lia.
  assert (Hy : dy = (-1)%Z \/ dy = 0%Z \/ dy = 1%Z) by lia.
  destruct Hx as [-> | [-> | ->]], Hy as [-> | [-> | ->]];
    simpl; try tauto; congruence.
Qed.

Lemma adjacent_offsets_nonzero xy :
  In xy adjacent_offsets -> xy <> (0, 0)%Z.
Proof. simpl. intros H. intuition (subst; discriminate). Qed.

(** ** queryDistance *)

Lemma cell_at_Some g row col :
  wf_grid g -> (row < rows g)%N -> (col < columns g)%N ->
  Matrix_ref (cells g) row col = Ok (row * columns g + col)%N
  /\ data (cells g) !! N.to_nat (row * columns g + col)
     = Some (cell_at g row col).
Proof.
  intros Hwf Hrow Hcol.
  destruct (cell_lookup g row col Hwf Hrow Hcol) as (cell & Href & Hcell).
  unfold cell_at. rewrite Hcell. split; [exact Href | reflexivity].
Qed.

Lemma queryDistance_Ok b PositionGetter g body row col d :
  wf_grid g ->
  (Z.of_N (rows g) <= INT_MAX)%Z -> (Z.of_N (columns g) <= INT_MAX)%Z ->
  (row < rows g)%N -> (col < columns g)%N ->
  check_distance b g d = Ok tt ->
  queryDistance b PositionGetter g body (row, col) d
  = Ok (query_result PositionGetter g body row col d).
Proof.
  intros Hwf Hri Hci Hrow Hcol Hcheck.
  destruct (cell_at_Some g row col Hwf Hrow Hcol) as (Href & Hsame).
  unfold queryDistance, query_result. rewrite Hcheck.
  cbn [fst snd]. unfold_outcome. rewrite Href.
  unfold deref. rewrite Hsame.
  apply foldl_insert_adjacent; auto using adjacent_offsets_unit.
Qed.

Lemma In_query_result b PositionGetter g body row col d ptr :
  wf_grid g ->
  resident b PositionGetter g = true ->
  getCellIndex b PositionGetter g body = Ok (row, col) ->
  (row < rows g)%N -> (col < columns g)%N ->
  In ptr (query_result PositionGetter g body row col d) <->
  around g row col ptr /\ get ptr <> body
  /\ fle (distance2 (PositionGetter (get ptr)) (PositionGetter body))
         (pow2 d) = true.
Proof.
  intros Hwf Hres Hidx Hrow Hcol. unfold query_result.
  set (is_nearby := fun other : Body =>
         fle (distance2 (PositionGetter other) (PositionGetter body)) (pow2 d)).
  rewrite in_app_iff, filter_In, in_flat_map.
  change (fle (distance2 (PositionGetter (get ptr)) (PositionGetter body))
              (pow2 d)) with (is_nearby (get ptr)).
  split.
  - intros [[Hin Hf] | (xy & Hxy & Hn)].
    + apply andb_true_iff in Hf as [Hne Hf].
      apply negb_true_iff, N.eqb_neq in Hne.
      split; [| split; assumption].
      exists row, col. repeat split; try assumption; lia.
    + unfold neighbours in Hn.
      destruct (is_cell_within_bound g _) eqn:Eb; [| contradiction].
      apply is_cell_within_bound_spec in Eb as [Hr Hc].
      apply filter_In in Hn as [Hin Hf].
      pose proof (adjacent_offsets_unit) as Hunit.
      rewrite Forall_forall in Hunit.
      destruct (Hunit xy (proj2 (list_elem_of_In _ _) Hxy)) as [Hdx Hdy].
      set (r := Z.to_N (Z.of_N row + snd xy)) in *.
      set (c := Z.to_N (Z.of_N col + fst xy)) in *.
      destruct (cell_at_Some g r c Hwf) as (_ & Hcell);
        [unfold r; lia | unfold c; lia |].
      rewrite Hcell in Hin. simpl in Hin.
      split; [| split; [| exact Hf]].
      * exists r, c. unfold r, c. repeat split; try lia. exact Hin.
      * intros Heq.
        destruct (resident_spec b PositionGetter g _ _ ptr Hwf Hres
                    Hcell Hin) as (r' & c' & Hidx' & Hr' & Hc' & Hoff).
        rewrite Heq, Hidx in Hidx'. inversion Hidx'. subst r' c'.
        rewrite N2Nat.id in Hoff.
        apply offset_injective in Hoff as [Hr0 Hc0];
          [| assumption | unfold c; lia].
        apply (adjacent_offsets_nonzero xy Hxy).
        destruct xy as [dx dy]. unfold r, c in *. simpl in *. f_equal; lia.
  - intros ((r' & c' & Hr' & Hc' & Hrr & Hcc & Hin) & Hne & Hf).
    destruct (decide ((r', c') = (row, col))) as [Heq | Hdiff].
    + left. inversion Heq. subst r' c'.
      split; [exact Hin |]. apply andb_true_iff. split; [| exact Hf].
      apply negb_true_iff, N.eqb_neq. exact Hne.
    + right. exists (Z.of_N c' - Z.of_N col, Z.of_N r' - Z.of_N row)%Z.
      split.
      * apply adjacent_offsets_complete; [lia | lia |].
        intros Hz. inversion Hz. apply Hdiff. f_equal; lia.
      * unfold neighbours. cbn [fst snd].
        replace (Z.of_N row + (Z.of_N r' - Z.of_N row))%Z
          with (Z.of_N r') by lia.
        replace (Z.of_N col + (Z.of_N c' - Z.of_N col))%Z
          with (Z.of_N c') by lia.
        rewrite !N2Z.id. fold (cell_at g r' c').
        destruct (is_cell_within_bound g _) eqn:Eb.
        -- apply filter_In. split; [exact Hin | exact Hf].
        -- exfalso. apply not_true_iff_false in Eb. apply Eb.
           apply is_cell_within_bound_spec. lia.
Qed.



Lemma grid_tenth_reached :
  (g ← Grid_new Validated bound_2 2 2;
   '(_, g) ← addBody Validated a_tenth_apart g 1%N;
   '(_, g) ← addBody Validated a_tenth_apart g 2%N;
   Ok g) = Ok grid_tenth.
Proof. vm_compute. reflexivity. Qed.

Lemma grid_over_one_reached :
  (g ← Grid_new Validated bound_2 2 2;
   '(_, g) ← addBody Validated just_over_one g 1%N;
   '(_, g) ← addBody Validated just_over_one g 2%N;
   Ok g) = Ok grid_over_one.
Proof. vm_compute. reflexivity. Qed.



(** ** What the sweep has found *)

Lemma elements_of_In (s : pair_set) e :
  In e (elements_of s) <-> exists k bucket, s !! k = Some bucket /\ In e bucket.
Proof.
  unfold elements_of. rewrite in_concat. split.
  - intros (bucket & Hb & He). apply in_map_iff in Hb as ([k b'] & <- & Hkb).
    exists k, b'. split; [| exact He].
    apply elem_of_map_to_list, list_elem_of_In, Hkb.
  - intros (k & bucket & Hk & He). exists bucket. split; [| exact He].
    apply in_map_iff. exists (k, bucket). split; [reflexivity |].
    apply list_elem_of_In, elem_of_map_to_list, Hk.
Qed.

Lemma symmetric_pair_equal_refl (p : pair_t) : symmetric_pair_equal p p = true.
Proof. apply symmetric_pair_equal_spec. left. split; reflexivity. Qed.

Lemma holds_pair_swap (s : pair_set) p q :
  holds_pair s (p, q) -> holds_pair s (q, p).
Proof.
  intros (e & He & Heq). exists e. split; [exact He |].
  apply symmetric_pair_equal_spec in Heq. apply symmetric_pair_equal_spec.
  simpl in *. tauto.
Qed.

Section Found.
Variable ptr_hash : body_ptr_t -> N.

Lemma emplace_keeps (s : pair_set) (pair pair' : pair_t) :
  holds_pair s pair' -> holds_pair (emplace ptr_hash s pair) pair'.
Proof.
  intros (e & He & Heq). exists e. split; [| exact Heq].
  apply elements_of_In in He as (k & bucket & Hk & He).
  apply elements_of_In. unfold emplace.
  destruct (existsb _ _); [eauto |].
  destruct (decide (symmetric_pair_hash ptr_hash pair = k)) as [-> | Hne].
  - eexists _, _. rewrite lookup_insert_eq. split; [reflexivity |].
    rewrite Hk. simpl. apply in_or_app. left. exact He.
  - exists k, bucket. rewrite lookup_insert_ne by exact Hne. auto.
Qed.

Lemma emplace_holds (s : pair_set) (pair : pair_t) :
  holds_pair (emplace ptr_hash s pair) pair.
Proof.
  unfold emplace.
  destruct (existsb _ _) eqn:Ex.
  - apply existsb_exists in Ex as (e & He & Heq).
    exists e. split; [| rewrite symmetric_pair_equal_sym; exact Heq].
    apply elements_of_In.
    destruct (s !! symmetric_pair_hash ptr_hash pair) as [bucket|] eqn:E;
      [| contradiction].
    eauto.
  - exists pair. split; [| apply symmetric_pair_equal_refl].
    apply elements_of_In. eexists _, _. rewrite lookup_insert_eq.
    split; [reflexivity |]. apply in_or_app. right. left. reflexivity.
Qed.

Section CheckPairs.
Variable is_nearby : Body -> Body -> bool.

Lemma check_later_keeps bi later : forall s pair,
  holds_pair s pair ->
  holds_pair (foldl (fun result bj =>
                       if is_nearby (get bi) (get bj)
                       then emplace ptr_hash result (bi, bj) else result)
                    s later) pair.
Proof.
  induction later as [|bj later IH]; intros s pair Hs; simpl; [exact Hs |].
  apply IH. destruct (is_nearby _ _); [apply emplace_keeps, Hs | exact Hs].
Qed.

Lemma check_later_holds bi bj later : forall s,
  In bj later -> is_nearby (get bi) (get bj) = true ->
  holds_pair (foldl (fun result bj =>
                       if is_nearby (get bi) (get bj)
                       then emplace ptr_hash result (bi, bj) else result)
                    s later) (bi, bj).
Proof.
  induction later as [|b later IH]; intros s Hin Hnear; simpl; [contradiction |].
  destruct Hin as [-> | Hin].
  - apply check_later_keeps. rewrite Hnear. apply emplace_holds.
  - apply IH; assumption.
Qed.

Lemma check_pairs_keeps check_bodies : forall s pair,
  holds_pair s pair ->
  holds_pair (check_pairs ptr_hash is_nearby check_bodies s) pair.
Proof.
  induction check_bodies as [|bi later IH]; intros s pair Hs; simpl.
  - exact Hs.
  - apply IH, check_later_keeps, Hs.
Qed.

(** Two different handles of [check_bodies] whose bodies are nearby end up
    in the set, whichever comes first. *)
Lemma check_pairs_holds check_bodies : forall s p q,
  In p check_bodies -> In q check_bodies -> p <> q ->
  is_nearby (get p) (get q) = true -> is_nearby (get q) (get p) = true ->
  holds_pair (check_pairs ptr_hash is_nearby check_bodies s) (p, q).
Proof.
  induction check_bodies as [|bi later IH]; intros s p q Hp Hq Hne Hpq Hqp;
    simpl; [contradiction |].
  destruct Hp as [-> | Hp], Hq as [-> | Hq].
  - congruence.
  - apply check_pairs_keeps, check_later_holds; assumption.
  - apply holds_pair_swap, check_pairs_keeps, check_later_holds; assumption.
  - apply IH; assumption.
Qed.
End CheckPairs.
End Found.

(** ** The sweep *)

Lemma cell_at_lookup g row col :
  wf_grid g -> (row < rows g)%N -> (col < columns g)%N ->
  Matrix_ref (cells g) row col = Ok (row * columns g + col)%N
  /\ deref (cells g) (row * columns g + col) = Ok (cell_at g row col)
  /\ In (cell_at g row col) (data (cells g)).
Proof.
  intros Hwf Hrow Hcol.
  destruct (cell_lookup g row col Hwf Hrow Hcol) as (cell & Href & Hcell).
  unfold cell_at, deref. rewrite Hcell. simpl.
  split; [exact Href |]. split; [reflexivity |].
  apply list_elem_of_In, list_elem_of_lookup. eauto.
Qed.

Lemma sweep_position_Ok ptr_hash g is_nearby row col s :
  wf_grid g ->
  Forall (fun cell => (4 * Z.of_nat (length cell) <= INT_MAX)%Z)
         (data (cells g)) ->
  (1 <= row < rows g)%N -> (1 <= col < columns g)%N ->
  sweep_position ptr_hash g is_nearby row col s
  = Ok (check_pairs ptr_hash is_nearby
          (cell_at g row col ++ cell_at g row (col - 1)
           ++ cell_at g (row - 1) col ++ cell_at g (row - 1) (col - 1)) s).
Proof.
  intros Hwf Hsmall Hrow Hcol.
  pose proof Hwf as (_ & _ & _ & Hmax & _).
  assert (Hr1 : wrap_sub row 1 = (row - 1)%N).
  { apply wrap_sub_exact; [lia | nia]. }
  assert (Hc1 : wrap_sub col 1 = (col - 1)%N).
  { apply wrap_sub_exact; [lia | nia]. }
  unfold sweep_position. rewrite Hr1, Hc1.
  destruct (cell_at_lookup g row col Hwf) as (-> & E1 & I1); [lia | lia |].
  destruct (cell_at_lookup g row (col - 1) Hwf) as (-> & E2 & I2);
    [lia | lia |].
  destruct (cell_at_lookup g (row - 1) col Hwf) as (-> & E3 & I3);
    [lia | lia |].
  destruct (cell_at_lookup g (row - 1) (col - 1) Hwf) as (-> & E4 & I4);
    [lia | lia |].
  unfold_outcome. rewrite E1, E2, E3, E4.
  rewrite Forall_forall in Hsmall.
  pose proof (Hsmall _ (proj2 (list_elem_of_In _ _) I1)) as S1.
  pose proof (Hsmall _ (proj2 (list_elem_of_In _ _) I2)) as S2.
  pose proof (Hsmall _ (proj2 (list_elem_of_In _ _) I3)) as S3.
  pose proof (Hsmall _ (proj2 (list_elem_of_In _ _) I4)) as S4.
  generalize dependent (cell_at g row col). intros k1 _ _ S1.
  generalize dependent (cell_at g row (col - 1)). intros k2 _ _ S2.
  generalize dependent (cell_at g (row - 1) col). intros k3 _ _ S3.
  generalize dependent (cell_at g (row - 1) (col - 1)). intros k4 _ _ S4.
  unfold INT_MAX in *.
  assert (Hfit : forall n, (Z.of_N n <= 2147483647)%Z -> wrap n = n).
  { intros n Hn. apply wrap_small.
    change size_max with 18446744073709551616%N. lia. }
  rewrite (Hfit (N.of_nat (length k1) + N.of_nat (length k2))%N) by lia.
  rewrite (Hfit (N.of_nat (length k1) + N.of_nat (length k2)
                 + N.of_nat (length k3))%N) by lia.
  rewrite Hfit by lia.
  destruct (_ =? 0)%N eqn:E0.
  - apply N.eqb_eq in E0.
    destruct k1; [| simpl in E0; lia]. destruct k2; [| simpl in E0; lia].
    destruct k3; [| simpl in E0; lia]. destruct k4; [| simpl in E0; lia].
    reflexivity.
  - destruct (_ <? _)%Z eqn:El; [| reflexivity].
    apply Z.ltb_lt in El. rewrite !length_app in El. lia.
Qed.

(** A loop whose body always succeeds and keeps a property that its
    iteration [j] establishes ends with the property. *)
Lemma for_loop_reaches {S : Type} (Q : S -> Prop) body : forall n i j (s : S),
  (forall k s, (i <= k < i + N.of_nat n)%N -> exists s', body k s = Ok s') ->
  (forall k s s', body k s = Ok s' -> Q s -> Q s') ->
  (forall s s', body j s = Ok s' -> Q s') ->
  (i <= j < i + N.of_nat n)%N ->
  exists s', for_loop n i body s = Ok s' /\ Q s'.
Proof.
  induction n as [|n IH]; intros i j s Htot Hkeep Hest Hj; [lia |].
  simpl. destruct (Htot i s) as [s1 E1]; [lia |]. rewrite E1. unfold_outcome.
  destruct (N.eq_dec i j) as [-> | Hne].
  - destruct (for_loop_total (fun _ s => Q s) body n (N.succ j) s1)
      as (s' & E & Hs').
    + intros k s0 Hk Hs0. destruct (Htot k s0) as [s2 E2]; [lia |].
      exists s2. split; [exact E2 | eapply Hkeep; eauto].
    + eapply Hest, E1.
    + exists s'. split; assumption.
  - apply (IH (N.succ i) j s1); try assumption; [| lia].
    intros k s0 Hk. apply Htot. lia.
Qed.

Lemma sweep_position_keeps ptr_hash g is_nearby row col s s' pair :
  sweep_position ptr_hash g is_nearby row col s = Ok s' ->
  holds_pair s pair -> holds_pair s' pair.
Proof.
  unfold sweep_position. intros H Hs. repeat bind_inv H.
  destruct (_ =? _)%N; [inversion H; subst; exact Hs |].
  destruct (_ <? _)%Z; [discriminate |].
  inversion H. apply check_pairs_keeps, Hs.
Qed.

Lemma resident_cell_at b PositionGetter g ptr :
  wf_grid g -> resident b PositionGetter g = true -> in_grid g ptr ->
  exists row col,
    getCellIndex b PositionGetter g (get ptr) = Ok (row, col)
    /\ (row < rows g)%N /\ (col < columns g)%N
    /\ In ptr (cell_at g row col).
Proof.
  intros Hwf Hres (cell & Hcell & Hin).
  apply list_elem_of_In, list_elem_of_lookup in Hcell as [i Hcell].
  destruct (resident_spec b PositionGetter g i cell ptr Hwf Hres Hcell Hin)
    as (row & col & Hidx & Hrow & Hcol & Hoff).
  exists row, col. repeat split; try assumption.
  unfold cell_at. rewrite Hoff, Nat2N.id, Hcell. exact Hin.
Qed.

Lemma cell_at_resident b PositionGetter g ptr row col :
  wf_grid g -> resident b PositionGetter g = true ->
  (row < rows g)%N -> (col < columns g)%N ->
  In ptr (cell_at g row col) ->
  getCellIndex b PositionGetter g (get ptr) = Ok (row, col).
Proof.
  intros Hwf Hres Hrow Hcol Hin.
  destruct (cell_lookup g row col Hwf Hrow Hcol) as (cell & _ & Hcell).
  unfold cell_at in Hin. rewrite Hcell in Hin. simpl in Hin.
  destruct (resident_spec b PositionGetter g _ cell ptr Hwf Hres Hcell Hin)
    as (r & c & Hidx & Hr & Hc & Hoff).
  rewrite N2Nat.id in Hoff.
  apply offset_injective in Hoff as [-> ->]; assumption.
Qed.

(** Every two adjacent cells are among the four cells of some position of
    the sweep. *)
Lemma sweep_reaches b PositionGetter ptr_hash g d :
  wf_grid g -> (2 <= rows g)%N -> (2 <= columns g)%N ->
  Forall (fun cell => (4 * Z.of_nat (length cell) <= INT_MAX)%Z)
         (data (cells g)) ->
  check_distance b g d = Ok tt ->
  exists result,
    queryDistancePair b PositionGetter ptr_hash g d = Ok result
    /\ forall p q r1 c1 r2 c2,
         (r1 < rows g)%N -> (c1 < columns g)%N ->
         (r2 < rows g)%N -> (c2 < columns g)%N ->
         In p (cell_at g r1 c1) -> In q (cell_at g r2 c2) ->
         (Z.of_N r1 - 1 <= Z.of_N r2 <= Z.of_N r1 + 1)%Z ->
         (Z.of_N c1 - 1 <= Z.of_N c2 <= Z.of_N c1 + 1)%Z ->
         p <> q ->
         fle (distance2 (PositionGetter (get p)) (PositionGetter (get q)))
             (pow2 d) = true ->
         holds_pair result (p, q).
Proof.
  intros Hwf Hrows Hcols Hsmall Hcheck.
  unfold queryDistancePair.
  rewrite Hcheck.
  set (is_nearby := fun body1 body2 : Body =>
         fle (distance2 (PositionGetter body1) (PositionGetter body2))
             (pow2 d)).
  set (inner := fun row col result =>
         sweep_position ptr_hash g is_nearby row col result).
  set (outer := fun row result => for_range 1 (columns g) (inner row) result).
  change (Ok tt ≫= (fun _ => for_range 1 (rows g) outer ∅))
    with (for_range 1 (rows g) outer ∅).
  assert (Hinner : forall row col s,
            (1 <= row < rows g)%N -> (1 <= col < columns g)%N ->
            inner row col s
            = Ok (check_pairs ptr_hash is_nearby
                    (cell_at g row col ++ cell_at g row (col - 1)
                     ++ cell_at g (row - 1) col
                     ++ cell_at g (row - 1) (col - 1)) s)).
  { intros row col s Hr Hc. apply sweep_position_Ok; assumption. }
  assert (Htot : forall row s, (1 <= row < rows g)%N ->
            exists s', outer row s = Ok s').
  { intros row s Hr. unfold outer, for_range.
    destruct (for_loop_total (fun _ _ => True) (inner row)
                (N.to_nat (columns g - 1)) 1%N s) as (s' & E & _);
      [| exact I | eauto].
    intros col s0 Hc _. rewrite Hinner by lia. eauto. }
  destruct (for_loop_total (fun _ _ => True) outer
              (N.to_nat (rows g - 1)) 1%N ∅) as (result & Eres & _);
    [| exact I |].
  { intros row s Hr _. destruct (Htot row s) as [s' E]; [lia |]. eauto. }
  exists result. split; [exact Eres |].
  intros p q r1 c1 r2 c2 Hr1 Hc1 Hr2 Hc2 Hin1 Hin2 Hrr Hcc Hne Hpq.
  change (is_nearby (get p) (get q) = true) in Hpq.
  assert (Hqp : is_nearby (get q) (get p) = true).
  { unfold is_nearby. rewrite distance2_sym. exact Hpq. }
  set (R0 := N.max 1 (N.max r1 r2)). set (C0 := N.max 1 (N.max c1 c2)).
  assert (HR0 : (1 <= R0 < rows g)%N) by lia.
  assert (HC0 : (1 <= C0 < columns g)%N) by lia.
  assert (Hr1' : r1 = R0 \/ r1 = (R0 - 1)%N) by lia.
  assert (Hr2' : r2 = R0 \/ r2 = (R0 - 1)%N) by lia.
  assert (Hc1' : c1 = C0 \/ c1 = (C0 - 1)%N) by lia.
  assert (Hc2' : c2 = C0 \/ c2 = (C0 - 1)%N) by lia.
  assert (Hblock : forall ptr r c,
            In ptr (cell_at g r c) ->
            r = R0 \/ r = (R0 - 1)%N -> c = C0 \/ c = (C0 - 1)%N ->
            In ptr (cell_at g R0 C0 ++ cell_at g R0 (C0 - 1)
                    ++ cell_at g (R0 - 1) C0
                    ++ cell_at g (R0 - 1) (C0 - 1))).
  { intros ptr r c Hin [-> | ->] [-> | ->]; rewrite !in_app_iff; tauto. }
  assert (Hkeep : forall row s s',
            outer row s = Ok s' -> holds_pair s (p, q) -> holds_pair s' (p, q)).
  { intros row s s' E Hs. unfold outer, for_range in E.
    eapply (for_loop_invariant (fun s => holds_pair s (p, q)));
      [| exact Hs | exact E].
    intros col s0 s1 Hs0 E0. eapply sweep_position_keeps; eauto. }
  destruct (for_loop_reaches (fun s => holds_pair s (p, q)) outer
              (N.to_nat (rows g - 1)) 1%N R0 ∅) as (s' & E & Hs').
  - intros row s Hr. apply Htot. lia.
  - exact Hkeep.
  - intros s s1 E1. unfold outer, for_range in E1.
    destruct (for_loop_reaches (fun s => holds_pair s (p, q)) (inner R0)
                (N.to_nat (columns g - 1)) 1%N C0 s) as (s2 & E2 & Hs2).
    + intros col s0 Hc. rewrite Hinner by lia. eauto.
    + intros col s0 s3 E3 Hs0. eapply sweep_position_keeps; eauto.
    + intros s0 s3 E3. rewrite Hinner in E3 by assumption.
      inversion E3. apply check_pairs_holds; eauto.
    + lia.
    + rewrite E1 in E2. inversion E2. subst. exact Hs2.
  - lia.
  - unfold for_range in Eres. rewrite Eres in E. inversion E. subst.
    exact Hs'.
Qed.


(** X25.  On a Grid with at least two rows and two columns the sweep
    reaches every two adjacent cells: for a distance that passes the check,
    every two different handles that are in the same cell or in two cells
    next to each other, side by side or diagonally, and whose bodies pass
    the comparison of the code (the squared distance as [distance2] rounds
    it against the square of the distance in [double]) are a pair of the
    result, in one order or the other.  (Every block of four cells is taken
    to hold at most [INT_MAX] handles.) *)
Theorem queryDistancePair_complete b PositionGetter ptr_hash g d :
  wf_grid g -> (2 <= rows g)%N -> (2 <= columns g)%N ->
  Forall (fun cell => (4 * Z.of_nat (length cell) <= INT_MAX)%Z)
         (data (cells g)) ->
  b = Performance \/
  (exists cell_size, cellSize b g = Ok cell_size
                     /\ fle d (fmin (x cell_size) (y cell_size)) = true) ->
  exists result,
    queryDistancePair b PositionGetter ptr_hash g d = Ok result
    /\ forall p q r1 c1 r2 c2,
         (r1 < rows g)%N -> (c1 < columns g)%N ->
         (r2 < rows g)%N -> (c2 < columns g)%N ->
         In p (cell_at g r1 c1) -> In q (cell_at g r2 c2) ->
         (Z.of_N r1 - 1 <= Z.of_N r2 <= Z.of_N r1 + 1)%Z ->
         (Z.of_N c1 - 1 <= Z.of_N c2 <= Z.of_N c1 + 1)%Z ->
         p <> q ->
         fle (distance2 (PositionGetter (get p)) (PositionGetter (get q)))
             (pow2 d) = true ->
         holds_pair result (p, q).
Proof.
  intros Hwf Hrows Hcols Hsmall Hcheck.
  apply sweep_reaches; try assumption.
  apply check_distance_passes, Hcheck.
Qed.

Lemma queryDistancePair_complete_example :
  exists result,
    queryDistancePair Validated corners pointer_value grid_2x2 (f32 0.3)
    = Ok result
    /\ forall p q r1 c1 r2 c2,
         (r1 < 2)%N -> (c1 < 2)%N -> (r2 < 2)%N -> (c2 < 2)%N ->
         In p (cell_at grid_2x2 r1 c1) -> In q (cell_at grid_2x2 r2 c2) ->
         (Z.of_N r1 - 1 <= Z.of_N r2 <= Z.of_N r1 + 1)%Z ->
         (Z.of_N c1 - 1 <= Z.of_N c2 <= Z.of_N c1 + 1)%Z ->
         p <> q ->
         fle (distance2 (corners (get p)) (corners (get q)))
             (pow2 (f32 0.3)) = true ->
         holds_pair result (p, q).
Proof.
  apply (queryDistancePair_complete Validated corners pointer_value grid_2x2
           (f32 0.3)).
  - exact grid_2x2_wf.
  - vm_compute. discriminate.
  - vm_compute. discriminate.
  - repeat constructor; vm_compute; discriminate.
  - right. exists (vec2f 1 1). split; vm_compute; reflexivity.
Defined.
(** * Further properties of the code *)

(** ** Floating-point numbers of the code *)


Lemma f32_one : f32 1 = Fnum 1.
Proof. vm_compute. reflexivity. Qed.

(** A count of at least one is a [float] of at least one. *)
Lemma of_size_ge_one (n : N) : (0 < n)%N -> fle (Fnum 1) (of_size n) = true.
Proof.
  intros H. rewrite <- f32_one. unfold f32, of_size.
  apply fle_round_to; [exact binary32_precision |].
  change 1%Q with (inject_Z 1). rewrite <- Zle_Qle. lia.
Qed.

Lemma of_size_cases (n : N) :
  (0 < n)%N ->
  of_size n = Finf false \/ exists r, of_size n = Fnum r /\ (1 <= r)%Q.
Proof.
  intros H. pose proof (of_size_ge_one n H) as Hle.
  destruct (of_size n) as [r|s|[]|]; try discriminate.
  - right. exists r. split; [reflexivity |].
    apply fle_finite in Hle; try reflexivity. exact Hle.
  - left. reflexivity.
Qed.

Lemma of_size_zero_iff (n : N) : feq (of_size n) fzero = true <-> n = 0%N.
Proof.
  split.
  - intros H. destruct (N.eq_dec n 0%N) as [E | E]; [exact E |].
    exfalso. destruct (of_size_cases n ltac:(lia)) as [E' | (r & E' & Hr)];
      rewrite E' in H; [discriminate |].
    unfold feq in H. simpl in H.
    assert (Hgt : (r ?= 0)%Q = Gt) by (apply Qgt_alt; lra).
    rewrite Hgt in H. discriminate.
  - intros ->. reflexivity.
Qed.

Lemma flt_zero_cases (a : float) :
  flt fzero a = true ->
  a = Finf false \/ exists q, a = Fnum q /\ (0 < q)%Q.
Proof.
  destruct a as [q|s|[]|]; intros H; try discriminate.
  - right. exists q. split; [reflexivity |].
    apply flt_finite in H; try reflexivity. exact H.
  - left. reflexivity.
Qed.

Lemma signbit_positive (q : Q) : (0 < q)%Q -> signbit (Fnum q) = false.
Proof.
  intros H. simpl. apply negb_false_iff, Qle_bool_iff. lra.
Qed.

(** A positive size divided by a positive count is not negative. *)
Lemma cell_dimension_sign (s : float) (n : N) :
  flt fzero s = true -> (0 < n)%N ->
  fdiv s (of_size n) = Fnan \/ fle fzero (fdiv s (of_size n)) = true.
Proof.
  intros Hs Hn.
  destruct (flt_zero_cases s Hs) as [-> | (q & -> & Hq)],
           (of_size_cases n Hn) as [-> | (r & -> & Hr)].
  - left. reflexivity.
  - right.
    change (fdiv (Finf false) (Fnum r))
      with (Finf (xorb false (signbit (Fnum r)))).
    rewrite (signbit_positive r) by lra. reflexivity.
  - right. reflexivity.
  - right. unfold fdiv. simpl.
    apply fle_round_to_pos.
    apply Qlt_shift_div_l; lra.
Qed.

(** ** Vector2 *)

Lemma round_to_not_negative (fmt : format) (q : Q) :
  (0 <= q)%Q -> not_negative (round_to fmt q).
Proof.
  intros Hq. destruct (Qeq_dec q 0) as [E | E].
  - rewrite (round_to_zero fmt q E). right. right. left. eauto.
  - destruct (round_to_pos fmt q ltac:(lra)) as (a & Ea & ->).
    pose proof (nearest_nonneg fmt a ltac:(lra)) as Hn.
    destruct (round_magnitude_cases fmt false a)
      as [[-> _] | [[-> _] | (r & -> & Vr & Nr & _)]].
    + right. left. reflexivity.
    + right. right. left. eauto.
    + right. right. right. exists r. split; [reflexivity |]. simpl in Vr. lra.
Qed.

Lemma not_negative_flt (a : float) : not_negative a -> flt a fzero = false.
Proof.
  intros [-> | [-> | [[s ->] | (q & -> & Hq)]]]; try reflexivity.
  unfold flt. simpl.
  assert (E : (q ?= 0)%Q = Gt) by (apply Qgt_alt; exact Hq).
  rewrite E. reflexivity.
Qed.

Lemma pow2_not_negative (a : float) : not_negative (pow2 a).
Proof.
  destruct a as [p|s|s|].
  - apply round_to_not_negative. nra.
  - right. right. left. eexists. reflexivity.
  - right. left. destruct s; reflexivity.
  - left. reflexivity.
Qed.

Lemma float_add_not_negative (fmt : format) (a b : float) :
  not_negative a -> not_negative b -> not_negative (float_add fmt a b).
Proof.
  intros [-> | [-> | [[s ->] | (p & -> & Hp)]]]
         [-> | [-> | [[s' ->] | (q & -> & Hq)]]];
    try (left; reflexivity); try (right; left; reflexivity);
    try (right; right; left; eexists; reflexivity);
    apply round_to_not_negative; simpl; lra.
Qed.

Lemma to_float_not_negative (a : float) :
  not_negative a -> not_negative (to_float a).
Proof.
  intros [-> | [-> | [[s ->] | (q & -> & Hq)]]].
  - left. reflexivity.
  - right. left. reflexivity.
  - right. right. left. eauto.
  - apply round_to_not_negative. lra.
Qed.

Lemma feq_finite (a b : float) :
  is_finite a = true -> feq a b = true ->
  is_finite b = true /\ (value a == value b)%Q.
Proof.
  intros Ha H. unfold feq in H.
  destruct (is_finite b) eqn:Hb.
  - split; [reflexivity |]. apply Qeq_alt.
    assert (E : float_compare a b = Some (value a ?= value b)%Q)
      by (destruct a, b; try discriminate; reflexivity).
    rewrite E in H. destruct (value a ?= value b)%Q; try discriminate.
    reflexivity.
  - destruct a as [p|s| |], b as [q|s'|[]|]; discriminate.
Qed.

Lemma fsub_equal (a b : float) :
  is_finite a = true -> feq a b = true ->
  exists s, fsub b a = Fzero s.
Proof.
  intros Ha H. destruct (feq_finite a b Ha H) as [Hb E].
  destruct (float_sub_finite binary32 b a Hb Ha) as [E' | (s & s' & E' & _)].
  - exists false. unfold fsub. rewrite E'. apply round_to_zero. lra.
  - exists s. exact E'.
Qed.

Lemma float_div_by_zero (fmt : format) (a : float) (s : bool) :
  is_finite (float_div fmt a (Fzero s)) = false.
Proof. destruct a; reflexivity. Qed.

(** X1.  [cwiseDiv] checks the divisor in the validated build only: there
    it throws [std::invalid_argument] exactly when a component of the
    divisor compares equal to zero, of either sign.  The performance build
    never throws: it returns what the validated build returns and, for a
    zero in the divisor, a quotient that is an infinity or a NaN. *)
Theorem cwiseDiv_checked (a other : Vector2) :
  (cwiseDiv Validated a other = Throw invalid_argument
   <-> feq (x other) fzero = true \/ feq (y other) fzero = true)
  /\ (forall v, cwiseDiv Validated a other = Ok v ->
                cwiseDiv Performance a other = Ok v)
  /\ exists v,
       cwiseDiv Performance a other = Ok v
       /\ (forall s, x other = Fzero s -> is_finite (x v) = false)
       /\ (forall s, y other = Fzero s -> is_finite (y v) = false).
Proof.
  unfold cwiseDiv. simpl. split; [| split].
  - destruct (feq (x other) fzero), (feq (y other) fzero); simpl;
      split; intros H; try reflexivity; try discriminate; auto.
    destruct H; discriminate.
  - destruct (_ || _); [discriminate | auto].
  - eexists. split; [reflexivity |]. simpl.
    split; intros s ->; apply float_div_by_zero.
Qed.

Lemma cwiseDiv_checked_witness :
  exists v,
    cwiseDiv Performance (vec2f 100 100) (vec2f 5 0) = Ok v
    /\ x v = f32 20 /\ is_finite (y v) = false.
Proof.
  destruct (cwiseDiv_checked (vec2f 100 100) (vec2f 5 0))
    as (_ & _ & v & E & _ & Hy).
  exists v. split; [exact E |].
  split; [inversion E; vm_compute; reflexivity | apply (Hy false); reflexivity].
Defined.

(** X2.  The squared distance does not depend on the order of the two
    points, is never negative, and is [+0] between a finite point and a
    point that [operator==] finds equal to it. *)
Theorem distance2_properties (a other : Vector2) :
  distance2 a other = distance2 other a
  /\ flt (distance2 a other) fzero = false
  /\ (is_finite (x a) = true -> is_finite (y a) = true ->
      veq a other = true -> distance2 a other = fzero).
Proof.
  split; [apply distance2_sym |]. split.
  - apply not_negative_flt. unfold distance2.
    apply to_float_not_negative, float_add_not_negative;
      apply pow2_not_negative.
  - intros Hx Hy H. unfold veq in H. apply andb_true_iff in H as [Ex Ey].
    destruct (fsub_equal _ _ Hx Ex) as [sx Fx].
    destruct (fsub_equal _ _ Hy Ey) as [sy Fy].
    unfold distance2. rewrite Fx, Fy. destruct sx, sy; reflexivity.
Qed.

Lemma distance2_properties_witness :
  distance2 (vec2f 0.9 0.9) (vec2f 0.9 0.9) = fzero.
Proof.
  apply (proj2 (proj2 (distance2_properties (vec2f 0.9 0.9) (vec2f 0.9 0.9))));
    vm_compute; reflexivity.
Defined.

Lemma float_add_comm (fmt : format) (a b : float) :
  float_add fmt a b = float_add fmt b a.
Proof.
  destruct a as [p|s|s|], b as [q|s'|s'|]; try reflexivity; simpl.
  - apply round_to_proper. ring.
  - apply round_to_proper. ring.
  - apply round_to_proper. ring.
  - rewrite andb_comm. reflexivity.
  - destruct s, s'; reflexivity.
Qed.

Lemma float_mul_comm (fmt : format) (a b : float) :
  float_mul fmt a b = float_mul fmt b a.
Proof.
  destruct a as [p|s|s|], b as [q|s'|s'|]; try reflexivity; simpl;
    try (rewrite xorb_comm; reflexivity).
  apply round_to_proper. ring.
Qed.

(** X3.  [operator+], [cwiseMul] and [dot] do not depend on the order of
    their two vectors: the results are the same numbers, sign of zero
    included, or both NaN. *)
Theorem vadd_commutative (a other : Vector2) :
  vadd a other = vadd other a
  /\ cwiseMul a other = cwiseMul other a
  /\ dot a other = dot other a.
Proof.
  unfold vadd, cwiseMul, dot, fadd, fmul.
  rewrite (float_add_comm _ (x a)), (float_add_comm _ (y a)).
  rewrite (float_mul_comm _ (x a)), (float_mul_comm _ (y a)).
  repeat split.
Qed.

(** ** Rect *)

Lemma flt_same_number (a a' b b' : float) :
  same_number a a' -> same_number b b' -> flt a b = flt a' b'.
Proof.
  intros [-> | (s1 & s1' & -> & ->)] [-> | (s2 & s2' & -> & ->)];
    try reflexivity;
    try (destruct a' as [| |[]|]; reflexivity);
    try (destruct b' as [| |[]|]; reflexivity).
Qed.

Lemma fsub_not_negative (l r : float) :
  fle l r = true -> flt (fsub r l) fzero = false.
Proof.
  intros H. destruct (is_finite l) eqn:Hl, (is_finite r) eqn:Hr.
  - apply fle_finite in H; try assumption. unfold fsub.
    rewrite (flt_same_number _ _ fzero fzero
               (float_sub_finite binary32 r l Hr Hl) (or_introl eq_refl)).
    apply not_negative_flt, round_to_not_negative. lra.
  - destruct l as [p|s| |], r as [q|s'|[]|]; try discriminate; reflexivity.
  - destruct l as [p|s|[]|], r as [q|s'| |]; try discriminate; reflexivity.
  - destruct l as [p|s|[]|], r as [q|s'|[]|]; try discriminate; reflexivity.
Qed.

(** X5.  The four-argument constructor checks nothing, in either build.
    When [left <= right] and [top <= bottom] the Rect it builds is one the
    checked constructor accepts for that position and size: no component of
    the size is negative; [left()] and [top()] are the arguments. *)
Theorem Rect_ltrb_accepted (l t r b : float) :
  fle l r = true -> fle t b = true ->
  let rect := Rect_ltrb l t r b in
  Rect_new Validated (position rect) (size rect) = Ok rect
  /\ Rect_left rect = l /\ Rect_top rect = t.
Proof.
  intros Hx Hy rect. split; [| split; reflexivity].
  unfold Rect_new. simpl.
  rewrite (fsub_not_negative l r Hx), (fsub_not_negative t b Hy). reflexivity.
Qed.

Lemma Rect_ltrb_accepted_witness :
  Rect_new Validated (position bound_100) (size bound_100) = Ok bound_100
  /\ Rect_left bound_100 = f32 0 /\ Rect_top bound_100 = f32 0.
Proof.
  apply (Rect_ltrb_accepted (f32 0) (f32 0) (f32 100) (f32 100));
    vm_compute; reflexivity.
Defined.






(** ** utils::Matrix *)

Lemma Matrix_new_wf {T : Type} (dflt : T) (rows columns : N) :
  (rows * columns < size_max)%N -> wf_matrix (Matrix_new dflt rows columns).
Proof.
  intros H. unfold wf_matrix, Matrix_new. simpl.
  rewrite length_replicate, wrap_small by exact H. split; [reflexivity | exact H].
Qed.

Lemma wf_matrix_ref {T : Type} (m : Matrix T) row column :
  wf_matrix m -> (row < mrows m)%N -> (column < mcolumns m)%N ->
  Matrix_ref m row column = Ok (row * mcolumns m + column)%N
  /\ (row * mcolumns m + column < mrows m * mcolumns m)%N.
Proof.
  intros [Hlen Hmax] Hr Hc.
  destruct (offset_in_range m (mrows m) (mcolumns m) row column eq_refl Hmax
              Hr Hc) as [Hoff Hlt].
  split; [| exact Hlt]. unfold Matrix_ref. rewrite Hoff.
  destruct (_ <? _)%N eqn:E; [reflexivity |]. apply N.ltb_ge in E. lia.
Qed.

(** X7.  On a freshly constructed matrix the checked accessor [at] throws
    [std::out_of_range] exactly when the row or the column is out of range;
    otherwise it returns the same reference as the unchecked [operator()],
    and the element there is the default-constructed one. *)
Theorem Matrix_at_checked {T : Type} (dflt : T) (rows columns row column : N) :
  (rows * columns < size_max)%N ->
  let m := Matrix_new dflt rows columns in
  (Matrix_at m row column = Throw out_of_range
   <-> (rows <= row)%N \/ (columns <= column)%N)
  /\ ((row < rows)%N -> (column < columns)%N ->
      Matrix_at m row column = Matrix_ref m row column
      /\ Matrix_at m row column = Ok (row * columns + column)%N
      /\ deref m (row * columns + column) = Ok dflt).
Proof.
  intros Hmax m. pose proof (Matrix_new_wf dflt rows columns Hmax) as Hwf.
  fold m in Hwf. unfold Matrix_at.
  change (mrows m) with rows. change (mcolumns m) with columns.
  destruct ((rows <=? row) || (columns <=? column))%N eqn:E.
  - apply orb_true_iff in E. rewrite !N.leb_le in E.
    split; [split; [intros _; exact E | reflexivity] |].
    intros Hr Hc. lia.
  - apply orb_false_iff in E as [Er Ec]. apply N.leb_gt in Er, Ec.
    destruct (wf_matrix_ref m row column Hwf Er Ec) as [Href Hlt].
    change (mrows m) with rows in *. change (mcolumns m) with columns in *.
    split.
    + split; [| intros [H | H]; lia].
      rewrite Href. discriminate.
    + intros _ _. split; [reflexivity |]. split; [exact Href |].
      apply deref_Ok. simpl. rewrite wrap_small by exact Hmax.
      apply lookup_replicate_2. lia.
Qed.

Lemma Matrix_at_checked_witness :
  let m := Matrix_new ([] : list N) 10 5 in
  (Matrix_at m 2 5 = Throw out_of_range <-> (10 <= 2)%N \/ (5 <= 5)%N)
  /\ ((2 < 10)%N -> (0 < 5)%N ->
      Matrix_at m 2 0 = Matrix_ref m 2 0
      /\ Matrix_at m 2 0 = Ok (2 * 5 + 0)%N
      /\ deref m (2 * 5 + 0) = Ok []).
Proof.
  assert (H : (10 * 5 < size_max)%N) by reflexivity.
  split.
  - apply (Matrix_at_checked ([] : list N) 10 5 2 5 H).
  - apply (Matrix_at_checked ([] : list N) 10 5 2 0 H).
Defined.

(** X8.  The unchecked [operator()] of a well-formed matrix gives different
    references for different in-range indices, and does not see a column
    past the end of a row: [(row, column + columns)] is silently the element
    [(row + 1, column)] of the next row. *)
Theorem Matrix_ref_aliasing {T : Type} (m : Matrix T) :
  wf_matrix m ->
  (forall r1 c1 r2 c2,
      (r1 < mrows m)%N -> (c1 < mcolumns m)%N ->
      (r2 < mrows m)%N -> (c2 < mcolumns m)%N ->
      Matrix_ref m r1 c1 = Matrix_ref m r2 c2 -> r1 = r2 /\ c1 = c2)
  /\ (forall row column,
        (row + 1 < mrows m)%N -> (column < mcolumns m)%N ->
        Matrix_ref m row (column + mcolumns m)
        = Matrix_ref m (row + 1) column
        /\ Matrix_ref m row (column + mcolumns m)
           = Ok ((row + 1) * mcolumns m + column)%N).
Proof.
  intros Hwf. split.
  - intros r1 c1 r2 c2 Hr1 Hc1 Hr2 Hc2 H.
    destruct (wf_matrix_ref m r1 c1 Hwf Hr1 Hc1) as [E1 _].
    destruct (wf_matrix_ref m r2 c2 Hwf Hr2 Hc2) as [E2 _].
    rewrite E1, E2 in H. inversion H.
    eapply offset_injective; eauto.
  - intros row column Hr Hc.
    destruct (wf_matrix_ref m (row + 1) column Hwf Hr Hc) as [E Hlt].
    destruct Hwf as [Hlen Hmax].
    assert (Hoff : offset m row (column + mcolumns m)
                   = ((row + 1) * mcolumns m + column)%N).
    { unfold offset. rewrite (wrap_small (row * mcolumns m)) by nia.
      rewrite wrap_small by nia. lia. }
    assert (Href : Matrix_ref m row (column + mcolumns m)
                   = Ok ((row + 1) * mcolumns m + column)%N).
    { unfold Matrix_ref. rewrite Hoff.
      destruct (_ <? _)%N eqn:El; [reflexivity |]. apply N.ltb_ge in El. lia. }
    split; [rewrite Href, E; reflexivity | exact Href].
Qed.

Lemma Matrix_ref_aliasing_witness :
  let m := Matrix_new ([] : list N) 10 5 in
  Matrix_ref m 0 (2 + 5) = Matrix_ref m (0 + 1) 2
  /\ Matrix_ref m 0 (2 + 5) = Ok ((0 + 1) * 5 + 2)%N.
Proof.
  apply (proj2 (Matrix_ref_aliasing (Matrix_new ([] : list N) 10 5)
                  (Matrix_new_wf [] 10 5 eq_refl)) 0%N 2%N);
    reflexivity.
Defined.

(** ** Construction and cell size *)

(** X9.  In the validated build the constructor throws
    [std::invalid_argument] exactly when there are no rows or no columns.
    A Grid it returns, in either build, is well-formed when
    [rows * columns] is a [std::size_t], holds no handle and counts zero
    bodies. *)
Theorem Grid_new_spec (bd : Rect) (rs cs : N) :
  (Grid_new Validated bd rs cs = Throw invalid_argument
   <-> rs = 0%N \/ cs = 0%N)
  /\ (forall b g, Grid_new b bd rs cs = Ok g ->
        bound g = bd /\ rows g = rs /\ columns g = cs
        /\ getBodyCount g = 0%N
        /\ (forall ptr, ~ in_grid g ptr)
        /\ ((rs * cs < size_max)%N -> wf_grid g)).
Proof.
  split.
  - unfold Grid_new. simpl.
    destruct ((rs =? 0) || (cs =? 0))%N eqn:E.
    + apply orb_true_iff in E. rewrite !N.eqb_eq in E.
      split; [intros _; exact E | reflexivity].
    + apply orb_false_iff in E. rewrite !N.eqb_neq in E.
      split; [discriminate | intros [H | H]; tauto].
  - intros b g H. unfold Grid_new in H.
    destruct (_ && _); inversion H. subst g. simpl.
    repeat split.
    + intros ptr (cell & Hcell & Hptr). simpl in Hcell.
      apply list_elem_of_In, elem_of_replicate in Hcell as [-> _].
      contradiction.
    + simpl. rewrite length_replicate. rewrite wrap_small by assumption.
      reflexivity.
    + assumption.
Qed.

Lemma Grid_new_spec_witness :
  (Grid_new Validated (bound_100) 1 0 = Throw invalid_argument
   <-> 1%N = 0%N \/ 0%N = 0%N)
  /\ wf_grid grid_10x5.
Proof.
  split.
  - apply (proj1 (Grid_new_spec (bound_100) 1 0)).
  - apply (proj2 (Grid_new_spec (bound_100) 10 5)
             Validated grid_10x5); reflexivity.
Defined.

(** ** Cell size *)

Lemma cellSize_Ok b g cell_size :
  cellSize b g = Ok cell_size ->
  cell_size = mkVector2 (fdiv (x (size (bound g))) (of_size (columns g)))
                        (fdiv (y (size (bound g))) (of_size (rows g))).
Proof.
  unfold cellSize, cwiseDiv. destruct (_ && _); [discriminate |].
  intros H. inversion H. reflexivity.
Qed.

(** A [std::size_t] is a finite [float]. *)
Lemma of_size_finite (n : N) : (n < size_max)%N -> is_finite (of_size n) = true.
Proof.
  intros Hn. destruct (N.eq_dec n 0%N) as [-> | Hz]; [reflexivity |].
  set (q := inject_Z (Z.of_N n)).
  assert (Hq : (0 < q)%Q).
  { unfold q. change 0%Q with (inject_Z 0). rewrite <- Zlt_Qlt. lia. }
  assert (Hmax : (q <= 2 ^ 64)%Q).
  { unfold q. rewrite (two_pow_int 64) by lia. rewrite <- Zle_Qle.
    unfold size_max in Hn. lia. }
  unfold of_size. fold q.
  destruct (round_to_pos binary32 q Hq) as (a & Ea & ->).
  assert (Hlog : (ilog2 a <= 64)%Z).
  { destruct (ilog2_spec a ltac:(lra)) as [L _].
    assert (H : (2 ^ ilog2 a < 2 ^ 65)%Q).
    { apply Qle_lt_trans with (2 ^ 64)%Q; [lra |]. reflexivity. }
    apply two_pow_lt_inv in H. lia. }
  assert (Hnear : (nearest binary32 a <= 2 ^ 64)%Q).
  { apply nearest_le_pow; [lra |]. unfold quantum, emin. simpl. lia. }
  destruct (round_magnitude_cases binary32 false a)
    as [[_ Hinf] | [[-> _] | (r & -> & _)]]; try reflexivity.
  exfalso. simpl in Hinf.
  assert (H : (2 ^ 64 < 2 ^ 128)%Q) by reflexivity. lra.
Qed.

(** X10.  [cellSize] throws [std::invalid_argument] in the validated build
    exactly when the Grid has no rows or no columns, and never throws in the
    performance build.  On a Grid with a positive bound size and positive
    dimensions no component of the cell size is negative. *)
Theorem cellSize_spec b g :
  (cellSize Validated g = Throw invalid_argument
   <-> rows g = 0%N \/ columns g = 0%N)
  /\ (exists cell_size, cellSize Performance g = Ok cell_size)
  /\ (positive_grid g -> (rows g < size_max)%N -> (columns g < size_max)%N ->
      exists cell_size,
        cellSize b g = Ok cell_size
        /\ fle fzero (x cell_size) = true /\ fle fzero (y cell_size) = true).
Proof.
  split; [| split].
  - unfold cellSize, cwiseDiv. simpl.
    destruct (feq (of_size (columns g)) fzero) eqn:Ec;
      destruct (feq (of_size (rows g)) fzero) eqn:Er; simpl;
      try (apply of_size_zero_iff in Ec); try (apply of_size_zero_iff in Er);
      try (split; [intros _; auto | reflexivity]).
    split; [discriminate |]. intros [H | H];
      apply of_size_zero_iff in H; congruence.
  - eexists. reflexivity.
  - intros (Hx & Hy & Hr & Hc) Hrs Hcs.
    assert (Zr : feq (of_size (rows g)) fzero = false).
    { destruct (feq (of_size (rows g)) fzero) eqn:E; [| reflexivity].
      apply of_size_zero_iff in E. lia. }
    assert (Zc : feq (of_size (columns g)) fzero = false).
    { destruct (feq (of_size (columns g)) fzero) eqn:E; [| reflexivity].
      apply of_size_zero_iff in E. lia. }
    unfold cellSize, cwiseDiv. simpl. rewrite Zr, Zc, andb_false_r.
    eexists. split; [reflexivity |]. simpl.
    assert (Hsign : forall s n, flt fzero s = true -> (0 < n)%N ->
              (n < size_max)%N -> fle fzero (fdiv s (of_size n)) = true).
    { intros s n Hs Hn Hmax.
      destruct (cell_dimension_sign s n Hs Hn) as [E | E]; [| exact E].
      exfalso. pose proof (of_size_finite n Hmax) as Hf.
      destruct (flt_zero_cases s Hs) as [-> | (q & -> & Hq)],
               (of_size n) as [r|s'|s'|]; try discriminate.
      exact (round_to_finite_or_inf binary32 _ E). }
    split; apply Hsign; assumption.
Qed.

Lemma grid_10x5_positive : positive_grid grid_10x5.
Proof. repeat split. Qed.

Lemma cellSize_spec_witness :
  exists cell_size,
    cellSize Validated grid_10x5 = Ok cell_size
    /\ fle fzero (x cell_size) = true /\ fle fzero (y cell_size) = true.
Proof.
  apply (proj2 (proj2 (cellSize_spec Validated grid_10x5))).
  - exact grid_10x5_positive.
  - reflexivity.
  - reflexivity.
Defined.

(** ** Cell indices *)

(** X12.  What the validated [getCellIndex] accepts is a cell of the grid:
    the row and the column are within the dimensions, and on a well-formed
    Grid [getBodyCell] then refers to an element of the buffer. *)
Theorem getCellIndex_accepted PositionGetter g body row col :
  wf_grid g ->
  getCellIndex Validated PositionGetter g body = Ok (row, col) ->
  (row < rows g)%N /\ (col < columns g)%N
  /\ getBodyCell Validated PositionGetter g body
     = Ok (row * columns g + col)%N
  /\ exists cell, deref (cells g) (row * columns g + col) = Ok cell.
Proof.
  intros Hwf H.
  destruct (getCellIndex_Ok _ _ _ _ _ _ H) as (cs & _ & _ & _ & Hin).
  destruct (Hin eq_refl) as [Hrow Hcol].
  destruct (cell_lookup g row col Hwf Hrow Hcol) as (cell & Href & Hcell).
  split; [exact Hrow |]. split; [exact Hcol |]. split.
  - unfold getBodyCell. rewrite H. exact Href.
  - exists cell. apply deref_Ok, Hcell.
Qed.

Lemma getCellIndex_accepted_witness :
  (2 < 10)%N /\ (0 < 5)%N
  /\ getBodyCell Validated (everywhere (vec2f 14.4 20.8)) grid_10x5 7%N
     = Ok (2 * 5 + 0)%N
  /\ exists cell, deref (cells grid_10x5) (2 * 5 + 0) = Ok cell.
Proof.
  apply (getCellIndex_accepted (everywhere (vec2f 14.4 20.8)) grid_10x5
           7%N 2%N 0%N).
  - repeat split.
  - vm_compute. reflexivity.
Defined.

Lemma to_size_not_finite (a : float) :
  is_finite a = false -> to_size a = Undefined.
Proof. destruct a; try discriminate; reflexivity. Qed.

Lemma to_size_no_throw (a : float) : no_throw (to_size a).
Proof. destruct a; simpl; try exact I. destruct (_ && _); exact I. Qed.

Lemma fdiv_fsub_not_finite (p o w : float) :
  is_finite p = false -> is_finite (fdiv (fsub p o) w) = false.
Proof.
  intros H.
  assert (Hs : is_finite (fsub p o) = false).
  { destruct (is_finite (fsub p o)) eqn:E; [| reflexivity].
    apply float_sub_is_finite in E as [E _]. congruence. }
  destruct (fsub p o) as [| |s|], w as [| |s'|]; try discriminate; reflexivity.
Qed.

(** X27.  A position that is not a number has no cell: when a coordinate of
    the position is an infinity or a NaN and the cell size is defined,
    [getCellIndex] converts an infinity or a NaN to [std::size_t], which is
    undefined in either build; no exception reports it. *)
Theorem getCellIndex_not_finite b PositionGetter g body cell_size :
  cellSize b g = Ok cell_size ->
  is_finite (x (PositionGetter body)) = false
  \/ is_finite (y (PositionGetter body)) = false ->
  getCellIndex b PositionGetter g body = Undefined.
Proof.
  intros Hcs H. unfold getCellIndex. rewrite Hcs. unfold_outcome. simpl.
  destruct H as [H | H].
  - rewrite (to_size_not_finite (fdiv (fsub (x _) _) _))
      by (apply fdiv_fsub_not_finite, H).
    pose proof (to_size_no_throw
                  (fdiv (fsub (y (PositionGetter body)) (y (position (bound g))))
                        (y cell_size))) as Hn.
    destruct (to_size _); [reflexivity | contradiction | reflexivity].
  - rewrite (to_size_not_finite (fdiv (fsub (y _) _) _))
      by (apply fdiv_fsub_not_finite, H).
    reflexivity.
Qed.

Lemma getCellIndex_not_finite_witness :
  getCellIndex Validated (everywhere (mkVector2 Fnan (f32 5))) grid_10x5 7%N
  = Undefined.
Proof.
  apply (getCellIndex_not_finite Validated
           (everywhere (mkVector2 Fnan (f32 5))) grid_10x5 7%N (vec2f 20 10)).
  - vm_compute. reflexivity.
  - left. reflexivity.
Defined.

Lemma Qtrunc_monotone (q1 q2 : Q) :
  (0 <= Qtrunc q1)%Z -> (0 <= Qtrunc q2)%Z -> (q1 <= q2)%Q ->
  (Qtrunc q1 <= Qtrunc q2)%Z.
Proof.
  intros H1 H2 Hle.
  destruct (Z_le_gt_dec (Qtrunc q1) (Qtrunc q2)) as [|Hgt]; [assumption |].
  exfalso.
  pose proof (Qtrunc_lower q1 ltac:(lia)) as L1.
  pose proof (Qtrunc_upper q2 H2) as U2.
  assert (Hz : (inject_Z (Qtrunc q2) + 1 <= inject_Z (Qtrunc q1))%Q).
  { rewrite <- (inject_Z_plus _ 1), <- Zle_Qle. lia. }
  lra.
Qed.

Lemma to_size_monotone (a b : float) (n m : N) :
  fle a b = true -> to_size a = Ok n -> to_size b = Ok m -> (n <= m)%N.
Proof.
  intros Hle Ha Hb.
  apply to_size_Ok in Ha as [Fa Ta]. apply to_size_Ok in Hb as [Fb Tb].
  apply fle_finite in Hle; try assumption.
  pose proof (Qtrunc_monotone (value a) (value b)) as H.
  rewrite Ta, Tb in H. specialize (H ltac:(lia) ltac:(lia) Hle). lia.
Qed.

(** The coordinate of a cell follows the coordinate of the position, for a
    cell dimension that is not negative. *)
Lemma coordinate_monotone (p1 p2 o w : float) (n m : N) :
  fle fzero w = true -> fle p1 p2 = true ->
  to_size (fdiv (fsub p1 o) w) = Ok n ->
  to_size (fdiv (fsub p2 o) w) = Ok m ->
  (n <= m)%N.
Proof.
  intros Hw Hp H1 H2.
  destruct w as [q|s|[]|]; try discriminate.
  - (* a positive dimension *)
    apply fle_finite in Hw; try reflexivity. simpl in Hw.
    pose proof (proj1 (to_size_Ok _ _ H1)) as F1.
    pose proof (proj1 (to_size_Ok _ _ H2)) as F2.
    apply float_div_is_finite in F1, F2.
    pose proof F1 as G1. pose proof F2 as G2.
    apply float_sub_is_finite in G1 as [Fp1 Fo], G2 as [Fp2 _].
    eapply to_size_monotone; [| exact H1 | exact H2].
    apply float_div_monotone; try assumption; [exact binary32_precision |].
    apply float_sub_monotone; try assumption. exact binary32_precision.
  - (* a zero: the quotient is an infinity or a NaN *)
    exfalso. destruct (fsub p1 o) as [| | |]; discriminate.
  - (* an infinity: the quotient is a zero *)
    destruct (fsub p1 o) as [| | |], (fsub p2 o) as [| | |];
      try discriminate; simpl in H1, H2; inversion H1; inversion H2; lia.
Qed.

(** X26.  The cell index follows the position: of two bodies that both
    have a cell index on a Grid with a positive bound size and positive
    dimensions, the one further right has no smaller column and the one
    further down has no smaller row.  Subtraction, division by the cell
    dimension and truncation keep the order, rounding included. *)
Theorem getCellIndex_monotone b PositionGetter g body1 body2 r1 c1 r2 c2 :
  positive_grid g ->
  getCellIndex b PositionGetter g body1 = Ok (r1, c1) ->
  getCellIndex b PositionGetter g body2 = Ok (r2, c2) ->
  (fle (x (PositionGetter body1)) (x (PositionGetter body2)) = true ->
   (c1 <= c2)%N)
  /\ (fle (y (PositionGetter body1)) (y (PositionGetter body2)) = true ->
      (r1 <= r2)%N).
Proof.
  intros (Hx & Hy & Hr & Hc) H1 H2.
  apply getCellIndex_Ok in H1 as (cs1 & E1 & Hr1 & Hc1 & _).
  apply getCellIndex_Ok in H2 as (cs2 & E2 & Hr2 & Hc2 & _).
  apply cellSize_Ok in E1, E2. subst cs1 cs2. simpl in *.
  assert (Hdim : forall s n p o k,
            flt fzero s = true -> (0 < n)%N ->
            to_size (fdiv (fsub p o) (fdiv s (of_size n))) = Ok k ->
            fle fzero (fdiv s (of_size n)) = true).
  { intros s n p o k Hs Hn Hk.
    destruct (cell_dimension_sign s n Hs Hn) as [E | E]; [| exact E].
    exfalso. rewrite E in Hk. destruct (fsub p o); discriminate. }
  split; intros Hle.
  - eapply coordinate_monotone; [| exact Hle | exact Hc1 | exact Hc2].
    eapply Hdim; eauto.
  - eapply coordinate_monotone; [| exact Hle | exact Hr1 | exact Hr2].
    eapply Hdim; eauto.
Qed.

Lemma grid_2x2_positive : positive_grid grid_2x2.
Proof. repeat split. Qed.

Lemma getCellIndex_monotone_witness :
  (fle (x (corners 1%N)) (x (corners 4%N)) = true -> (0 <= 1)%N)
  /\ (fle (y (corners 1%N)) (y (corners 4%N)) = true -> (0 <= 1)%N).
Proof.
  apply (getCellIndex_monotone Validated corners grid_2x2 1%N 4%N
           0%N 0%N 1%N 1%N).
  - exact grid_2x2_positive.
  - vm_compute. reflexivity.
  - vm_compute. reflexivity.
Defined.

(** ** The two builds *)

Lemma cellSize_profiles g cell_size :
  cellSize Validated g = Ok cell_size -> cellSize Performance g = Ok cell_size.
Proof.
  unfold cellSize, cwiseDiv. simpl. destruct (_ || _); [discriminate |].
  auto.
Qed.

Lemma check_distance_profiles g d :
  check_distance Validated g d = Ok tt -> check_distance Performance g d = Ok tt.
Proof. reflexivity. Qed.

Lemma getCellIndex_profiles PositionGetter g body idx :
  getCellIndex Validated PositionGetter g body = Ok idx ->
  getCellIndex Performance PositionGetter g body = Ok idx.
Proof.
  unfold getCellIndex. intros H. bind_inv H.
  rewrite (cellSize_profiles _ _ E). unfold_outcome.
  destruct (to_size (fdiv _ (y a))) as [row| |]; try discriminate.
  destruct (to_size (fdiv _ (x a))) as [col| |]; try discriminate.
  simpl in *. destruct (_ || _); [discriminate | exact H].
Qed.

(** X14.  The performance build agrees with the validated build wherever
    the latter returns: what [getCellIndex], [getBodyCell], [addBody],
    [updateBodyCell], [queryDistance] and [queryDistancePair] return with
    the checks compiled in, they return with the checks compiled out. *)
Theorem performance_agrees PositionGetter ptr_hash g :
  (forall body idx,
      getCellIndex Validated PositionGetter g body = Ok idx ->
      getCellIndex Performance PositionGetter g body = Ok idx)
  /\ (forall body cell,
        getBodyCell Validated PositionGetter g body = Ok cell ->
        getBodyCell Performance PositionGetter g body = Ok cell)
  /\ (forall body r,
        addBody Validated PositionGetter g body = Ok r ->
        addBody Performance PositionGetter g body = Ok r)
  /\ (forall body previous_cell r,
        updateBodyCell Validated PositionGetter g body previous_cell = Ok r ->
        updateBodyCell Performance PositionGetter g body previous_cell = Ok r)
  /\ (forall body idx d r,
        queryDistance Validated PositionGetter g body idx d = Ok r ->
        queryDistance Performance PositionGetter g body idx d = Ok r)
  /\ (forall d r,
        queryDistancePair Validated PositionGetter ptr_hash g d = Ok r ->
        queryDistancePair Performance PositionGetter ptr_hash g d = Ok r).
Proof.
  assert (Hcell : forall body cell,
            getBodyCell Validated PositionGetter g body = Ok cell ->
            getBodyCell Performance PositionGetter g body = Ok cell).
  { intros body cell H. unfold getBodyCell in *. bind_inv H.
    rewrite (getCellIndex_profiles _ _ _ _ E). exact H. }
  split; [intros body idx; apply getCellIndex_profiles |].
  split; [exact Hcell |].
  split.
  { intros body r H. unfold addBody in *. bind_inv H.
    rewrite (Hcell _ _ E). exact H. }
  split.
  { intros body previous_cell r H. unfold updateBodyCell in *. bind_inv H.
    rewrite (getCellIndex_profiles _ _ _ _ E). unfold_outcome.
    destruct a as [row col].
    destruct (Matrix_ref (cells g) row col) as [new_cell| |]; try discriminate.
    destruct (new_cell =? previous_cell)%N; [exact H |].
    destruct (deref (cells g) previous_cell) as [pl| |]; try discriminate.
    destruct (find_if _ pl); [exact H | discriminate]. }
  split.
  { intros body idx d r H. unfold queryDistance in *. bind_inv H.
    destruct a. exact H. }
  { intros d r H. unfold queryDistancePair in *. bind_inv H.
    destruct a. exact H. }
Qed.

Lemma performance_agrees_witness :
  getCellIndex Performance corners grid_2x2 4%N = Ok (1%N, 1%N)
  /\ queryDistance Performance corners grid_2x2 1%N (0%N, 0%N) (f32 0.3)
     = Ok [3%N; 2%N; 4%N].
Proof.
  destruct (performance_agrees corners pointer_value grid_2x2)
    as (H1 & _ & _ & _ & H5 & _).
  split; [apply H1 | apply H5]; vm_compute; reflexivity.
Defined.

(** ** Mutations *)

Lemma resident_iff b PositionGetter g :
  resident b PositionGetter g = true
  <-> forall i cell ptr,
        data (cells g) !! i = Some cell -> In ptr cell ->
        resident_in b PositionGetter g i ptr = true.
Proof.
  unfold resident. rewrite forallb_forall. split.
  - intros H i cell ptr Hcell Hptr.
    specialize (H (i, cell)). simpl in H.
    rewrite forallb_forall in H. apply H; [| exact Hptr].
    apply list_elem_of_In, list_elem_of_lookup. exists i.
    rewrite list_lookup_imap, Hcell. reflexivity.
  - intros H [i cell] Hin. apply forallb_forall. intros ptr Hptr.
    apply list_elem_of_In, list_elem_of_lookup in Hin as [j Hj].
    rewrite list_lookup_imap in Hj.
    destruct (data (cells g) !! j) as [c|] eqn:E; [| discriminate].
    inversion Hj. subst. eapply H; eauto.
Qed.

Lemma getCellIndex_frame b PositionGetter g g' body :
  bound g' = bound g -> rows g' = rows g -> columns g' = columns g ->
  getCellIndex b PositionGetter g' body = getCellIndex b PositionGetter g body.
Proof.
  intros Hb Hr Hc. unfold getCellIndex, cellSize. rewrite Hb, Hr, Hc.
  reflexivity.
Qed.

Lemma resident_in_frame b PositionGetter g g' i ptr :
  bound g' = bound g -> rows g' = rows g -> columns g' = columns g ->
  mcolumns (cells g') = mcolumns (cells g) ->
  resident_in b PositionGetter g' i ptr = resident_in b PositionGetter g i ptr.
Proof.
  intros Hb Hr Hc Hm. unfold resident_in, offset.
  rewrite (getCellIndex_frame b PositionGetter g g' _ Hb Hr Hc), Hr, Hc, Hm.
  reflexivity.
Qed.

Lemma in_grid_lookup g ptr :
  in_grid g ptr
  <-> exists i cell, data (cells g) !! i = Some cell /\ In ptr cell.
Proof.
  unfold in_grid. split.
  - intros (cell & Hc & Hp).
    apply list_elem_of_In, list_elem_of_lookup in Hc as [i Hi]. eauto.
  - intros (i & cell & Hi & Hp). exists cell. split; [| exact Hp].
    apply list_elem_of_In, list_elem_of_lookup. eauto.
Qed.

(** X15.  [addBody] appends the handle to the cell that [getBodyCell]
    computes for its body and returns that cell; the other cells are
    untouched, the counter grows by one, the handle is then in the Grid and
    every handle that was in the Grid still is. *)
Theorem addBody_spec b PositionGetter g body cell g' :
  addBody b PositionGetter g body = Ok (cell, g') ->
  getBodyCell b PositionGetter g (get body) = Ok cell
  /\ (exists l, deref (cells g) cell = Ok l
                /\ deref (cells g') cell = Ok (l ++ [body]))
  /\ (forall other, other <> cell ->
        deref (cells g') other = deref (cells g) other)
  /\ getBodyCount g' = wrap (getBodyCount g + 1)
  /\ in_grid g' body
  /\ (forall ptr, in_grid g ptr -> in_grid g' ptr)
  /\ bound g' = bound g /\ rows g' = rows g /\ columns g' = columns g.
Proof.
  unfold addBody. intros H. bind_inv H. bind_inv H. inversion H.
  subst cell g'. clear H. rename a into cell. rename a0 into l.
  pose proof (deref_assign_eq (cells g) cell (l ++ [body]) l E0) as Hnew.
  split; [exact E |].
  split; [exists l; split; [exact E0 | exact Hnew] |].
  split; [intros other Hne; apply deref_assign_ne; congruence |].
  split; [reflexivity |].
  split.
  { apply in_grid_lookup. exists (N.to_nat cell), (l ++ [body]).
    split; [apply deref_Ok, Hnew | apply in_or_app; right; left; reflexivity]. }
  split; [| repeat split].
  intros ptr Hin. apply in_grid_lookup in Hin as (i & c & Hi & Hp).
  apply in_grid_lookup.
  destruct (decide (i = N.to_nat cell)) as [-> | Hne].
  - exists (N.to_nat cell), (l ++ [body]).
    split; [apply deref_Ok, Hnew |].
    apply deref_Ok in E0. rewrite E0 in Hi. inversion Hi. subst.
    apply in_or_app. left. exact Hp.
  - exists i, c. split; [| exact Hp]. simpl.
    rewrite list_lookup_insert_ne by congruence. exact Hi.
Qed.

Lemma addBody_spec_witness :
  getBodyCell Validated corners grid_2x2 (get 4%N) = Ok 3%N
  /\ (exists l, deref (cells grid_2x2) 3%N = Ok l
                /\ deref (cells (mkGrid
                     (mkMatrix [[1%N]; [2%N]; [3%N]; [4%N; 4%N]] 2 2) 5
                     bound_2 2 2)) 3%N = Ok (l ++ [4%N])).
Proof.
  destruct (addBody_spec Validated corners grid_2x2 4%N 3%N
              (mkGrid (mkMatrix [[1%N]; [2%N]; [3%N]; [4%N; 4%N]] 2 2) 5
                      bound_2 2 2)) as (H1 & H2 & _).
  - reflexivity.
  - split; [exact H1 | exact H2].
Defined.

(** X16.  [addBody] keeps every handle in the cell of its body: on a Grid
    in which every handle resides in the cell [getCellIndex] computes, the
    validated [addBody] returns a Grid in which every handle, the new one
    included, does. *)
Theorem addBody_resident PositionGetter g body cell g' :
  resident Validated PositionGetter g = true ->
  addBody Validated PositionGetter g body = Ok (cell, g') ->
  resident Validated PositionGetter g' = true.
Proof.
  intros Hres H. rewrite resident_iff in *.
  unfold addBody in H. bind_inv H. bind_inv H. inversion H.
  subst cell g'. clear H. rename a into cell. rename a0 into l.
  intros i c ptr Hi Hp. simpl in Hi.
  rewrite resident_in_frame with (g := g) by reflexivity.
  apply deref_Ok in E0.
  destruct (decide (i = N.to_nat cell)) as [-> | Hne].
  - rewrite list_lookup_insert_eq in Hi by (eapply lookup_lt_Some, E0).
    inversion Hi. subst c. apply in_app_or in Hp as [Hp | [<- | []]].
    + eapply Hres; eauto.
    + unfold getBodyCell in E. bind_inv E. destruct a as [row col].
      apply Matrix_ref_Ok in E as [-> _].
      unfold resident_in. rewrite E1.
      assert (Hin : (row < rows g)%N /\ (col < columns g)%N).
      { unfold getCellIndex in E1. repeat bind_inv E1. simpl in E1.
        destruct (rows g <=? _)%N eqn:Er; [discriminate |].
        destruct (columns g <=? _)%N eqn:Ec; [discriminate |].
        inversion E1. subst. apply N.leb_gt in Er, Ec. split; assumption. }
      destruct Hin as [Hr Hc].
      apply N.ltb_lt in Hr, Hc. rewrite Hr, Hc, N2Nat.id, N.eqb_refl.
      reflexivity.
  - rewrite list_lookup_insert_ne in Hi by congruence. eapply Hres; eauto.
Qed.

Lemma addBody_resident_witness :
  resident Validated corners
    (mkGrid (mkMatrix [[1%N]; [2%N]; [3%N]; [4%N; 4%N]] 2 2) 5
            bound_2 2 2) = true.
Proof.
  apply (addBody_resident corners grid_2x2 4%N 3%N); reflexivity.
Defined.

Lemma filter_app_last_out (body : N) (l : list N) :
  ~ In body l ->
  List.filter (fun ptr => negb (get ptr =? body)%N) (l ++ [body]) = l
  /\ List.filter (fun ptr => (get ptr =? body)%N) (l ++ [body]) = [body].
Proof.
  intros Hnot. rewrite !List.filter_app. simpl. unfold get.
  rewrite N.eqb_refl. simpl. rewrite app_nil_r.
  induction l as [|a l IH]; simpl; [split; reflexivity |].
  destruct (a =? body)%N eqn:E.
  - apply N.eqb_eq in E. subst. exfalso. apply Hnot. left. reflexivity.
  - simpl. destruct IH as [IH1 IH2]; [intros H; apply Hnot; right; exact H |].
    rewrite IH1. split; [reflexivity | exact IH2].
Qed.

Lemma Grid_eta g :
  mkGrid (mkMatrix (data (cells g)) (mrows (cells g)) (mcolumns (cells g)))
         (num_bodies g) (bound g) (rows g) (columns g) = g.
Proof. destruct g as [[d r c] n bd rs cs]. reflexivity. Qed.

(** X17.  [removeBody] undoes [addBody]: removing the body of a handle
    just added, from the cell [addBody] returned, removes exactly that one
    handle and gives back the Grid as it was before, provided the cell held
    no handle of that body and the counter had room for one more. *)
Theorem addBody_removeBody b PositionGetter g body cell g1 l :
  addBody b PositionGetter g body = Ok (cell, g1) ->
  deref (cells g) cell = Ok l -> ~ In body l ->
  (num_bodies g + 1 < size_max)%N ->
  removeBody g1 (get body) cell = Ok (1%N, g).
Proof.
  intros H Hl Hnot Hroom. unfold addBody in H. bind_inv H. bind_inv H.
  inversion H. subst cell g1. clear H. rewrite Hl in E0. inversion E0.
  subst a0. rename a into cell.
  change (get body) with body.
  unfold removeBody. cbn [cells with_num_bodies with_cells].
  rewrite (deref_assign_eq (cells g) cell (l ++ [body]) l Hl).
  unfold_outcome. unfold remove_if.
  destruct (filter_app_last_out body l Hnot) as [-> ->]. simpl.
  f_equal. f_equal.
  unfold with_num_bodies, with_cells, assign. simpl.
  rewrite list_insert_insert_eq.
  rewrite (list_insert_id _ _ _ (proj1 (deref_Ok _ _ _) Hl)).
  rewrite (wrap_small (num_bodies g + 1)) by exact Hroom.
  change (N.of_nat 1) with 1%N.
  rewrite (wrap_sub_exact (num_bodies g + 1) 1) by lia.
  replace (num_bodies g + 1 - 1)%N with (num_bodies g) by lia.
  apply Grid_eta.
Qed.

Lemma addBody_removeBody_witness :
  removeBody grid_1x1 (get 2%N) 0%N
  = Ok (1%N, mkGrid (mkMatrix [[1%N]] 1 1) 1 bound_100 1 1).
Proof.
  apply (addBody_removeBody Validated side_by_side
           (mkGrid (mkMatrix [[1%N]] 1 1) 1 bound_100 1 1)
           2%N 0%N grid_1x1 [1%N]).
  - reflexivity.
  - reflexivity.
  - simpl. intros [H | []]. discriminate.
  - reflexivity.
Defined.

(** X18.  Removing a body twice removes nothing the second time: after
    [removeBody] the same call returns 0 and leaves the Grid as the first
    call left it. *)
Theorem removeBody_twice g body body_cell removed g1 :
  removeBody g body body_cell = Ok (removed, g1) ->
  removeBody g1 body body_cell = Ok (0%N, g1).
Proof.
  unfold removeBody. intros H. bind_inv H. unfold remove_if in H.
  inversion H. subst removed g1. clear H. rename a into l.
  set (kept := List.filter (fun ptr => negb (get ptr =? body)%N) l).
  cbn [cells with_num_bodies with_cells].
  rewrite (deref_assign_eq (cells g) body_cell kept l E).
  unfold_outcome. unfold remove_if.
  assert (Hnone : List.filter (fun ptr => (get ptr =? body)%N) kept = []).
  { unfold kept. clear. induction l as [|a l IH]; simpl; [reflexivity |].
    destruct (get a =? body)%N eqn:Ea; simpl; [exact IH |].
    rewrite Ea. exact IH. }
  rewrite Hnone, (filter_none _ _ Hnone). simpl.
  f_equal. f_equal.
  unfold with_num_bodies, with_cells, assign. simpl.
  rewrite list_insert_insert_eq. f_equal.
  rewrite wrap_sub_exact; [lia | lia | apply wrap_lt].
Qed.

Lemma removeBody_twice_witness :
  removeBody (mkGrid (mkMatrix [[2%N]] 1 1) 1 bound_100 1 1)
             1%N 0%N
  = Ok (0%N, mkGrid (mkMatrix [[2%N]] 1 1) 1 bound_100 1 1).
Proof.
  apply (removeBody_twice grid_twice 1%N 0%N 2%N). reflexivity.
Defined.

Lemma find_if_None {A : Type} (pred : A -> bool) (l : list A) :
  find_if pred l = None <-> forall a, In a l -> pred a = false.
Proof.
  induction l as [|a l IH]; simpl.
  - split; [intros _ a [] | reflexivity].
  - destruct (pred a) eqn:E.
    + split; [discriminate |]. intros H. rewrite (H a) in E by auto.
      discriminate.
    + destruct (find_if pred l) as [k|]; simpl.
      * split; [discriminate |]. intros H.
        assert (Hk : Some k = None)
          by (apply IH; intros a' Ha'; apply H; right; exact Ha').
        discriminate Hk.
      * split; [| reflexivity]. intros _ a' [<- | Ha]; [exact E |].
        apply IH; auto.
Qed.

(** [find_if] stops at the first element that satisfies the predicate;
    deleting it takes one such element away. *)
Lemma find_if_Some {A : Type} (pred : A -> bool) (l : list A) k :
  find_if pred l = Some k ->
  exists a, l !! k = Some a /\ pred a = true
            /\ (forall j b, (j < k)%nat -> l !! j = Some b -> pred b = false)
            /\ (length (List.filter pred (delete k l)) + 1
                = length (List.filter pred l))%nat.
Proof.
  revert k. induction l as [|a l IH]; intros k H; simpl in H; [discriminate |].
  destruct (pred a) eqn:E.
  - inversion H. subst k. exists a. simpl. rewrite E. simpl.
    repeat split; [intros j b Hj; lia | lia].
  - destruct (find_if pred l) as [k'|] eqn:F; [| discriminate].
    inversion H. subst k. destruct (IH k' eq_refl) as (a' & Hk & Ha & Hb & Hl).
    exists a'. simpl. rewrite E. repeat split; try assumption.
    intros [|j] b Hj Hjb; simpl in Hjb.
    + inversion Hjb. subst. exact E.
    + eapply Hb; [| exact Hjb]. lia.
Qed.

(** X19.  When the body has moved to another cell, [updateBodyCell] takes
    the first handle of the body out of the previous cell and appends it to
    the new cell, which it returns; the other cells and the counter are
    untouched.  Exactly one handle leaves the previous cell, also when it
    holds several handles of the body. *)
Theorem updateBodyCell_moves b PositionGetter g body previous_cell new_cell pl :
  getBodyCell b PositionGetter g body = Ok new_cell ->
  new_cell <> previous_cell ->
  deref (cells g) previous_cell = Ok pl ->
  In body pl ->
  exists k nl g',
    updateBodyCell b PositionGetter g body previous_cell = Ok (new_cell, g')
    /\ pl !! k = Some body
    /\ (forall j ptr, (j < k)%nat -> pl !! j = Some ptr -> get ptr <> body)
    /\ deref (cells g') previous_cell = Ok (delete k pl)
    /\ deref (cells g) new_cell = Ok nl
    /\ deref (cells g') new_cell = Ok (nl ++ [body])
    /\ (forall other, other <> previous_cell -> other <> new_cell ->
          deref (cells g') other = deref (cells g) other)
    /\ getBodyCount g' = getBodyCount g
    /\ (length (List.filter (fun ptr => (get ptr =? body)%N) (delete k pl)) + 1
        = length (List.filter (fun ptr => (get ptr =? body)%N) pl))%nat.
Proof.
  intros Hcell Hne Hpl Hin.
  destruct (find_if (fun ptr => (get ptr =? body)%N) pl) as [k|] eqn:F.
  2:{ exfalso. rewrite find_if_None in F. specialize (F body Hin).
      unfold get in F. rewrite N.eqb_refl in F. discriminate. }
  destruct (find_if_Some _ _ _ F) as (ptr & Hk & Hptr & Hfirst & Hlen).
  apply N.eqb_eq in Hptr. unfold get in Hptr. subst ptr.
  assert (Href : exists row col,
            getCellIndex b PositionGetter g body = Ok (row, col)
            /\ Matrix_ref (cells g) row col = Ok new_cell).
  { unfold getBodyCell in Hcell. bind_inv Hcell. destruct a as [row col].
    eauto. }
  destruct Href as (row & col & Hidx & Href).
  destruct (Matrix_ref_deref (cells g) row col new_cell Href) as [nl Hnl].
  assert (Hnl1 : deref (assign (cells g) previous_cell (delete k pl)) new_cell
                 = Ok nl).
  { rewrite deref_assign_ne by congruence. exact Hnl. }
  exists k, nl. eexists. split.
  { unfold updateBodyCell. rewrite Hidx. unfold_outcome. rewrite Href.
    destruct (new_cell =? previous_cell)%N eqn:En;
      [apply N.eqb_eq in En; contradiction |].
    rewrite Hpl, F, Hk, Hnl1. reflexivity. }
  split; [exact Hk |].
  split.
  { intros j ptr Hj Hjp. specialize (Hfirst j ptr Hj Hjp).
    apply N.eqb_neq in Hfirst. exact Hfirst. }
  cbn [cells with_cells].
  split.
  { rewrite deref_assign_ne by congruence. eapply deref_assign_eq, Hpl. }
  split; [exact Hnl |].
  split; [eapply deref_assign_eq, Hnl1 |].
  split.
  { intros other H1 H2. rewrite !deref_assign_ne by congruence. reflexivity. }
  split; [reflexivity | exact Hlen].
Qed.

Lemma updateBodyCell_moves_witness :
  exists k nl g',
    updateBodyCell Validated (everywhere (vec2f 1.1 1.1)) grid_2x2 1%N 0%N
    = Ok (3%N, g')
    /\ [1%N] !! k = Some 1%N
    /\ (forall j ptr, (j < k)%nat -> [1%N] !! j = Some ptr -> get ptr <> 1%N)
    /\ deref (cells g') 0%N = Ok (delete k [1%N])
    /\ deref (cells grid_2x2) 3%N = Ok nl
    /\ deref (cells g') 3%N = Ok (nl ++ [1%N])
    /\ (forall other, other <> 0%N -> other <> 3%N ->
          deref (cells g') other = deref (cells grid_2x2) other)
    /\ getBodyCount g' = getBodyCount grid_2x2
    /\ (length (List.filter (fun ptr => (get ptr =? 1)%N) (delete k [1%N])) + 1
        = length (List.filter (fun ptr => (get ptr =? 1)%N) [1%N]))%nat.
Proof.
  apply (updateBodyCell_moves Validated (everywhere (vec2f 1.1 1.1))
           grid_2x2 1%N 0%N 3%N [1%N]).
  - reflexivity.
  - discriminate.
  - reflexivity.
  - left. reflexivity.
Defined.

(** X20.  When the body has moved to another cell and the cell passed as
    the previous one holds no handle of it, [updateBodyCell] changes
    nothing: the validated build throws [std::out_of_range], the
    performance build splices the end iterator, which is undefined. *)
Theorem updateBodyCell_not_found b PositionGetter g body previous_cell
  new_cell pl :
  getBodyCell b PositionGetter g body = Ok new_cell ->
  new_cell <> previous_cell ->
  deref (cells g) previous_cell = Ok pl ->
  ~ In body pl ->
  updateBodyCell b PositionGetter g body previous_cell
  = if validated b then Throw out_of_range else Undefined.
Proof.
  intros Hcell Hne Hpl Hnot.
  unfold getBodyCell in Hcell. bind_inv Hcell. destruct a as [row col].
  unfold updateBodyCell. rewrite E. unfold_outcome. rewrite Hcell.
  destruct (new_cell =? previous_cell)%N eqn:En;
    [apply N.eqb_eq in En; contradiction |].
  rewrite Hpl.
  assert (F : find_if (fun ptr => (get ptr =? body)%N) pl = None).
  { apply find_if_None. intros a Ha. apply N.eqb_neq. unfold get.
    intros ->. contradiction. }
  rewrite F. reflexivity.
Qed.

Lemma updateBodyCell_not_found_witness :
  updateBodyCell Validated (everywhere (vec2f 1.1 1.1)) grid_2x2 1%N 1%N
  = Throw out_of_range.
Proof.
  apply (updateBodyCell_not_found Validated (everywhere (vec2f 1.1 1.1))
           grid_2x2 1%N 1%N 3%N [2%N]).
  - reflexivity.
  - discriminate.
  - reflexivity.
  - simpl. intros [H | []]. discriminate.
Defined.

(** X21.  [clearAllBodies] empties the Grid: on a well-formed Grid whose
    rows and columns are counted by an [int] it returns, and afterwards no
    handle is in the Grid, the counter is zero and the bound and the
    dimensions are as before. *)
Theorem clearAllBodies_empties g :
  wf_grid g ->
  (Z.of_N (rows g) <= INT_MAX)%Z -> (Z.of_N (columns g) <= INT_MAX)%Z ->
  exists g',
    clearAllBodies g = Ok g'
    /\ (forall ptr, ~ in_grid g' ptr)
    /\ getBodyCount g' = 0%N
    /\ wf_grid g'
    /\ bound g' = bound g /\ rows g' = rows g /\ columns g' = columns g.
Proof.
  intros Hwf Hr Hc.
  destruct (clearAllBodies_total g Hwf Hr Hc) as (g' & E & Hall & Hn & Hwf').
  exists g'. split; [exact E |].
  split.
  { intros ptr (cell & Hcell & Hptr). rewrite Forall_forall in Hall.
    apply list_elem_of_In in Hcell. rewrite (Hall _ Hcell) in Hptr.
    contradiction. }
  split; [exact Hn |]. split; [exact Hwf' |].
  unfold clearAllBodies in E. bind_inv E. inversion E. repeat split.
Qed.

Lemma clearAllBodies_empties_witness :
  exists g',
    clearAllBodies grid_2x2 = Ok g'
    /\ (forall ptr, ~ in_grid g' ptr)
    /\ getBodyCount g' = 0%N
    /\ wf_grid g'
    /\ bound g' = bound grid_2x2 /\ rows g' = 2%N /\ columns g' = 2%N.
Proof.
  apply (clearAllBodies_empties grid_2x2).
  - exact grid_2x2_wf.
  - vm_compute. discriminate.
  - vm_compute. discriminate.
Defined.

(** ** Queries *)

Lemma foldl_insert_adjacent_sound g idx (is_nearby : Body -> bool) offsets :
  forall acc result,
    foldl (insert_adjacent g idx is_nearby) acc offsets = Ok result ->
    exists r0, acc = Ok r0
               /\ forall ptr, In ptr result ->
                    In ptr r0 \/ (in_grid g ptr /\ is_nearby (get ptr) = true).
Proof.
  induction offsets as [|xy offsets IH]; intros acc result H; simpl in H.
  - exists result. split; [exact H | auto].
  - apply IH in H as (r1 & E1 & H1). unfold insert_adjacent in E1.
    bind_inv E1. exists a. split; [exact E |].
    bind_inv E1.
    destruct (is_cell_within_bound g a0).
    + bind_inv E1. bind_inv E1. inversion E1. subst r1.
      intros ptr Hp. destruct (H1 ptr Hp) as [Hin | Hok]; [| auto].
      apply in_app_or in Hin as [Hin | Hin]; [auto |].
      apply filter_In in Hin as [Hin Hnear]. right. split; [| exact Hnear].
      apply in_grid_lookup. apply deref_Ok in E3. eauto.
    + inversion E1. subst r1. exact H1.
Qed.

(** X22.  [queryDistance] returns nothing that fails its comparison:
    whatever the distance, the cell index passed and the state of the Grid,
    in either build every handle of the result is a handle of the Grid whose
    body passes the comparison of the code with the queried body, the
    squared distance as [distance2] rounds it against the square of the
    distance in [double]. *)
Theorem queryDistance_sound b PositionGetter g body body_cell_index d result :
  queryDistance b PositionGetter g body body_cell_index d = Ok result ->
  forall ptr, In ptr result ->
    in_grid g ptr
    /\ fle (distance2 (PositionGetter (get ptr)) (PositionGetter body))
           (pow2 d) = true.
Proof.
  intros H ptr Hp.
  unfold queryDistance in H. bind_inv H. bind_inv H. bind_inv H.
  apply foldl_insert_adjacent_sound in H as (r0 & E2 & Hall).
  inversion E2. subst r0. clear E2.
  destruct (Hall ptr Hp) as [Hin | [Hg Hn]].
  - apply filter_In in Hin as [Hin Hf].
    apply andb_true_iff in Hf as [_ Hn].
    split; [| exact Hn]. apply in_grid_lookup. apply deref_Ok in E1. eauto.
  - split; assumption.
Qed.

Lemma queryDistance_sound_witness :
  in_grid grid_2x2 4%N
  /\ fle (distance2 (corners (get 4%N)) (corners 1%N)) (pow2 (f32 0.3)) = true.
Proof.
  apply (queryDistance_sound Performance corners grid_2x2 1%N (0%N, 0%N)
           (f32 0.3) [3%N; 2%N; 4%N]).
  - vm_compute. reflexivity.
  - simpl. auto.
Defined.

Section Sound.
Variable ptr_hash : body_ptr_t -> N.
Variable good : pair_t -> Prop.

Lemma emplace_all (s : pair_set) (pair : pair_t) :
  good pair ->
  (forall e, In e (elements_of s) -> good e) ->
  forall e, In e (elements_of (emplace ptr_hash s pair)) -> good e.
Proof.
  intros Hpair Hs e He. unfold emplace in He.
  destruct (existsb _ _); [auto |].
  apply elements_of_In in He as (k & bucket & Hk & He).
  apply lookup_insert_Some in Hk as [[<- <-] | [Hne Hk]].
  - apply in_app_or in He as [He | [<- | []]]; [| exact Hpair].
    apply Hs, elements_of_In.
    destruct (s !! symmetric_pair_hash ptr_hash pair) as [b0|] eqn:E;
      [eauto | contradiction].
  - apply Hs, elements_of_In. eauto.
Qed.

Lemma check_pairs_all (is_nearby : Body -> Body -> bool) check_bodies :
  (forall p q, In p check_bodies -> In q check_bodies ->
               is_nearby (get p) (get q) = true -> good (p, q)) ->
  forall s,
    (forall e, In e (elements_of s) -> good e) ->
    forall e, In e (elements_of
                      (check_pairs ptr_hash is_nearby check_bodies s)) ->
              good e.
Proof.
  induction check_bodies as [|bi later IH]; intros Hgood s Hs; simpl.
  - exact Hs.
  - apply IH; [intros p q Hp Hq; apply Hgood; right; assumption |].
    assert (Hlater : forall q, In q later ->
              is_nearby (get bi) (get q) = true -> good (bi, q)).
    { intros q Hq. apply Hgood; [left; reflexivity | right; exact Hq]. }
    clear IH Hgood. revert s Hs.
    induction later as [|bj later IH]; intros s Hs; simpl; [exact Hs |].
    apply IH; [intros q Hq; apply Hlater; right; exact Hq |].
    destruct (is_nearby (get bi) (get bj)) eqn:En; [| exact Hs].
    apply emplace_all; [| exact Hs]. apply Hlater; [left; reflexivity | exact En].
Qed.
End Sound.

(** X23.  [queryDistancePair] returns no pair that fails its comparison:
    whatever the distance and the state of the Grid, in either build every
    pair of the result is a pair of handles of the Grid whose bodies pass
    the comparison of the code, the squared distance as [distance2] rounds
    it against the square of the distance in [double]. *)
Theorem queryDistancePair_sound b PositionGetter ptr_hash g d result :
  queryDistancePair b PositionGetter ptr_hash g d = Ok result ->
  forall p q, In (p, q) (elements_of result) ->
    in_grid g p /\ in_grid g q
    /\ fle (distance2 (PositionGetter (get p)) (PositionGetter (get q)))
           (pow2 d) = true.
Proof.
  intros H.
  set (good := fun e : N * N =>
         in_grid g (fst e) /\ in_grid g (snd e)
         /\ fle (distance2 (PositionGetter (get (fst e)))
                           (PositionGetter (get (snd e)))) (pow2 d) = true).
  assert (Hall : forall e, In e (elements_of result) -> good e).
  { unfold queryDistancePair in H. bind_inv H. unfold for_range in H.
    eapply (for_loop_invariant
              (fun s => forall e, In e (elements_of s) -> good e));
      [| | exact H].
    2:{ intros e He. apply elements_of_In in He as (k & bk & Hk & _).
        rewrite lookup_empty in Hk. discriminate. }
    intros row s s' Hs Hrow.
    eapply (for_loop_invariant
              (fun s => forall e, In e (elements_of s) -> good e));
      [| exact Hs | exact Hrow].
    clear. intros col s s' Hs Hcol. unfold sweep_position in Hcol.
    repeat bind_inv Hcol.
    destruct (_ =? _)%N; [inversion Hcol; subst; exact Hs |].
    destruct (_ <? _)%Z; [discriminate |].
    inversion Hcol. apply check_pairs_all; [| exact Hs].
    assert (Hgrid : forall p, In p (a0 ++ a2 ++ a4 ++ a6) -> in_grid g p).
    { intros p Hp. apply in_grid_lookup.
      apply deref_Ok in E0, E2, E4, E6.
      rewrite !in_app_iff in Hp. destruct Hp as [Hp | [Hp | [Hp | Hp]]]; eauto. }
    intros p q Hp Hq Hn.
    unfold good. simpl. auto. }
  intros p q Hpq. exact (Hall _ Hpq).
Qed.

Lemma queryDistancePair_sound_witness :
  exists result,
    queryDistancePair Validated corners pointer_value grid_2x2 (f32 0.3)
    = Ok result
    /\ forall p q, In (p, q) (elements_of result) ->
         in_grid grid_2x2 p /\ in_grid grid_2x2 q
         /\ fle (distance2 (corners (get p)) (corners (get q)))
                (pow2 (f32 0.3)) = true.
Proof.
  eexists. split; [vm_compute; reflexivity |].
  apply (queryDistancePair_sound Validated corners pointer_value grid_2x2
           (f32 0.3)).
  vm_compute. reflexivity.
Defined.

Lemma symmetric_pair_equal_trans (p q r : pair_t) :
  symmetric_pair_equal p q = true -> symmetric_pair_equal q r = true ->
  symmetric_pair_equal p r = true.
Proof.
  rewrite !symmetric_pair_equal_spec. intuition congruence.
Qed.

(** X24.  Inserting an equal pair again changes nothing: after a pair has
    been emplaced in the result set, emplacing the same two handles, in the
    same or in the other order, leaves the set as it is. *)
Theorem emplace_again (ptr_hash : body_ptr_t -> N) (s : pair_set)
  (pair pair' : pair_t) :
  symmetric_pair_equal pair pair' = true ->
  emplace ptr_hash (emplace ptr_hash s pair) pair' = emplace ptr_hash s pair.
Proof.
  intros Heq.
  pose proof (symmetric_pair_equal_hash ptr_hash _ _ Heq) as Hh.
  assert (Hfound : forall (t : pair_set) e,
            In e (default [] (t !! symmetric_pair_hash ptr_hash pair)) ->
            symmetric_pair_equal pair e = true ->
            emplace ptr_hash t pair' = t).
  { intros t e He Hpe. unfold emplace. rewrite <- Hh.
    assert (Hex : existsb (symmetric_pair_equal pair')
                    (default [] (t !! symmetric_pair_hash ptr_hash pair))
                  = true).
    { apply existsb_exists. exists e. split; [exact He |].
      eapply symmetric_pair_equal_trans; [| exact Hpe].
      rewrite symmetric_pair_equal_sym. exact Heq. }
    rewrite Hex. reflexivity. }
  remember (emplace ptr_hash s pair) as t eqn:Et. unfold emplace in Et.
  destruct (existsb _ _) eqn:Ex; subst t.
  - apply existsb_exists in Ex as (e & He & Hpe). eapply Hfound; eauto.
  - apply (Hfound _ pair).
    + rewrite lookup_insert_eq. simpl. apply in_or_app. right. left.
      reflexivity.
    + apply symmetric_pair_equal_spec. left. split; reflexivity.
Qed.

Lemma emplace_again_witness :
  emplace pointer_value (emplace pointer_value ∅ (1%N, 2%N)) (2%N, 1%N)
  = emplace pointer_value ∅ (1%N, 2%N).
Proof.
  apply (emplace_again pointer_value ∅ (1%N, 2%N) (2%N, 1%N)). reflexivity.
Defined.


(** ** The queries together *)

Lemma fle_trans (a b c : float) :
  fle a b = true -> fle b c = true -> fle a c = true.
Proof.
  destruct a as [p|s|[]|], b as [q|s'|[]|], c as [r|s''|[]|];
    try discriminate; try reflexivity; intros H1 H2;
    apply fle_finite in H1; try reflexivity;
    apply fle_finite in H2; try reflexivity;
    apply fle_finite; try reflexivity; simpl in *; lra.
Qed.

Lemma pow2_finite (a : float) :
  is_finite a = true ->
  same_number (pow2 a) (round_to binary64 (value a * value a)).
Proof.
  destruct a as [p|s| |]; try discriminate; intros _.
  - left. reflexivity.
  - right. exists (xorb s s), false. split; reflexivity.
Qed.

(** The square keeps the order of the distances that are not negative. *)
Lemma pow2_monotone (d d' : float) :
  fle fzero d = true -> fle d d' = true -> fle (pow2 d) (pow2 d') = true.
Proof.
  intros H0 Hle. destruct (is_finite d) eqn:Fd, (is_finite d') eqn:Fd'.
  - apply fle_finite in H0; try reflexivity; try assumption.
    apply fle_finite in Hle; try assumption. simpl in H0.
    rewrite (fle_same_number _ _ _ _ (pow2_finite d Fd) (pow2_finite d' Fd')).
    apply fle_round_to; [discriminate | nra].
  - destruct d' as [q'|s'|[]|]; try discriminate;
      try (destruct d as [| | |]; discriminate).
    change (pow2 (Finf false)) with (Finf false).
    pose proof (pow2_not_negative d) as [E | [E | [[s E] | (q & E & _)]]];
      rewrite E; try reflexivity.
    exfalso. destruct d as [p|s| |]; try discriminate.
    exact (round_to_finite_or_inf binary64 _ E).
  - destruct d as [| |[]|], d' as [| | |]; discriminate.
  - destruct d as [| |[]|], d' as [| |[]|]; try discriminate; reflexivity.
Qed.

Lemma insert_adjacent_incl g idx (near near' : Body -> bool) acc acc' xy r r' :
  (forall other, near other = true -> near' other = true) ->
  (forall a a', acc = Ok a -> acc' = Ok a' -> incl a a') ->
  insert_adjacent g idx near acc xy = Ok r ->
  insert_adjacent g idx near' acc' xy = Ok r' ->
  incl r r'.
Proof.
  intros Hnear Hacc H H'. unfold insert_adjacent in H, H'.
  bind_inv H. bind_inv H'. specialize (Hacc _ _ E E0).
  bind_inv H. bind_inv H'. rewrite E1 in E2. inversion E2. subst a2.
  destruct (is_cell_within_bound g a1).
  - bind_inv H. bind_inv H'. rewrite E3 in E4. inversion E4. subst a3.
    bind_inv H. bind_inv H'. rewrite E5 in E6. inversion E6. subst a4.
    inversion H. inversion H'. intros ptr Hp.
    apply in_app_or in Hp as [Hp | Hp]; apply in_or_app; [left; auto |].
    right. apply filter_In in Hp as [Hin Hf]. apply filter_In. auto.
  - inversion H. inversion H'. subst. exact Hacc.
Qed.

Lemma foldl_insert_adjacent_incl g idx (near near' : Body -> bool) offsets :
  (forall other, near other = true -> near' other = true) ->
  forall acc acc' r r',
    (forall a a', acc = Ok a -> acc' = Ok a' -> incl a a') ->
    foldl (insert_adjacent g idx near) acc offsets = Ok r ->
    foldl (insert_adjacent g idx near') acc' offsets = Ok r' ->
    incl r r'.
Proof.
  intros Hnear. induction offsets as [|xy offsets IH];
    intros acc acc' r r' Hacc H H'; simpl in H, H'.
  - apply Hacc; assumption.
  - eapply IH; [| exact H | exact H'].
    intros a a' Ha Ha'. eapply insert_adjacent_incl; eauto.
Qed.

(** X28.  A larger distance never loses a body: of two calls of
    [queryDistance] for the same body, cell index and Grid that both
    return, the one with the larger distance returns every handle the other
    returns, the smaller distance being not negative.  The square in
    [double] and its comparison keep the order of the distances. *)
Theorem queryDistance_grows b PositionGetter g body body_cell_index d d'
  result result' :
  fle fzero d = true -> fle d d' = true ->
  queryDistance b PositionGetter g body body_cell_index d = Ok result ->
  queryDistance b PositionGetter g body body_cell_index d' = Ok result' ->
  forall ptr, In ptr result -> In ptr result'.
Proof.
  intros H0 Hle H H'.
  pose proof (pow2_monotone d d' H0 Hle) as Hsq.
  assert (Hnear : forall other : Body,
            fle (distance2 (PositionGetter other) (PositionGetter body))
                (pow2 d) = true ->
            fle (distance2 (PositionGetter other) (PositionGetter body))
                (pow2 d') = true).
  { intros other Ho. eapply fle_trans; eassumption. }
  unfold queryDistance in H, H'.
  bind_inv H. bind_inv H'. bind_inv H. bind_inv H'.
  rewrite E1 in E2. inversion E2. subst a2.
  bind_inv H. bind_inv H'. rewrite E3 in E4. inversion E4. subst a3.
  eapply (foldl_insert_adjacent_incl g body_cell_index _ _ adjacent_offsets
            Hnear); [| exact H | exact H'].
  intros l l' El El'. inversion El. inversion El'. intros ptr Hp.
  apply filter_In in Hp as [Hin Hf]. apply filter_In. split; [exact Hin |].
  apply andb_true_iff in Hf as [Hne Hf]. apply andb_true_iff. auto.
Qed.

Lemma queryDistance_grows_witness : In 2%N [3%N; 2%N; 4%N].
Proof.
  apply (queryDistance_grows Validated corners grid_2x2 1%N (0%N, 0%N)
           (f32 0.2001) (f32 0.3) [3%N; 2%N] [3%N; 2%N; 4%N]).
  - vm_compute. reflexivity.
  - vm_compute. reflexivity.
  - vm_compute. reflexivity.
  - vm_compute. reflexivity.
  - simpl. auto.
Defined.

Lemma queryDistance_check b PositionGetter g body idx d result :
  queryDistance b PositionGetter g body idx d = Ok result ->
  check_distance b g d = Ok tt.
Proof.
  unfold queryDistance. intros H. bind_inv H. destruct a. exact E.
Qed.

(** X29.  [queryDistance] is symmetric: on a well-formed Grid in which
    every handle resides in the cell of its body, when the query of the
    body of one handle returns another handle, the query of the body of
    that other handle, with its cell index and the same distance, returns
    the first.  The squared distance is the same in both directions,
    rounding included. *)
Theorem queryDistance_symmetric b PositionGetter g d ptr1 ptr2 row1 col1
  row2 col2 result1 :
  wf_grid g ->
  (Z.of_N (rows g) <= INT_MAX)%Z -> (Z.of_N (columns g) <= INT_MAX)%Z ->
  resident b PositionGetter g = true ->
  in_grid g ptr1 ->
  getCellIndex b PositionGetter g (get ptr1) = Ok (row1, col1) ->
  getCellIndex b PositionGetter g (get ptr2) = Ok (row2, col2) ->
  queryDistance b PositionGetter g (get ptr1) (row1, col1) d = Ok result1 ->
  In ptr2 result1 ->
  exists result2,
    queryDistance b PositionGetter g (get ptr2) (row2, col2) d = Ok result2
    /\ In ptr1 result2.
Proof.
  intros Hwf Hri Hci Hres Hin1 Hidx1 Hidx2 Hq Hp.
  pose proof (queryDistance_check _ _ _ _ _ _ _ Hq) as Hcheck.
  destruct (resident_cell_at b PositionGetter g ptr1 Hwf Hres Hin1)
    as (r & c & Hidx & Hrow1 & Hcol1 & Hcell1).
  rewrite Hidx1 in Hidx. inversion Hidx. subst r c.
  rewrite (queryDistance_Ok b PositionGetter g (get ptr1) row1 col1 d)
    in Hq by assumption.
  inversion Hq. subst result1.
  apply (In_query_result b) in Hp; try assumption.
  destruct Hp as ((r2 & c2 & Hr2 & Hc2 & Hrr & Hcc & Hcell2) & Hne & Hnear).
  pose proof (cell_at_resident b PositionGetter g ptr2 r2 c2 Hwf Hres Hr2 Hc2
                Hcell2) as Hidx2'.
  rewrite Hidx2 in Hidx2'. inversion Hidx2'. subst r2 c2.
  exists (query_result PositionGetter g (get ptr2) row2 col2 d).
  split; [apply queryDistance_Ok; assumption |].
  apply (In_query_result b); try assumption.
  split; [| split].
  - exists row1, col1. repeat split; try assumption; lia.
  - congruence.
  - rewrite distance2_sym. exact Hnear.
Qed.

Lemma queryDistance_symmetric_witness :
  exists result2,
    queryDistance Validated corners grid_2x2 (get 4%N) (1%N, 1%N) (f32 0.3)
    = Ok result2
    /\ In 1%N result2.
Proof.
  apply (queryDistance_symmetric Validated corners grid_2x2 (f32 0.3)
           1%N 4%N 0%N 0%N 1%N 1%N [3%N; 2%N; 4%N]).
  - exact grid_2x2_wf.
  - vm_compute. discriminate.
  - vm_compute. discriminate.
  - vm_compute. reflexivity.
  - exists [1%N]. simpl. auto.
  - vm_compute. reflexivity.
  - vm_compute. reflexivity.
  - vm_compute. reflexivity.
  - simpl. auto.
Defined.

(** X30.  The two queries agree: on a well-formed Grid with at least two
    rows and two columns in which every handle resides in the cell of its
    body, every handle that [queryDistance] returns for the body of a handle
    of the Grid is, with that handle, a pair of the set that
    [queryDistancePair] returns for the same distance. *)
Theorem queries_agree b PositionGetter ptr_hash g d ptr1 ptr2 row col
  result pairs :
  wf_grid g -> (2 <= rows g)%N -> (2 <= columns g)%N ->
  (Z.of_N (rows g) <= INT_MAX)%Z -> (Z.of_N (columns g) <= INT_MAX)%Z ->
  Forall (fun cell => (4 * Z.of_nat (length cell) <= INT_MAX)%Z)
         (data (cells g)) ->
  resident b PositionGetter g = true ->
  in_grid g ptr1 ->
  getCellIndex b PositionGetter g (get ptr1) = Ok (row, col) ->
  queryDistance b PositionGetter g (get ptr1) (row, col) d = Ok result ->
  queryDistancePair b PositionGetter ptr_hash g d = Ok pairs ->
  In ptr2 result ->
  holds_pair pairs (ptr1, ptr2).
Proof.
  intros Hwf Hrows Hcols Hri Hci Hsmall Hres Hin1 Hidx Hq Hpairs Hp.
  pose proof (queryDistance_check _ _ _ _ _ _ _ Hq) as Hcheck.
  destruct (resident_cell_at b PositionGetter g ptr1 Hwf Hres Hin1)
    as (r & c & Hidx' & Hrow & Hcol & Hcell1).
  rewrite Hidx in Hidx'. inversion Hidx'. subst r c.
  rewrite (queryDistance_Ok b PositionGetter g (get ptr1) row col d)
    in Hq by assumption.
  inversion Hq. subst result.
  apply (In_query_result b) in Hp; try assumption.
  destruct Hp as ((r2 & c2 & Hr2 & Hc2 & Hrr & Hcc & Hcell2) & Hne & Hnear).
  destruct (sweep_reaches b PositionGetter ptr_hash g d Hwf Hrows Hcols Hsmall
              Hcheck) as (pairs' & E & Hall).
  rewrite Hpairs in E. inversion E. subst pairs'.
  apply (Hall ptr1 ptr2 row col r2 c2); try assumption.
  - intros ->. apply Hne. reflexivity.
  - rewrite distance2_sym. exact Hnear.
Qed.

Lemma queries_agree_witness :
  exists pairs,
    queryDistancePair Validated corners pointer_value grid_2x2 (f32 0.3)
    = Ok pairs
    /\ holds_pair pairs (1%N, 4%N).
Proof.
  eexists. split; [vm_compute; reflexivity |].
  apply (queries_agree Validated corners pointer_value grid_2x2 (f32 0.3)
           1%N 4%N 0%N 0%N [3%N; 2%N; 4%N]).
  - exact grid_2x2_wf.
  - vm_compute. discriminate.
  - vm_compute. discriminate.
  - vm_compute. discriminate.
  - vm_compute. discriminate.
  - repeat constructor; vm_compute; discriminate.
  - vm_compute. reflexivity.
  - exists [1%N]. simpl. auto.
  - vm_compute. reflexivity.
  - vm_compute. reflexivity.
  - vm_compute. reflexivity.
  - simpl. auto.
Defined.
